(** * Influence graph: the scoring engine, its result cache and the
      recompute cycle, embedded from [src/lib/influence-engine.ts] and
      [src/app/api/influence/recalculate/route.ts]. *)

From Stdlib Require Import PrimFloat.
From Stdlib Require Import ZArith QArith Qminmax Lqa Reals Lra Lia.
From Stdlib Require Import Ascii List Sorting.Sorted Sorting.Permutation.
From Stdlib Require Floats Uint63.
From stdpp Require Import gmap strings list fin_maps.

Set Warnings "-inexact-float".
Local Open Scope Z_scope.

(** ** ECMAScript numbers

    The engine computes on the ECMAScript [number] type.  Its arithmetic is
    kept behind one interface, so that the same embedding runs on IEEE-754
    binary64 (what the program computes with), on exact rationals and on the
    reals:
    - [n_ofZ]     an integer literal, or an integer taken as a number;
    - [n_ltb a b] the comparison [a < b] ([a > b] is [n_ltb b a]);
    - [n_truthy]  ToBoolean, which decides [x || 0];
    - [n_max]     [Math.max]. *)

Class JsNumber (num : Type) := {
  n_ofZ : Z -> num;
  n_add : num -> num -> num;
  n_sub : num -> num -> num;
  n_mul : num -> num -> num;
  n_div : num -> num -> num;
  n_ltb : num -> num -> bool;
  n_truthy : num -> bool;
  n_max : num -> num -> num
}.

(** [Math.pow] and [Math.sqrt] are builtins of the host; an instance exists
    only where the number type can express them (the reals). *)
Class JsMath (num : Type) := {
  Math_pow : num -> num -> num;
  Math_sqrt : num -> num
}.

(** A decimal literal [m * 10^-e], such as [0.6 = dec 6 1].  On binary64 the
    division is correctly rounded, which yields the double nearest to the
    decimal: the value of the literal in the source. *)
Definition dec {num} `{JsNumber num} (m : Z) (e : nat) : num :=
  n_div (n_ofZ m) (n_ofZ (10 ^ Z.of_nat e)).

(** [x || d] on numbers. *)
Definition n_or {num} `{JsNumber num} (x d : num) : num :=
  if n_truthy x then x else d.

(** Exact rationals. *)
#[export] Instance Q_number : JsNumber Q := {
  n_ofZ := inject_Z;
  n_add := Qplus;
  n_sub := Qminus;
  n_mul := Qmult;
  n_div := Qdiv;
  n_ltb := fun a b => negb (Qle_bool b a);
  n_truthy := fun a => negb (Qeq_bool a 0);
  n_max := fun a b => if Qle_bool a b then b else a
}.

(** IEEE-754 binary64, the representation of an ECMAScript number.  An
    integer converts through the 63-bit machine integers, which covers the
    integers a number holds exactly. *)
Definition float_ofZ (z : Z) : PrimFloat.float :=
  if z <? 0
  then PrimFloat.opp (PrimFloat.of_uint63 (Uint63.of_Z (- z)))
  else PrimFloat.of_uint63 (Uint63.of_Z z).

(** [Math.max] on two numbers: NaN if either is NaN, and [+0] above [-0]. *)
Definition float_max (a b : PrimFloat.float) : PrimFloat.float :=
  if PrimFloat.is_nan a then a
  else if PrimFloat.is_nan b then b
  else if PrimFloat.ltb a b then b
  else if PrimFloat.ltb b a then a
  else if PrimFloat.eqb a PrimFloat.zero then PrimFloat.add a b
  else a.

#[export] Instance float_number : JsNumber PrimFloat.float := {
  n_ofZ := float_ofZ;
  n_add := PrimFloat.add;
  n_sub := PrimFloat.sub;
  n_mul := PrimFloat.mul;
  n_div := PrimFloat.div;
  n_ltb := PrimFloat.ltb;
  n_truthy := fun a => negb (PrimFloat.eqb a PrimFloat.zero || PrimFloat.is_nan a);
  n_max := float_max
}.

(** The reals: binary64 without rounding, the only instance with a power of
    real exponent.  [Math_pow] is [Rpower] on a positive base and the integer
    power on an integral exponent.  The cases left (a negative base with a
    fractional exponent, zero to a negative power) are NaN or infinite in
    the source; they have no counterpart here and no statement below rests
    on them. *)
Definition R_is_int (x : R) : option Z :=
  let n := (up x - 1)%Z in
  if Req_dec_T x (IZR n) then Some n else None.

Definition R_pow (b e : R) : R :=
  if Rlt_dec 0 b then Rpower b e
  else match R_is_int e with
       | Some n => powerRZ b n
       | None => 0%R
       end.

#[export] Instance R_number : JsNumber R := {
  n_ofZ := IZR;
  n_add := Rplus;
  n_sub := Rminus;
  n_mul := Rmult;
  n_div := Rdiv;
  n_ltb := fun a b => if Rlt_dec a b then true else false;
  n_truthy := fun a => if Req_dec_T a 0 then false else true;
  n_max := Rmax
}.

#[export] Instance R_math : JsMath R := {
  Math_pow := R_pow;
  Math_sqrt := sqrt
}.

(** ** Data model of the engine *)

Record InfluenceNode (num : Type) := {
  node_id : string;
  name : string;
  departmentId : option string;
  departmentName : option string;
  score : num;
  rawScore : num;
  volatility : num
}.
Arguments node_id {num}. Arguments name {num}.
Arguments departmentId {num}. Arguments departmentName {num}.
Arguments score {num}. Arguments rawScore {num}. Arguments volatility {num}.

(** [createdAt] is the [Date] as its epoch milliseconds ([getTime]). *)
Record InfluenceEdge (num : Type) := {
  edge_id : string;
  sourceUserId : string;
  targetUserId : string;
  weight : num;
  context : option string;
  createdAt : Z
}.
Arguments edge_id {num}. Arguments sourceUserId {num}.
Arguments targetUserId {num}. Arguments weight {num}.
Arguments context {num}. Arguments createdAt {num}.

Record InfluencePath (num : Type) := {
  path : list string;
  path_weight : num;
  depth : Z
}.
Arguments path {num}. Arguments path_weight {num}. Arguments depth {num}.

Record PropagationResult (num : Type) := {
  nodeId : string;
  directInfluence : num;
  propagatedInfluence : num;
  totalInfluence : num;
  paths : list (InfluencePath num)
}.
Arguments nodeId {num}. Arguments directInfluence {num}.
Arguments propagatedInfluence {num}. Arguments totalInfluence {num}.
Arguments paths {num}.

(** An element of the traversal queue of [propagateFromNode]. *)
Record QueueItem (num : Type) := {
  q_nodeId : string;
  q_weight : num;
  q_path : list string;
  q_depth : Z
}.
Arguments q_nodeId {num}. Arguments q_weight {num}.
Arguments q_path {num}. Arguments q_depth {num}.

(** The mutable locals of the [while] loop of [propagateFromNode].  The
    source also fills a set [visited] with the source node; no statement
    reads it, so it carries no state here. *)
Record LoopState (num : Type) := {
  queue : list (QueueItem num);
  st_paths : list (InfluencePath num);
  st_propagated : num
}.
Arguments queue {num}. Arguments st_paths {num}. Arguments st_propagated {num}.

Section Engine.
Context {num : Type} `{JsNumber num}.

(** [PROPAGATION_CONFIG] *)
Definition MAX_DEPTH : Z := 3.
Definition DECAY_FACTOR : num := dec 6 1.
Definition MIN_WEIGHT_THRESHOLD : num := dec 1 2.
Definition DEFAULT_DECAY_RATE : num := dec 5 2.
Definition CACHE_TTL : Z := 300000.

(** [buildAdjacencyList]: one pass over the edges, each appended to the
    list of its source (created empty on first sight). *)
Definition adjacency_add (adjacencyList : gmap string (list (InfluenceEdge num)))
    (edge : InfluenceEdge num) : gmap string (list (InfluenceEdge num)) :=
  <[sourceUserId edge := default [] (adjacencyList !! sourceUserId edge) ++ [edge]]>
    adjacencyList.

Definition buildAdjacencyList (edges : list (InfluenceEdge num))
    : gmap string (list (InfluenceEdge num)) :=
  fold_left adjacency_add edges ∅.

(** [adjacencyList.get(id) || []] *)
Definition neighbors_of (adjacencyList : gmap string (list (InfluenceEdge num)))
    (id : string) : list (InfluenceEdge num) :=
  default [] (adjacencyList !! id).

(** The weight carried over one edge. *)
Definition propagatedWeight (decayFactor : num) (current : QueueItem num)
    (edge : InfluenceEdge num) : num :=
  n_mul (n_mul (q_weight current) (n_div (weight edge) (n_ofZ 100))) decayFactor.

(** One turn of the inner [for (const edge of neighbors)] loop. *)
Definition explore_edge (decayFactor : num) (current : QueueItem num)
    (q : list (QueueItem num)) (edge : InfluenceEdge num) : list (QueueItem num) :=
  let targetId := targetUserId edge in
  let pw := propagatedWeight decayFactor current edge in
  if n_ltb pw MIN_WEIGHT_THRESHOLD then q
  else q ++ [ {| q_nodeId := targetId; q_weight := pw;
                 q_path := q_path current ++ [targetId];
                 q_depth := q_depth current + 1 |} ].

(** One turn of the [while (queue.length > 0)] loop, [current] being the
    element shifted off the queue and [rest] what remains of it.  Depths
    count edges, so [maxDepth] is an integer. *)
Definition loop_body (adjacencyList : gmap string (list (InfluenceEdge num)))
    (maxDepth : Z) (decayFactor : num)
    (current : QueueItem num) (rest : list (QueueItem num))
    (st : LoopState num) : LoopState num :=
  let recorded := 0 <? q_depth current in
  let paths' :=
    if recorded
    then st_paths st ++ [ {| path := q_path current;
                             path_weight := q_weight current;
                             depth := q_depth current |} ]
    else st_paths st in
  let propagated' :=
    if recorded then n_add (st_propagated st) (q_weight current)
    else st_propagated st in
  if maxDepth <=? q_depth current
  then {| queue := rest; st_paths := paths'; st_propagated := propagated' |}
  else {| queue := fold_left (explore_edge decayFactor current)
                     (neighbors_of adjacencyList (q_nodeId current)) rest;
          st_paths := paths'; st_propagated := propagated' |}.

(** The loop itself; [fuel] bounds the number of turns, and [None] is the
    loop still running when the fuel is spent. *)
Fixpoint while_loop (fuel : nat)
    (adjacencyList : gmap string (list (InfluenceEdge num)))
    (maxDepth : Z) (decayFactor : num) (st : LoopState num)
    : option (LoopState num) :=
  match queue st with
  | [] => Some st
  | current :: rest =>
      match fuel with
      | O => None
      | S fuel' =>
          while_loop fuel' adjacencyList maxDepth decayFactor
            (loop_body adjacencyList maxDepth decayFactor current rest st)
      end
  end.

Definition initial_state (sourceId : string) : LoopState num :=
  {| queue := [ {| q_nodeId := sourceId; q_weight := n_ofZ 1;
                   q_path := [sourceId]; q_depth := 0 |} ];
     st_paths := [];
     st_propagated := n_ofZ 0 |}.

Definition propagateFromNode (fuel : nat) (sourceId : string)
    (adjacencyList : gmap string (list (InfluenceEdge num)))
    (maxDepth : Z) (decayFactor : num) : option (PropagationResult num) :=
  match while_loop fuel adjacencyList maxDepth decayFactor (initial_state sourceId) with
  | None => None
  | Some st =>
      let directInfluence :=
        fold_left (fun sum edge => n_add sum (weight edge))
          (neighbors_of adjacencyList sourceId) (n_ofZ 0) in
      Some {| nodeId := sourceId;
              directInfluence := directInfluence;
              propagatedInfluence := st_propagated st;
              totalInfluence := n_add directInfluence (st_propagated st);
              paths := st_paths st |}
  end.

(** [calculatePropagatedInfluence]: the [for (const nodeId of nodeIds)]
    loop over the result map. *)
Fixpoint propagate_all (fuel : nat)
    (adjacencyList : gmap string (list (InfluenceEdge num)))
    (maxDepth : Z) (decayFactor : num) (nodeIds : list string)
    (results : gmap string (PropagationResult num))
    : option (gmap string (PropagationResult num)) :=
  match nodeIds with
  | [] => Some results
  | nodeId :: nodeIds' =>
      match propagateFromNode fuel nodeId adjacencyList maxDepth decayFactor with
      | None => None
      | Some result =>
          propagate_all fuel adjacencyList maxDepth decayFactor nodeIds'
            (<[nodeId := result]> results)
      end
  end.

Definition calculatePropagatedInfluence (fuel : nat)
    (edges : list (InfluenceEdge num)) (nodeIds : list string)
    (maxDepth : Z) (decayFactor : num)
    : option (gmap string (PropagationResult num)) :=
  let adjacencyList := buildAdjacencyList edges in
  propagate_all fuel adjacencyList maxDepth decayFactor nodeIds ∅.

End Engine.


(** ** Time decay, event deltas and volatility *)

(** The outcome of a call: a returned value or a thrown error. *)
Inductive completion (A : Type) : Type :=
  | Returns (a : A)
  | Throws (e : string).
Arguments Returns {A}. Arguments Throws {A}.

Inductive EventType := PROJECT_SUCCESS | PROPOSAL_ADOPTED | MENTORSHIP | COLLABORATION.

Section Decay.
Context {num : Type} `{JsNumber num} `{JsMath num}.

(** [calculateDecayedWeight]; [now] is the value [Date.now()] reads, and
    [createdAt] the creation [Date] as epoch milliseconds. *)
Definition calculateDecayedWeight (now : Z) (originalWeight : num)
    (createdAt : Z) (decayRate : num) : num :=
  let daysElapsed :=
    n_div (n_sub (n_ofZ now) (n_ofZ createdAt)) (n_ofZ (1000 * 60 * 60 * 24)) in
  let decayFactor := Math_pow (n_sub (n_ofZ 1) decayRate) daysElapsed in
  n_mul originalWeight decayFactor.

(** The function has no [throw] and checks none of its arguments: a call
    completes by returning the number computed. *)
Definition calculateDecayedWeight_call (now : Z) (originalWeight : num)
    (createdAt : Z) (decayRate : num) : completion num :=
  Returns (calculateDecayedWeight now originalWeight createdAt decayRate).

(** [calculateInfluenceDelta] *)
Definition baseMultipliers (eventType : EventType) : num :=
  match eventType with
  | PROJECT_SUCCESS => n_ofZ 15
  | PROPOSAL_ADOPTED => n_ofZ 10
  | MENTORSHIP => n_ofZ 5
  | COLLABORATION => n_ofZ 3
  end.

Definition calculateInfluenceDelta (eventType : EventType) (impactScore : num) : num :=
  n_mul (baseMultipliers eventType) impactScore.

(** [calculateVolatility] *)
Definition calculateVolatility (historicalScores : list num) : num :=
  if (length historicalScores <? 2)%nat then n_ofZ 0
  else
    let len := n_ofZ (Z.of_nat (length historicalScores)) in
    let mean := n_div (fold_left n_add historicalScores (n_ofZ 0)) len in
    let squaredDiffs :=
      map (fun score => Math_pow (n_sub score mean) (n_ofZ 2)) historicalScores in
    let variance := n_div (fold_left n_add squaredDiffs (n_ofZ 0)) len in
    Math_sqrt variance.

End Decay.

(** ** Top influencers *)

Inductive Metric := metric_total | metric_direct | metric_propagated | metric_volatility.

Section Ranking.
Context {num : Type} `{JsNumber num}.

(** [Array.prototype.sort(compareFn)].  The language fixes the sort as
    stable and, for a consistent comparator, its result as the sorted
    permutation; the insertion sort below is that function.  An element
    moves behind another one only when [compareFn] is positive on them. *)
Fixpoint sort_insert {A : Type} (compareFn : A -> A -> num) (a : A) (sorted : list A)
    : list A :=
  match sorted with
  | [] => [a]
  | b :: rest =>
      if n_ltb (n_ofZ 0) (compareFn a b)
      then b :: sort_insert compareFn a rest
      else a :: sorted
  end.

Definition Array_sort {A : Type} (compareFn : A -> A -> num) (l : list A) : list A :=
  foldr (sort_insert compareFn) [] l.

(** [Array.prototype.slice(0, end)] for an integral [end]: a negative [end]
    counts from the end of the array. *)
Definition Array_slice0 {A : Type} (l : list A) (end_ : Z) : list A :=
  let len := Z.of_nat (length l) in
  let final := if end_ <? 0 then Z.max (len + end_) 0 else Z.min end_ len in
  take (Z.to_nat final) l.

(** The comparator of [findTopInfluencers]; the [default] branch of its
    [switch] serves the metric ['total']. *)
Definition compareNodes (metric : Metric) (a b : InfluenceNode num) : num :=
  match metric with
  | metric_direct => n_sub (score b) (score a)
  | metric_propagated =>
      n_sub (n_sub (rawScore b) (score b)) (n_sub (rawScore a) (score a))
  | metric_volatility => n_sub (volatility b) (volatility a)
  | metric_total => n_sub (rawScore b) (rawScore a)
  end.

Definition findTopInfluencers (nodes : list (InfluenceNode num)) (metric : Metric)
    (limit : Z) : list (InfluenceNode num) :=
  let sortedNodes := Array_sort (compareNodes metric) nodes in
  Array_slice0 sortedNodes limit.

End Ranking.

(** ** Community detection by label propagation *)

Section Communities.
Context {num : Type} `{JsNumber num}.

(** [labelCounts] is a [Map<number, number>]: its entries stand in the order
    of first insertion, which is the order [forEach] visits them in. *)
Fixpoint counts_get (labelCounts : list (nat * num)) (label : nat) : option num :=
  match labelCounts with
  | [] => None
  | (l, c) :: rest => if decide (l = label) then Some c else counts_get rest label
  end.

Fixpoint counts_set (labelCounts : list (nat * num)) (label : nat) (count : num)
    : list (nat * num) :=
  match labelCounts with
  | [] => [(label, count)]
  | (l, c) :: rest =>
      if decide (l = label) then (l, count) :: rest
      else (l, c) :: counts_set rest label count
  end.

(** [labels.get(id) || 0] *)
Definition label_of (labels : gmap string nat) (id : string) : nat :=
  default 0%nat (labels !! id).

(** One turn of [for (const edge of neighbors)]: the vote of one edge. *)
Definition count_vote (labels : gmap string nat) (labelCounts : list (nat * num))
    (edge : InfluenceEdge num) : list (nat * num) :=
  let neighborLabel := label_of labels (targetUserId edge) in
  let currentCount :=
    match counts_get labelCounts neighborLabel with
    | Some c => n_or c (n_ofZ 0)
    | None => n_ofZ 0
    end in
  counts_set labelCounts neighborLabel (n_add currentCount (weight edge)).

(** The callback of [labelCounts.forEach], on the pair [(maxCount, bestLabel)]. *)
Definition pick_best (acc : num * nat) (entry : nat * num) : num * nat :=
  if n_ltb (fst acc) (snd entry) then (snd entry, fst entry) else acc.

Definition bestLabel_of (labels : gmap string nat) (nodeId : string)
    (neighbors : list (InfluenceEdge num)) : nat :=
  let labelCounts := fold_left (count_vote labels) neighbors [] in
  snd (fold_left pick_best labelCounts (n_ofZ 0, label_of labels nodeId)).

(** One turn of [for (const nodeId of nodeIds)], on [(labels, changed)]. *)
Definition relabel_node (adjacencyList : gmap string (list (InfluenceEdge num)))
    (state : gmap string nat * bool) (nodeId : string) : gmap string nat * bool :=
  let neighbors := neighbors_of adjacencyList nodeId in
  match neighbors with
  | [] => state
  | _ :: _ =>
      let bestLabel := bestLabel_of (fst state) nodeId neighbors in
      if decide (fst state !! nodeId = Some bestLabel) then state
      else (<[nodeId := bestLabel]> (fst state), true)
  end.

(** One iteration: every node in turn, on the labels as updated so far. *)
Definition iteration (adjacencyList : gmap string (list (InfluenceEdge num)))
    (nodeIds : list string) (labels : gmap string nat) : gmap string nat * bool :=
  fold_left (relabel_node adjacencyList) nodeIds (labels, false).

(** The [for (let iter = 0; iter < maxIterations; iter++)] loop, [n] being
    the iterations left. *)
Fixpoint iterate (n : nat) (adjacencyList : gmap string (list (InfluenceEdge num)))
    (nodeIds : list string) (labels : gmap string nat) : gmap string nat :=
  match n with
  | O => labels
  | S n' =>
      let '(labels', changed) := iteration adjacencyList nodeIds labels in
      if changed then iterate n' adjacencyList nodeIds labels' else labels'
  end.

(** [labels.set(nodeId, labelCounter++)] over [nodeIds]. *)
Definition initial_labels (nodeIds : list string) : gmap string nat :=
  fst (fold_left (fun '(labels, labelCounter) nodeId =>
                    (<[nodeId := labelCounter]> labels, S labelCounter))
         nodeIds (∅, 0%nat)).

Definition maxIterations : nat := 10.

Definition detectCommunities (edges : list (InfluenceEdge num)) (nodeIds : list string)
    : gmap string nat :=
  let adjacencyList := buildAdjacencyList edges in
  iterate maxIterations adjacencyList nodeIds (initial_labels nodeIds).

End Communities.

(** ** The result cache *)

(** A cached value: [null], or any other value of the payload type. *)
Inductive JsValue (T : Type) : Type :=
  | null
  | data (t : T).
Arguments null {T}. Arguments data {T}.

(** *** Regular expressions, as far as [deletePattern] builds them

    A string stands for its sequence of code units (below 256).  The
    fragment covers the sources made of ordinary characters, [.] and the
    quantifier [*]; a source with another syntax character
    ([\ ^ $ | ? + ( ) [ ] { }]), or with a [*] that has nothing to repeat,
    is not covered. *)
Inductive RegexAtom :=
  | Char (c : ascii)
  | AnyChar.

Definition is_syntax_character (c : ascii) : bool :=
  bool_decide (c ∈ ["\"; "^"; "$"; "|"; "?"; "+"; "("; ")"; "["; "]"; "{"; "}"]%char).

Definition is_line_terminator (c : ascii) : bool :=
  bool_decide (c = ascii_of_nat 10 \/ c = ascii_of_nat 13).

(** [String.prototype.replace(/\*/g, '.*')] *)
Fixpoint replace_stars (pattern : string) : string :=
  match pattern with
  | EmptyString => EmptyString
  | String c rest =>
      if Ascii.eqb c "*"%char
      then String "."%char (String "*"%char (replace_stars rest))
      else String c (replace_stars rest)
  end.

(** [new RegExp(source)]: a sequence of atoms, each one starred or not. *)
Fixpoint RegExp (source : string) : option (list (RegexAtom * bool)) :=
  match source with
  | EmptyString => Some []
  | String c rest =>
      if is_syntax_character c || Ascii.eqb c "*"%char then None
      else
        let atom := if Ascii.eqb c "."%char then AnyChar else Char c in
        match rest with
        | String "*"%char rest' =>
            match RegExp rest' with
            | Some r => Some ((atom, true) :: r)
            | None => None
            end
        | _ =>
            match RegExp rest with
            | Some r => Some ((atom, false) :: r)
            | None => None
            end
        end
  end.

Definition atom_matches (a : RegexAtom) (c : ascii) : bool :=
  match a with
  | Char x => Ascii.eqb x c
  | AnyChar => negb (is_line_terminator c)
  end.

(** A match of the whole expression that starts at the head of the input;
    the input may go on after it. *)
Fixpoint match_here (regex : list (RegexAtom * bool)) (input : string) : bool :=
  match regex with
  | [] => true
  | (a, false) :: regex' =>
      match input with
      | String c input' => atom_matches a c && match_here regex' input'
      | EmptyString => false
      end
  | (a, true) :: regex' =>
      (fix star (input : string) : bool :=
         match_here regex' input ||
         match input with
         | String c input' => atom_matches a c && star input'
         | EmptyString => false
         end) input
  end.

(** [RegExp.prototype.test]: a match that starts anywhere in the input. *)
Fixpoint test (regex : list (RegexAtom * bool)) (input : string) : bool :=
  match_here regex input ||
  match input with
  | String _ input' => test regex input'
  | EmptyString => false
  end.

Module InfluenceCache.

(** [expiresAt] and [createdAt] are epoch milliseconds. *)
Record CacheEntry (T : Type) := {
  value : JsValue T;
  expiresAt : Z;
  createdAt : Z
}.
Arguments value {T}. Arguments expiresAt {T}. Arguments createdAt {T}.

Record Stats := { hits : nat; misses : nat }.

Record CacheStats := { stat_hits : nat; stat_misses : nat; size : nat; hitRate : Q }.

(** The fields of an [InfluenceCache] object (the sweep timer apart). *)
Record t (T : Type) := {
  cache : gmap string (CacheEntry T);
  stats : Stats
}.
Arguments cache {T}. Arguments stats {T}.

Section Operations.
Context {T : Type}.

Definition empty : t T := {| cache := ∅; stats := {| hits := 0; misses := 0 |} |}.

Definition miss (c : t T) : Stats :=
  {| hits := hits (stats c); misses := S (misses (stats c)) |}.

Definition hit (c : t T) : Stats :=
  {| hits := S (hits (stats c)); misses := misses (stats c) |}.

(** [get(key)], [now] being what [Date.now()] reads. *)
Definition get (now : Z) (key : string) (c : t T) : JsValue T * t T :=
  match cache c !! key with
  | None => (null, {| cache := cache c; stats := miss c |})
  | Some entry =>
      if expiresAt entry <? now
      then (null, {| cache := base.delete key (cache c); stats := miss c |})
      else (value entry, {| cache := cache c; stats := hit c |})
  end.

(** [set(key, value, ttlMs)] *)
Definition set (now : Z) (key : string) (v : JsValue T) (ttlMs : Z) (c : t T) : t T :=
  {| cache := <[key := {| value := v; expiresAt := now + ttlMs; createdAt := now |}]>
                (cache c);
     stats := stats c |}.

(** [has(key)] *)
Definition has (now : Z) (key : string) (c : t T) : bool * t T :=
  match cache c !! key with
  | None => (false, c)
  | Some entry =>
      if expiresAt entry <? now
      then (false, {| cache := base.delete key (cache c); stats := stats c |})
      else (true, c)
  end.

(** [delete(key)] *)
Definition delete (key : string) (c : t T) : bool * t T :=
  (bool_decide (is_Some (cache c !! key)),
   {| cache := base.delete key (cache c); stats := stats c |}).

(** One turn of [for (const key of this.cache.keys())] in [deletePattern],
    on the pair of the counter and the map. *)
Definition delete_if_match (regex : list (RegexAtom * bool))
    (acc : nat * gmap string (CacheEntry T)) (key : string)
    : nat * gmap string (CacheEntry T) :=
  if test regex key then (S (fst acc), base.delete key (snd acc)) else acc.

(** [deletePattern(pattern)]; [None] for a pattern whose regular expression
    lies outside the fragment above.  The keys are visited in the order of
    the map's listing; the result does not depend on it. *)
Definition deletePattern (pattern : string) (c : t T) : option (nat * t T) :=
  match RegExp (replace_stars pattern) with
  | None => None
  | Some regex =>
      let r := fold_left (delete_if_match regex)
                 (map_to_list (cache c)).*1 (0%nat, cache c) in
      Some (fst r, {| cache := snd r; stats := stats c |})
  end.

(** [clear()] *)
Definition clear (c : t T) : t T := empty.

(** [getStats()] *)
Definition getStats (c : t T) : CacheStats :=
  {| stat_hits := hits (stats c);
     stat_misses := misses (stats c);
     size := base.size (cache c);
     hitRate :=
       if (0 <? hits (stats c) + misses (stats c))%nat
       then (inject_Z (Z.of_nat (hits (stats c)))
             / inject_Z (Z.of_nat (hits (stats c) + misses (stats c))))%Q
       else 0%Q |}.

(** [getOrSet(key, factory, ttlMs)].  The factory acts on a world [W] of
    its own; [now] is the time of the lookup and [now'] the time of the
    store, after the factory has been awaited. *)
Definition getOrSet {W : Type} (now now' : Z) (key : string)
    (factory : W -> JsValue T * W) (ttlMs : Z) (c : t T) (w : W)
    : JsValue T * t T * W :=
  let (cached, c1) := get now key c in
  match cached with
  | data _ => (cached, c1, w)
  | null =>
      let (v, w') := factory w in
      (v, set now' key v ttlMs c1, w')
  end.

(** [cleanup()] *)
Definition cleanup (now : Z) (c : t T) : t T :=
  {| cache := filter (fun kv => ~ (expiresAt kv.2 < now)) (cache c);
     stats := stats c |}.

End Operations.
End InfluenceCache.

(** ** The recompute cycle, [POST /api/influence/recalculate]

    The store behind [db] is given by the rows the route reads and writes.
    The body of the [try] block is embedded in two parts: steps 1 to 8, which
    read and write the store, here; step 9, which acts on the cache and
    can throw, and the [catch] around the block, with the route itself
    further down. *)

Record EdgeRow (num : Type) := {
  er_id : string;
  er_organizationId : string;
  er_sourceUserId : string;
  er_targetUserId : string;
  er_weight : num;
  er_context : option string;
  er_createdAt : Z;
  er_isActive : bool
}.
Arguments er_id {num}. Arguments er_organizationId {num}.
Arguments er_sourceUserId {num}. Arguments er_targetUserId {num}.
Arguments er_weight {num}. Arguments er_context {num}.
Arguments er_createdAt {num}. Arguments er_isActive {num}.

Record EventRow (num : Type) := {
  ev_id : string;
  ev_organizationId : string;
  subjectUserId : string;
  weightDelta : num;
  eventType : string;
  ev_createdAt : Z;
  processedAt : option Z
}.
Arguments ev_id {num}. Arguments ev_organizationId {num}.
Arguments subjectUserId {num}. Arguments weightDelta {num}.
Arguments eventType {num}. Arguments ev_createdAt {num}.
Arguments processedAt {num}.

Record UserRow := {
  ur_id : string;
  ur_organizationId : string;
  ur_isActive : bool
}.

Record ScoreRow (num : Type) := {
  sr_userId : string;
  sr_scoreType : string;
  sr_score : num;
  sr_rawScore : num;
  sr_volatility : num;
  sr_rank : option nat;
  sr_calculatedAt : Z
}.
Arguments sr_userId {num}. Arguments sr_scoreType {num}.
Arguments sr_score {num}. Arguments sr_rawScore {num}.
Arguments sr_volatility {num}. Arguments sr_rank {num}.
Arguments sr_calculatedAt {num}.

Record Database (num : Type) := {
  influenceEdge : list (EdgeRow num);
  influenceEvent : list (EventRow num);
  user : list UserRow;
  influenceScore : list (ScoreRow num)
}.
Arguments influenceEdge {num}. Arguments influenceEvent {num}.
Arguments user {num}. Arguments influenceScore {num}.

(** The request body; an absent [organizationId] is the empty string. *)
Record Request := {
  organizationId : string;
  applyDecay : bool;
  processEvents : bool
}.

(** A user as [db.user.findMany] returns it with its [include]s. *)
Record UserWithRelations (num : Type) := {
  u_id : string;
  influenceScores : list (ScoreRow num);
  outgoingInfluence : list (EdgeRow num)
}.
Arguments u_id {num}. Arguments influenceScores {num}.
Arguments outgoingInfluence {num}.

Record ScoreData (num : Type) := {
  sd_id : string;
  currentScore : num;
  newScore : num;
  sd_directInfluence : num;
  sd_propagatedInfluence : num;
  eventBonus : num
}.
Arguments sd_id {num}. Arguments currentScore {num}. Arguments newScore {num}.
Arguments sd_directInfluence {num}. Arguments sd_propagatedInfluence {num}.
Arguments eventBonus {num}.

Record ScoreUpdate (num : Type) := {
  su_userId : string;
  oldScore : num;
  su_newScore : num;
  su_rank : nat;
  su_volatility : num
}.
Arguments su_userId {num}. Arguments oldScore {num}. Arguments su_newScore {num}.
Arguments su_rank {num}. Arguments su_volatility {num}.

Record RecalcStats := {
  usersProcessed : nat;
  edgesProcessed : nat;
  eventsProcessed : nat;
  scoresUpdated : nat
}.

(** The response: status 400, success with the statistics and the score
    updates (of which the route returns the first five as [topChanges]), or
    status 500, the answer of the [catch]. *)
Inductive Response (num : Type) : Type :=
  | BadRequest
  | Success (stats : RecalcStats) (scoreUpdates : list (ScoreUpdate num))
  | ServerError.
Arguments BadRequest {num}. Arguments Success {num}. Arguments ServerError {num}.

(** [orderBy] on a time stamp: a stable sort, rows of equal key staying in
    table order. *)
Fixpoint orderBy_insert {A : Type} (key : A -> Z) (desc : bool) (x : A) (sorted : list A)
    : list A :=
  match sorted with
  | [] => [x]
  | y :: rest =>
      if (if desc then key x <? key y else key y <? key x)
      then y :: orderBy_insert key desc x rest
      else x :: sorted
  end.

Definition orderBy {A : Type} (key : A -> Z) (desc : bool) (rows : list A) : list A :=
  foldr (orderBy_insert key desc) [] rows.

Section Recalculate.
Context {num : Type} `{JsNumber num} `{JsMath num}.

(** Step 1: [db.influenceEdge.findMany] on the active edges of the tenant. *)
Definition active_edges (organizationId : string) (db : Database num) : list (EdgeRow num) :=
  filter (fun e => er_organizationId e = organizationId /\ er_isActive e = true)
    (influenceEdge db).

(** Step 2: the events of the tenant with [processedAt: null]. *)
Definition is_pending (organizationId : string) (ev : EventRow num) : bool :=
  bool_decide (ev_organizationId ev = organizationId /\ processedAt ev = None).

Definition pending_events (organizationId : string) (db : Database num)
    : list (EventRow num) :=
  orderBy ev_createdAt false (List.filter (is_pending organizationId) (influenceEvent db)).

(** Step 3: the active users of the tenant with their relations. *)
Definition with_relations (db : Database num) (u : UserRow) : UserWithRelations num :=
  {| u_id := ur_id u;
     influenceScores :=
       filter (fun s => sr_userId s = ur_id u /\ sr_scoreType s = "TOTAL")
         (influenceScore db);
     outgoingInfluence :=
       filter (fun e => er_sourceUserId e = ur_id u /\ er_isActive e = true)
         (influenceEdge db) |}.

Definition active_users (organizationId : string) (db : Database num)
    : list (UserWithRelations num) :=
  with_relations db <$>
    filter (fun u => ur_organizationId u = organizationId /\ ur_isActive u = true)
      (user db).

(** Step 4: the edges handed to the engine. *)
Definition decayed_or_raw (now : Z) (applyDecay : bool) (e : EdgeRow num) : num :=
  if applyDecay
  then calculateDecayedWeight now (er_weight e) (er_createdAt e) DEFAULT_DECAY_RATE
  else er_weight e.

Definition typedEdge (now : Z) (applyDecay : bool) (e : EdgeRow num) : InfluenceEdge num :=
  {| edge_id := er_id e;
     sourceUserId := er_sourceUserId e;
     targetUserId := er_targetUserId e;
     weight := decayed_or_raw now applyDecay e;
     context := er_context e;
     createdAt := er_createdAt e |}.

(** Step 6: the summed [weightDelta] per subject. *)
Definition add_event_impact (eventImpact : gmap string num) (event : EventRow num)
    : gmap string num :=
  let current := n_or (default (n_ofZ 0) (eventImpact !! subjectUserId event)) (n_ofZ 0) in
  <[subjectUserId event := n_add current (weightDelta event)]> eventImpact.

(** Step 7: the new score of one user. *)
Definition score_user (now : Z) (applyDecay : bool)
    (propagationResults : gmap string (PropagationResult num))
    (eventImpact : gmap string num) (u : UserWithRelations num) : ScoreData num :=
  let currentScore :=
    match influenceScores u with
    | s :: _ => n_or (sr_score s) (n_ofZ 0)
    | [] => n_ofZ 0
    end in
  let propagated :=
    match propagationResults !! u_id u with
    | Some propagation => n_or (propagatedInfluence propagation) (n_ofZ 0)
    | None => n_ofZ 0
    end in
  let eventBonus := n_or (default (n_ofZ 0) (eventImpact !! u_id u)) (n_ofZ 0) in
  let directInfluence :=
    fold_left (fun sum e => n_add sum (decayed_or_raw now applyDecay e))
      (outgoingInfluence u) (n_ofZ 0) in
  let newScore := n_add (n_add directInfluence propagated) eventBonus in
  {| sd_id := u_id u;
     currentScore := currentScore;
     newScore := n_max (n_ofZ 0) newScore;
     sd_directInfluence := directInfluence;
     sd_propagatedInfluence := propagated;
     eventBonus := eventBonus |}.

(** [db.influenceScore.updateMany] on the TOTAL rows of one user. *)
Definition update_score_rows (now : Z) (scoreData : ScoreData num) (volatility : num)
    (rank : nat) (rows : list (ScoreRow num)) : list (ScoreRow num) :=
  (fun s =>
     if bool_decide (sr_userId s = sd_id scoreData /\ sr_scoreType s = "TOTAL")
     then {| sr_userId := sr_userId s; sr_scoreType := sr_scoreType s;
             sr_score := newScore scoreData;
             sr_rawScore := sd_directInfluence scoreData;
             sr_volatility := volatility;
             sr_rank := Some rank;
             sr_calculatedAt := now |}
     else s) <$> rows.

(** One turn of the loop [for (let i = 0; i < scoresWithIds.length; i++)],
    on the score rows, the updates pushed so far and the index [i]. *)
Definition update_one (now : Z) (historicalScores : list (ScoreRow num))
    (acc : list (ScoreRow num) * list (ScoreUpdate num) * nat)
    (scoreData : ScoreData num) : list (ScoreRow num) * list (ScoreUpdate num) * nat :=
  let '(rows, scoreUpdates, i) := acc in
  let userHistory :=
    newScore scoreData ::
    (sr_score <$> filter (fun s => sr_userId s = sd_id scoreData) historicalScores) in
  let volatility := calculateVolatility (take 10 userHistory) in
  (update_score_rows now scoreData volatility (i + 1) rows,
   scoreUpdates ++ [ {| su_userId := sd_id scoreData;
                        oldScore := currentScore scoreData;
                        su_newScore := newScore scoreData;
                        su_rank := (i + 1)%nat;
                        su_volatility := volatility |} ],
   S i).

(** Step 8: [db.influenceEvent.updateMany] on the ids of the events read. *)
Definition with_processedAt (now : Z) (ev : EventRow num) : EventRow num :=
  {| ev_id := ev_id ev; ev_organizationId := ev_organizationId ev;
     subjectUserId := subjectUserId ev; weightDelta := weightDelta ev;
     eventType := eventType ev; ev_createdAt := ev_createdAt ev;
     processedAt := Some now |}.

Definition mark_processed (now : Z) (ids : list string) (rows : list (EventRow num))
    : list (EventRow num) :=
  (fun ev => if bool_decide (ev_id ev ∈ ids) then with_processedAt now ev else ev)
    <$> rows.

(** The route up to and including step 8: the check of the body, the reads,
    the scores and the writes, with the store they leave and the answer the
    handler is heading for when step 8 is done.  [now] is the time of the
    cycle, [fuel] bounds the turns of each traversal of the engine. *)
Definition POST_steps_1_to_8 (fuel : nat) (now : Z) (db : Database num) (body : Request)
    : option (Response num * Database num) :=
  if bool_decide (organizationId body = "") then Some (BadRequest, db)
  else
    let edges := active_edges (organizationId body) db in
    let events :=
      if processEvents body then pending_events (organizationId body) db else [] in
    let users := active_users (organizationId body) db in
    let typedEdges := typedEdge now (applyDecay body) <$> edges in
    match calculatePropagatedInfluence fuel typedEdges (u_id <$> users)
            MAX_DEPTH DECAY_FACTOR with
    | None => None
    | Some propagationResults =>
        let eventImpact := fold_left add_event_impact events ∅ in
        let userIds := u_id <$> users in
        let scoresWithIds :=
          Array_sort (fun a b => n_sub (newScore b) (newScore a))
            (score_user now (applyDecay body) propagationResults eventImpact <$> users) in
        let historicalScores :=
          take 30
            (orderBy sr_calculatedAt true
               (filter (fun s => sr_userId s ∈ userIds /\ sr_scoreType s = "TOTAL")
                  (influenceScore db))) in
        let '(scoreRows, scoreUpdates, _) :=
          fold_left (update_one now historicalScores) scoresWithIds
            (influenceScore db, [], 0%nat) in
        let eventRows :=
          match events with
          | [] => influenceEvent db
          | _ :: _ => mark_processed now (ev_id <$> events) (influenceEvent db)
          end in
        Some (Success {| usersProcessed := length users;
                         edgesProcessed := length edges;
                         eventsProcessed := length events;
                         scoresUpdated := length scoreUpdates |}
                scoreUpdates,
              {| influenceEdge := influenceEdge db;
                 influenceEvent := eventRows;
                 user := user db;
                 influenceScore := scoreRows |})
    end.

End Recalculate.

(** ** The department matrix and the graph metrics *)

Section Matrix.
Context {num : Type} `{JsNumber num}.

(** A string in a condition: only the empty string is falsy. *)
Definition string_truthy (s : string) : bool :=
  match s with
  | EmptyString => false
  | String _ _ => true
  end.

(** One turn of [for (const node of nodes)] in
    [calculateDepartmentInfluenceMatrix]. *)
Definition set_department (nodeDepartments : gmap string string)
    (node : InfluenceNode num) : gmap string string :=
  match departmentId node with
  | Some d =>
      if string_truthy d then <[node_id node := d]> nodeDepartments
      else nodeDepartments
  | None => nodeDepartments
  end.

(** One turn of [for (const edge of edges)]. *)
Definition add_to_matrix (nodeDepartments : gmap string string)
    (matrix : gmap string (gmap string num)) (edge : InfluenceEdge num)
    : gmap string (gmap string num) :=
  match nodeDepartments !! sourceUserId edge, nodeDepartments !! targetUserId edge with
  | Some sourceDept, Some targetDept =>
      if string_truthy sourceDept && string_truthy targetDept
         && negb (String.eqb sourceDept targetDept)
      then
        let matrix1 :=
          match matrix !! sourceDept with
          | Some _ => matrix
          | None => <[sourceDept := ∅]> matrix
          end in
        let row := default ∅ (matrix1 !! sourceDept) in
        let currentWeight :=
          match row !! targetDept with
          | Some c => n_or c (n_ofZ 0)
          | None => n_ofZ 0
          end in
        <[sourceDept := <[targetDept := n_add currentWeight (weight edge)]> row]> matrix1
      else matrix
  | _, _ => matrix
  end.

Definition nodeDepartments_of (nodes : list (InfluenceNode num)) : gmap string string :=
  fold_left set_department nodes ∅.

Definition calculateDepartmentInfluenceMatrix (edges : list (InfluenceEdge num))
    (nodes : list (InfluenceNode num)) : gmap string (gmap string num) :=
  let nodeDepartments := nodeDepartments_of nodes in
  fold_left (add_to_matrix nodeDepartments) edges ∅.

Record GraphMetrics := {
  totalNodes : Z;
  totalEdges : Z;
  averageInfluence : num;
  density : num;
  clustering : num
}.

(** [(adjacencyList.get(id) || []).map(e => e.targetUserId)] *)
Definition targets_of (adjacencyList : gmap string (list (InfluenceEdge num)))
    (id : string) : list string :=
  map targetUserId (neighbors_of adjacencyList id).

(** The inner loop over [j], for one [neighbors[i]], on the pair
    [(totalTriangles, totalPossibleTriangles)]. *)
Definition count_pair (adjacencyList : gmap string (list (InfluenceEdge num)))
    (neighbor_i : string) (acc : nat * nat) (neighbor_j : string) : nat * nat :=
  let neighborsOfI := targets_of adjacencyList neighbor_i in
  (if bool_decide (neighbor_j ∈ neighborsOfI) then S (fst acc) else fst acc,
   S (snd acc)).

(** The loops over [i] and [j > i], for the neighbours of one node. *)
Fixpoint count_pairs (adjacencyList : gmap string (list (InfluenceEdge num)))
    (neighbors : list string) (acc : nat * nat) : nat * nat :=
  match neighbors with
  | [] => acc
  | neighbor_i :: later =>
      count_pairs adjacencyList later
        (fold_left (count_pair adjacencyList neighbor_i) later acc)
  end.

(** [for (const node of nodes)] around them. *)
Definition count_triangles (adjacencyList : gmap string (list (InfluenceEdge num)))
    (nodes : list (InfluenceNode num)) : nat * nat :=
  fold_left (fun acc node =>
               count_pairs adjacencyList (targets_of adjacencyList (node_id node)) acc)
    nodes (0%nat, 0%nat).

Definition calculateGraphMetrics (nodes : list (InfluenceNode num))
    (edges : list (InfluenceEdge num)) : GraphMetrics :=
  let totalNodes := Z.of_nat (length nodes) in
  let totalEdges := Z.of_nat (length edges) in
  let totalInfluence :=
    fold_left (fun sum node => n_add sum (rawScore node)) nodes (n_ofZ 0) in
  let averageInfluence :=
    if 0 <? totalNodes then n_div totalInfluence (n_ofZ totalNodes) else n_ofZ 0 in
  let maxPossibleEdges := totalNodes * (totalNodes - 1) in
  let density :=
    if 0 <? maxPossibleEdges then n_div (n_ofZ totalEdges) (n_ofZ maxPossibleEdges)
    else n_ofZ 0 in
  let adjacencyList := buildAdjacencyList edges in
  let counts := count_triangles adjacencyList nodes in
  let totalTriangles := Z.of_nat (fst counts) in
  let totalPossibleTriangles := Z.of_nat (snd counts) in
  let clustering :=
    if 0 <? totalPossibleTriangles
    then n_div (n_ofZ totalTriangles) (n_ofZ totalPossibleTriangles)
    else n_ofZ 0 in
  {| totalNodes := totalNodes;
     totalEdges := totalEdges;
     averageInfluence := averageInfluence;
     density := density;
     clustering := clustering |}.

End Matrix.
Arguments GraphMetrics num : clear implicits.

(** ** Cache keys, and the invalidation at the end of a recompute cycle *)

Module CacheKeys.

Definition graph (orgId : string) : string := "graph:" +:+ orgId.
Definition graphEdges (orgId : string) : string := "graph:edges:" +:+ orgId.
Definition graphNodes (orgId : string) : string := "graph:nodes:" +:+ orgId.
Definition influenceScore (userId : string) : string := "score:" +:+ userId.
Definition influenceScores (orgId : string) : string := "scores:" +:+ orgId.
Definition topInfluencers (orgId metric : string) : string :=
  "top:" +:+ orgId +:+ ":" +:+ metric.
Definition departmentMatrix (orgId : string) : string := "matrix:" +:+ orgId.
Definition analytics (orgId : string) : string := "analytics:" +:+ orgId.
Definition graphMetrics (orgId : string) : string := "metrics:" +:+ orgId.
Definition propagationResult (orgId userId : string) : string :=
  "prop:" +:+ orgId +:+ ":" +:+ userId.
Definition historicalData (orgId date : string) : string :=
  "history:" +:+ orgId +:+ ":" +:+ date.

End CacheKeys.

(** Step 9 of [POST /api/influence/recalculate] as a function of the cache:
    the four calls of [deletePattern], one after the other; [None] when a
    pattern lies outside the fragment of regular expressions covered.  The
    same step as a run of calls that can throw is [invalidate_caches_call],
    further down. *)
Definition invalidate_caches {T : Type} (organizationId : string)
    (c : InfluenceCache.t T) : option (InfluenceCache.t T) :=
  match InfluenceCache.deletePattern (("graph:" +:+ organizationId) +:+ "*") c with
  | None => None
  | Some (_, c1) =>
      match InfluenceCache.deletePattern (("scores:" +:+ organizationId) +:+ "*") c1 with
      | None => None
      | Some (_, c2) =>
          match InfluenceCache.deletePattern
                  (("analytics:" +:+ organizationId) +:+ "*") c2 with
          | None => None
          | Some (_, c3) =>
              match InfluenceCache.deletePattern
                      (("top:" +:+ organizationId) +:+ "*") c3 with
              | None => None
              | Some (_, c4) => Some c4
              end
          end
      end
  end.

(** ** The route as a whole: step 9 and the [catch]

    Step 9 hands four patterns to [deletePattern], whose [new RegExp] throws
    a [SyntaxError] on a source that is no regular expression.  The route
    runs inside [try]; its [catch] logs the error and answers 500, after the
    writes of steps 1 to 8 have been made. *)

(** *** Sources on which [new RegExp] throws

    A source is read from the left.  As long as it consists of ordinary
    characters, [.] and quantifiers, a quantifier character with nothing to
    repeat (at the start, after a quantifier, or after the [?] that makes a
    quantifier lazy) is a [SyntaxError]; so is a [)] that closes no group,
    and a [(] after which no [)] comes.  At any other syntax character
    ([\ ^ $ | [ ] { }]), and at a [(] with a [)] somewhere behind it, the
    reading stops without a verdict. *)
Inductive RepeatState := NothingToRepeat | AfterAtom | AfterQuantifier.

Fixpoint contains_char (c : ascii) (s : string) : bool :=
  match s with
  | EmptyString => false
  | String x rest => Ascii.eqb x c || contains_char c rest
  end.

Fixpoint throws_from (state : RepeatState) (source : string) : bool :=
  match source with
  | EmptyString => false
  | String c rest =>
      if Ascii.eqb c "*"%char || Ascii.eqb c "+"%char then
        match state with
        | AfterAtom => throws_from AfterQuantifier rest
        | _ => true
        end
      else if Ascii.eqb c "?"%char then
        match state with
        | AfterAtom => throws_from AfterQuantifier rest
        | AfterQuantifier => throws_from NothingToRepeat rest
        | NothingToRepeat => true
        end
      else if Ascii.eqb c ")"%char then true
      else if Ascii.eqb c "("%char then negb (contains_char ")"%char rest)
      else if is_syntax_character c then false
      else throws_from AfterAtom rest
  end.

(** [true]: [new RegExp(source)] throws.  [false]: no verdict. *)
Definition RegExp_throws (source : string) : bool :=
  throws_from NothingToRepeat source.

(** [deletePattern(pattern)] as a call: it throws, it returns the number
    of keys deleted (and leaves the cache without them), or, [None], its
    pattern lies outside what is embedded of regular expressions. *)
Definition deletePattern_call {T : Type} (pattern : string) (c : InfluenceCache.t T)
    : option (completion (nat * InfluenceCache.t T)) :=
  if RegExp_throws (replace_stars pattern) then Some (Throws "SyntaxError")
  else match InfluenceCache.deletePattern pattern c with
       | Some r => Some (Returns r)
       | None => None
       end.

(** The patterns of step 9, in the order of the calls. *)
Definition invalidation_patterns (organizationId : string) : list string :=
  [ ("graph:" +:+ organizationId) +:+ "*";
    ("scores:" +:+ organizationId) +:+ "*";
    ("analytics:" +:+ organizationId) +:+ "*";
    ("top:" +:+ organizationId) +:+ "*" ].

(** One more statement [influenceCache.deletePattern(pattern);] after a run
    of statements that has completed, or has thrown, on the cache it left. *)
Definition then_deletePattern {T : Type}
    (run : option (completion unit * InfluenceCache.t T)) (pattern : string)
    : option (completion unit * InfluenceCache.t T) :=
  match run with
  | Some (Returns _, c) =>
      match deletePattern_call pattern c with
      | Some (Returns (_, c')) => Some (Returns tt, c')
      | Some (Throws e) => Some (Throws e, c)
      | None => None
      end
  | Some (Throws e, c) => Some (Throws e, c)
  | None => None
  end.

(** Step 9. *)
Definition invalidate_caches_call {T : Type} (organizationId : string)
    (c : InfluenceCache.t T) : option (completion unit * InfluenceCache.t T) :=
  fold_left then_deletePattern (invalidation_patterns organizationId)
    (Some (Returns tt, c)).

(** What is decided of step 9 from the organization id alone: whether one
    of its patterns throws, and whether every pattern either throws or has an
    embedded regular expression. *)
Definition pattern_throws (pattern : string) : bool :=
  RegExp_throws (replace_stars pattern).

Definition pattern_compiles (pattern : string) : bool :=
  match RegExp (replace_stars pattern) with
  | Some _ => true
  | None => false
  end.

Definition invalidation_throws (organizationId : string) : bool :=
  existsb pattern_throws (invalidation_patterns organizationId).

Definition invalidation_covered (organizationId : string) : bool :=
  forallb (fun pattern => pattern_throws pattern || pattern_compiles pattern)
    (invalidation_patterns organizationId).

Section Route.
Context {num : Type} `{JsNumber num} `{JsMath num} {T : Type}.

(** [POST /api/influence/recalculate].  The body is given parsed and the
    store answers every query, so the [catch] is reached from step 9 only;
    it answers 500 and undoes nothing.  [None]: the fuel of a traversal is
    spent, or a pattern of step 9 is not embedded. *)
Definition POST (fuel : nat) (now : Z) (db : Database num) (c : InfluenceCache.t T)
    (body : Request) : option (Response num * Database num * InfluenceCache.t T) :=
  match POST_steps_1_to_8 fuel now db body with
  | None => None
  | Some (Success stats scoreUpdates, db') =>
      match invalidate_caches_call (organizationId body) c with
      | Some (Returns _, c') => Some (Success stats scoreUpdates, db', c')
      | Some (Throws _, c') => Some (ServerError, db', c')
      | None => None
      end
  | Some (answer, db') => Some (answer, db', c)
  end.

End Route.
(** * Notions the statements are written in

    What follows is no part of the program: measures and invariants of the
    traversal, the quantities the specification speaks of, and the inputs of
    the scenarios. *)

(** ** The traversal *)

Section EngineAux.
Context {num : Type} `{JsNumber num}.
Implicit Types (adjacencyList : gmap string (list (InfluenceEdge num))).
Implicit Types (current : QueueItem num) (st : LoopState num).

(** What the inner loop appends to the queue. *)
Definition children (decayFactor : num) current
    (neighbors : list (InfluenceEdge num)) : list (QueueItem num) :=
  fold_left (explore_edge decayFactor current) neighbors [].

(** An upper bound of the number of nodes of a tree of height [k] whose
    nodes have at most [B] children. *)
Fixpoint tree_size (B k : nat) : nat :=
  match k with
  | O => 1
  | S k' => 1 + B * tree_size B k'
  end.

Definition remaining (maxDepth : Z) current : nat :=
  Z.to_nat (maxDepth - q_depth current).

Fixpoint queue_measure (B : nat) (maxDepth : Z) (q : list (QueueItem num)) : nat :=
  match q with
  | [] => 0
  | it :: q' => tree_size B (remaining maxDepth it) + queue_measure B maxDepth q'
  end.

(** Turns of the loop that suffice for a traversal over [edges]. *)
Definition propagation_fuel (edges : list (InfluenceEdge num)) (maxDepth : Z) : nat :=
  tree_size (length edges) (Z.to_nat maxDepth).

Definition bounded_degree adjacencyList (B : nat) : Prop :=
  forall id, (length (neighbors_of adjacencyList id) <= B)%nat.

Definition depth_inv (maxDepth : Z) st : Prop :=
  Forall (fun it => q_depth it = 0 \/ 0 < q_depth it <= maxDepth) (queue st) /\
  Forall (fun p => 0 < depth p <= maxDepth) (st_paths st).

End EngineAux.

(** An edge created at time [c], without context. *)
Definition mkEdge {num} (i s t : string) (w : num) (c : Z) : InfluenceEdge num :=
  {| edge_id := i; sourceUserId := s; targetUserId := t; weight := w;
     context := None; createdAt := c |}.

(** The two-edge scenario: [A -> B] of weight 80 and [B -> C] of weight 50. *)
Definition scenario_edges {num} `{JsNumber num} : list (InfluenceEdge num) :=
  [ mkEdge "e1" "A" "B" (n_ofZ 80) 0; mkEdge "e2" "B" "C" (n_ofZ 50) 0 ].

(** A cycle [A -> B -> A] of full weight. *)
Definition cyclic_edges {num} `{JsNumber num} : list (InfluenceEdge num) :=
  [ mkEdge "e1" "A" "B" (n_ofZ 100) 0; mkEdge "e2" "B" "A" (n_ofZ 100) 0 ].

(** ** Time decay *)

(** Elapsed days between two instants given in milliseconds. *)
Definition days_between (createdAt now : Z) : R :=
  ((IZR now - IZR createdAt) / 86400000)%R.

(** The decay as the specification words it: the elapsed days clamped at 0,
    [weight * (1 - rate) ^ max(0, daysElapsed)]. *)
Definition decayed_clamped (weight : R) (createdAt : Z) (rate : R) (now : Z) : R :=
  (weight * Rpower (1 - rate) (Rmax 0 (days_between createdAt now)))%R.

(** ** Ranking *)

(** The quantity each metric ranks by, in the words of the specification. *)
Definition metric_key (metric : Metric) (n : InfluenceNode Q) : Q :=
  match metric with
  | metric_total => rawScore n
  | metric_direct => score n
  | metric_propagated => rawScore n - score n
  | metric_volatility => volatility n
  end.

Definition mkNode {num} (i : string) (s r v : num) : InfluenceNode num :=
  {| node_id := i; name := i; departmentId := None; departmentName := None;
     score := s; rawScore := r; volatility := v |}.

Definition sample_nodes : list (InfluenceNode Q) :=
  [ mkNode "n1" 10 30 1; mkNode "n2" 50 70 2; mkNode "n3" 20 30 3 ]%Q.

(** ** Label propagation *)

(** A node with two out-edges of equal weight. *)
Definition tie_edges : list (InfluenceEdge Q) :=
  [ mkEdge "e1" "A" "B" 50 0; mkEdge "e2" "A" "C" 50 0 ]%Q.

(** The vote a label gets from a node's out-edges: the summed weight of the
    edges whose target carries the label. *)
Fixpoint vote (labels : gmap string nat) (neighbors : list (InfluenceEdge Q))
    (label : nat) : Q :=
  match neighbors with
  | [] => 0
  | e :: rest =>
      (if decide (label_of labels (targetUserId e) = label) then weight e else 0)
      + vote labels rest label
  end.

(** The count of one label as the edges are folded in. *)
Definition vote_step (labels : gmap string nat) (label : nat) (o : option Q)
    (e : InfluenceEdge Q) : option Q :=
  if decide (label_of labels (targetUserId e) = label)
  then Some (n_add (match o with Some c => n_or c (n_ofZ 0) | None => n_ofZ 0 end)
                   (weight e))
  else o.

(** The keys of [labelCounts] as labels are inserted. *)
Definition add_key (keys : list nat) (label : nat) : list nat :=
  if decide (label ∈ keys) then keys else keys ++ [label].

(** The labels after [k] full iterations, and whether the next one changes
    a label. *)
Fixpoint labels_after {num} `{JsNumber num}
    (adjacencyList : gmap string (list (InfluenceEdge num)))
    (nodeIds : list string) (k : nat) (labels : gmap string nat) : gmap string nat :=
  match k with
  | O => labels
  | S k' =>
      labels_after adjacencyList nodeIds k' (fst (iteration adjacencyList nodeIds labels))
  end.

Definition changed_in {num} `{JsNumber num}
    (adjacencyList : gmap string (list (InfluenceEdge num)))
    (nodeIds : list string) (labels : gmap string nat) : bool :=
  snd (iteration adjacencyList nodeIds labels).

(** ** The cache *)

(** Glob matching in the words of the specification: [*] matches any
    substring, every other character matches itself, and the pattern covers
    the whole key. *)
Fixpoint glob_match (pattern key : string) : bool :=
  match pattern with
  | EmptyString =>
      match key with EmptyString => true | String _ _ => false end
  | String p pattern' =>
      if Ascii.eqb p "*"%char
      then (fix star (key : string) : bool :=
              glob_match pattern' key ||
              match key with
              | String _ key' => star key'
              | EmptyString => false
              end) key
      else match key with
           | String c key' => Ascii.eqb p c && glob_match pattern' key'
           | EmptyString => false
           end
  end.

(** A cache of three entries, stored at time 0 for five minutes. *)
Definition sample_cache : InfluenceCache.t nat :=
  InfluenceCache.set 0 "scores:org1" (data 3%nat) 300000
    (InfluenceCache.set 0 "subgraph:org1" (data 2%nat) 300000
       (InfluenceCache.set 0 "graph:org1" (data 1%nat) 300000 InfluenceCache.empty)).

(** A factory that returns [null] and counts its invocations. *)
Definition counting_null_factory {T : Type} (calls : nat) : JsValue T * nat :=
  (null, S calls).

(** [getOrSet] called once per pair of lookup and store times. *)
Fixpoint getOrSet_calls {T W : Type} (times : list (Z * Z)) (key : string)
    (factory : W -> JsValue T * W) (ttlMs : Z) (c : InfluenceCache.t T) (w : W)
    : InfluenceCache.t T * W :=
  match times with
  | [] => (c, w)
  | (now, now') :: times' =>
      let r := InfluenceCache.getOrSet now now' key factory ttlMs c w in
      getOrSet_calls times' key factory ttlMs (snd (fst r)) (snd r)
  end.

(** ** The recompute cycle *)

(** The one-event scenario: the tenant [org1] has the single user [X], no
    edge, and one unprocessed event of [weightDelta = 15] for [X]. *)
Definition scenario_db {num} `{JsNumber num} : Database num :=
  {| influenceEdge := [];
     influenceEvent :=
       [ {| ev_id := "ev1"; ev_organizationId := "org1"; subjectUserId := "X";
            weightDelta := n_ofZ 15; eventType := "PROJECT_SUCCESS";
            ev_createdAt := 0; processedAt := None |} ];
     user := [ {| ur_id := "X"; ur_organizationId := "org1"; ur_isActive := true |} ];
     influenceScore :=
       [ {| sr_userId := "X"; sr_scoreType := "TOTAL"; sr_score := n_ofZ 0;
            sr_rawScore := n_ofZ 0; sr_volatility := n_ofZ 0; sr_rank := None;
            sr_calculatedAt := 0 |} ] |}.

Definition scenario_request : Request :=
  {| organizationId := "org1"; applyDecay := true; processEvents := true |}.

(** The new score a response reports for a user. *)
Definition newScore_of {num} (userId : string) (r : Response num) : option num :=
  match r with
  | BadRequest => None
  | Success _ scoreUpdates =>
      su_newScore <$> head (filter (fun u => su_userId u = userId) scoreUpdates)
  | ServerError => None
  end.

(** The events of a tenant that a cycle would still consume. *)
Definition pending_ids {num} (organizationId : string) (db : Database num) : list string :=
  ev_id <$> List.filter (is_pending organizationId) (influenceEvent db).

(** Two cycles in a row, the second on the store and the cache the first
    one left; the two answers and the store after each. *)
Definition POST_twice {num} `{JsNumber num} `{JsMath num} {T : Type}
    (fuel : nat) (now now' : Z)
    (db : Database num) (c : InfluenceCache.t T) (body : Request)
    : option (Response num * Database num * Response num * Database num) :=
  match POST fuel now db c body with
  | None => None
  | Some (r1, db1, c1) =>
      match POST fuel now' db1 c1 body with
      | None => None
      | Some (r2, db2, _) => Some (r1, db1, r2, db2)
      end
  end.

(** The one-event scenario for an organization whose id, [a++], is no
    regular expression. *)
Definition unparsable_db {num} `{JsNumber num} : Database num :=
  {| influenceEdge := [];
     influenceEvent :=
       [ {| ev_id := "ev1"; ev_organizationId := "a++"; subjectUserId := "X";
            weightDelta := n_ofZ 15; eventType := "PROJECT_SUCCESS";
            ev_createdAt := 0; processedAt := None |} ];
     user := [ {| ur_id := "X"; ur_organizationId := "a++"; ur_isActive := true |} ];
     influenceScore :=
       [ {| sr_userId := "X"; sr_scoreType := "TOTAL"; sr_score := n_ofZ 0;
            sr_rawScore := n_ofZ 0; sr_volatility := n_ofZ 0; sr_rank := None;
            sr_calculatedAt := 0 |} ] |}.

Definition unparsable_request : Request :=
  {| organizationId := "a++"; applyDecay := true; processEvents := true |}.


(** ** Walks, and the order of a breadth-first traversal *)

(** A list of nodes in which every node is joined to the next one by an edge. *)
Definition is_walk {num} (edges : list (InfluenceEdge num)) (p : list string) : Prop :=
  forall i a b, p !! i = Some a -> p !! S i = Some b ->
    exists e, e ∈ edges /\ sourceUserId e = a /\ targetUserId e = b.

(** What holds of every queued element and of every recorded path while
    the traversal from [source] runs over [edges]. *)
Definition item_is_walk {num} (edges : list (InfluenceEdge num)) (source : string)
    (it : QueueItem num) : Prop :=
  head (q_path it) = Some source /\
  last (q_path it) = Some (q_nodeId it) /\
  Z.of_nat (length (q_path it)) = q_depth it + 1 /\
  is_walk edges (q_path it).

Definition path_is_walk {num} (edges : list (InfluenceEdge num)) (source : string)
    (p : InfluencePath num) : Prop :=
  head (path p) = Some source /\
  Z.of_nat (length (path p)) = depth p + 1 /\
  is_walk edges (path p).

(** The order of a breadth-first traversal: the recorded depths never step
    down, no recorded path is deeper than a queued element, and the queued
    depths ascend and span at most two levels. *)
Definition bfs_inv {num} (st : LoopState num) : Prop :=
  StronglySorted Z.le (depth <$> st_paths st) /\
  StronglySorted Z.le (q_depth <$> queue st) /\
  (forall p it, p ∈ st_paths st -> it ∈ queue st -> depth p <= q_depth it) /\
  (forall it1 it2, it1 ∈ queue st -> it2 ∈ queue st -> q_depth it2 <= q_depth it1 + 1).

(** No element that was reached over an edge, and no recorded path, carries
    a weight under the threshold. *)
Definition threshold_inv {num} `{JsNumber num} (st : LoopState num) : Prop :=
  Forall (fun it => q_depth it = 0 \/ n_ltb (q_weight it) MIN_WEIGHT_THRESHOLD = false)
    (queue st) /\
  Forall (fun p => n_ltb (path_weight p) MIN_WEIGHT_THRESHOLD = false) (st_paths st).


(** ** Sums *)

(** The sum of a list of reals. *)
Definition Rsum (l : list R) : R := fold_right Rplus 0%R l.

(** ** Departments *)

(** The departments the nodes of one id carry, in input order; a missing
    or empty department does not count. *)
Definition departments_of {num} (nodes : list (InfluenceNode num)) (id : string)
    : list string :=
  omap (fun node =>
          if decide (node_id node = id)
          then match departmentId node with
               | Some d => if string_truthy d then Some d else None
               | None => None
               end
          else None) nodes.

(** The entry of a matrix, if it has one. *)
Definition entry {num} (matrix : gmap string (gmap string num)) (s t : string)
    : option num :=
  matrix !! s ≫= fun row => row !! t.

(** The edges that lead from department [s] to department [t]. *)
Definition crosses {num} (nodeDepartments : gmap string string) (s t : string)
    (e : InfluenceEdge num) : Prop :=
  nodeDepartments !! sourceUserId e = Some s /\
  nodeDepartments !! targetUserId e = Some t.

#[global] Instance crosses_dec {num} nodeDepartments s t (e : InfluenceEdge num) :
  Decision (crosses nodeDepartments s t e).
Proof. unfold crosses. apply _. Defined.

(** The running total of one entry: [(get(t) || 0) + edge.weight]. *)
Definition add_weight {num} `{JsNumber num} (current : num) (e : InfluenceEdge num) : num :=
  n_add (n_or current (n_ofZ 0)) (weight e).

(** The sum of a list of rationals. *)
Definition Qsum (l : list Q) : Q := fold_right Qplus 0%Q l.

(** The pairs of positions [i < j] of a list of length [n]. *)
Definition pairs_of (n : nat) : nat := (n * (n - 1) / 2)%nat.

(** The number of edges that leave a node. *)
Definition out_degree {num} (edges : list (InfluenceEdge num)) (id : string) : nat :=
  length (filter (fun e => sourceUserId e = id) edges).

(** The nodes [A] and [B] of department [eng] and [C] of department [ops]. *)
Definition department_nodes {num} `{JsNumber num} : list (InfluenceNode num) :=
  [ {| node_id := "A"; name := "A"; departmentId := Some "eng";
       departmentName := None; score := n_ofZ 0; rawScore := n_ofZ 0;
       volatility := n_ofZ 0 |};
    {| node_id := "B"; name := "B"; departmentId := Some "eng";
       departmentName := None; score := n_ofZ 0; rawScore := n_ofZ 0;
       volatility := n_ofZ 0 |};
    {| node_id := "C"; name := "C"; departmentId := Some "ops";
       departmentName := None; score := n_ofZ 0; rawScore := n_ofZ 0;
       volatility := n_ofZ 0 |} ].

(** ** Labellings *)

(** What every labelling of the run satisfies: the labelled nodes are the
    listed ones, and every label is the position of a listed node. *)
Definition labels_inv (nodeIds : list string) (labels : gmap string nat) : Prop :=
  (forall a, a ∈ nodeIds <-> is_Some (labels !! a)) /\
  (forall a l, labels !! a = Some l -> (l < length nodeIds)%nat).


(** ** Decay per level *)

(** On exact numbers: every queued element and every recorded path carries
    a weight between 0 and the decay factor raised to its depth. *)
Definition level_inv (decayFactor : Q) (st : LoopState Q) : Prop :=
  Forall (fun it => 0 <= q_depth it /\
                    (0 <= q_weight it <= decayFactor ^ q_depth it)%Q) (queue st) /\
  Forall (fun p => 0 <= depth p /\
                   (0 <= path_weight p <= decayFactor ^ depth p)%Q) (st_paths st).

(** ** Sequences of cache calls, and patterns without special characters *)

(** A call of one of the methods of the cache. *)
Inductive CacheCall (T : Type) : Type :=
  | call_get (now : Z) (key : string)
  | call_set (now : Z) (key : string) (v : JsValue T) (ttlMs : Z)
  | call_has (now : Z) (key : string)
  | call_delete (key : string)
  | call_cleanup (now : Z)
  | call_clear.
Arguments call_get {T}. Arguments call_set {T}. Arguments call_has {T}.
Arguments call_delete {T}. Arguments call_cleanup {T}. Arguments call_clear {T}.

Definition run_call {T} (c : InfluenceCache.t T) (call : CacheCall T) : InfluenceCache.t T :=
  match call with
  | call_get now key => snd (InfluenceCache.get now key c)
  | call_set now key v ttlMs => InfluenceCache.set now key v ttlMs c
  | call_has now key => snd (InfluenceCache.has now key c)
  | call_delete key => snd (InfluenceCache.delete key c)
  | call_cleanup now => InfluenceCache.cleanup now c
  | call_clear => InfluenceCache.clear c
  end.

Definition run_calls {T} (calls : list (CacheCall T)) (c : InfluenceCache.t T)
    : InfluenceCache.t T :=
  fold_left run_call calls c.

(** The lookups counted after a sequence of calls: one per [get], starting
    again from nothing at every [clear]. *)
Definition count_lookups {T} (n : nat) (call : CacheCall T) : nat :=
  match call with
  | call_get _ _ => S n
  | call_clear => 0%nat
  | _ => n
  end.

(** What the two lookups answer for a key. *)
Definition answers {T} (now : Z) (key : string) (c : InfluenceCache.t T)
    : JsValue T * bool :=
  (fst (InfluenceCache.get now key c), fst (InfluenceCache.has now key c)).

(** A character that stands for itself in a regular expression and in a
    glob. *)
Definition plain_char (c : ascii) : bool :=
  negb (is_syntax_character c) && negb (Ascii.eqb c "*"%char)
  && negb (Ascii.eqb c "."%char).

Fixpoint plain (p : string) : bool :=
  match p with
  | EmptyString => true
  | String c rest => plain_char c && plain rest
  end.

(** The expression that matches the characters of [p], one after the other. *)
Fixpoint literal (p : string) : list (RegexAtom * bool) :=
  match p with
  | EmptyString => []
  | String c rest => (Char c, false) :: literal rest
  end.

(** [p] occurs somewhere in [key]. *)
Definition occurs_in (p key : string) : Prop :=
  exists pre post, key = pre +:+ p +:+ post.
(** * Properties of the program *)

(** ** Facts on the traversal *)

Section EngineFacts.
Context {num : Type} `{JsNumber num}.
Implicit Types (adjacencyList : gmap string (list (InfluenceEdge num))).
Implicit Types (current : QueueItem num) (st : LoopState num).

(** The adjacency list of a node is the sub-list of the edges it is the
    source of, in input order. *)
Lemma neighbors_of_fold (edges : list (InfluenceEdge num)) adjacencyList id :
  neighbors_of (fold_left adjacency_add edges adjacencyList) id =
  neighbors_of adjacencyList id ++
    filter (fun e => sourceUserId e = id) edges.
Proof.
  revert adjacencyList.
  induction edges as [|e edges IH]; intros adjacencyList; simpl.
  - by rewrite app_nil_r.
  - rewrite IH. unfold neighbors_of, adjacency_add.
    rewrite filter_cons. destruct (decide (sourceUserId e = id)) as [->|Hne].
    + rewrite lookup_insert_eq. simpl. by rewrite <- app_assoc.
    + by rewrite lookup_insert_ne.
Qed.

Lemma neighbors_of_build (edges : list (InfluenceEdge num)) id :
  neighbors_of (buildAdjacencyList edges) id =
  filter (fun e => sourceUserId e = id) edges.
Proof.
  unfold buildAdjacencyList. rewrite neighbors_of_fold.
  unfold neighbors_of. by rewrite lookup_empty.
Qed.

Lemma neighbors_of_build_length (edges : list (InfluenceEdge num)) id :
  (length (neighbors_of (buildAdjacencyList edges) id) <= length edges)%nat.
Proof. rewrite neighbors_of_build. apply length_filter. Qed.

Lemma explore_edge_app decayFactor current q edge :
  explore_edge decayFactor current q edge =
  q ++ explore_edge decayFactor current [] edge.
Proof.
  unfold explore_edge.
  destruct (n_ltb _ _); simpl; by rewrite ?app_nil_r.
Qed.

Lemma fold_explore_app decayFactor current neighbors q :
  fold_left (explore_edge decayFactor current) neighbors q =
  q ++ children decayFactor current neighbors.
Proof.
  unfold children. revert q.
  induction neighbors as [|e ns IH]; intros q; simpl.
  - by rewrite app_nil_r.
  - rewrite IH, (IH (explore_edge _ _ [] e)), (explore_edge_app _ _ q).
    by rewrite app_assoc.
Qed.

Lemma children_cons decayFactor current e ns :
  children decayFactor current (e :: ns) =
  explore_edge decayFactor current [] e ++ children decayFactor current ns.
Proof. unfold children at 1. simpl. apply fold_explore_app. Qed.

(** Every queued child stems from one edge of the expanded node: it sits
    one level deeper and carries the parent's weight times
    [(edge.weight / 100) * decayFactor]. *)
Lemma children_spec decayFactor current ns it :
  it ∈ children decayFactor current ns ->
  exists e, e ∈ ns /\
    q_nodeId it = targetUserId e /\
    q_weight it =
      n_mul (n_mul (q_weight current) (n_div (weight e) (n_ofZ 100))) decayFactor /\
    q_path it = q_path current ++ [targetUserId e] /\
    q_depth it = q_depth current + 1.
Proof.
  induction ns as [|e ns IH].
  - intros Hin. by apply elem_of_nil in Hin.
  - rewrite children_cons. intros [Hin|Hin]%elem_of_app.
    + unfold explore_edge in Hin.
      destruct (n_ltb _ _); [by apply elem_of_nil in Hin|].
      apply list_elem_of_singleton in Hin as ->.
      exists e. split; [left|done].
    + destruct (IH Hin) as (e' & He' & Hrest).
      exists e'. split; [by right|done].
Qed.

Lemma children_length decayFactor current ns :
  (length (children decayFactor current ns) <= length ns)%nat.
Proof.
  induction ns as [|e ns IH]; [done|].
  rewrite children_cons, length_app. unfold explore_edge.
  destruct (n_ltb _ _); simpl; lia.
Qed.

(** *** Termination: a measure that every turn of the loop decreases *)

Lemma tree_size_pos B k : (1 <= tree_size B k)%nat.
Proof. destruct k; simpl; lia. Qed.

Lemma queue_measure_app B maxDepth (q1 q2 : list (QueueItem num)) :
  queue_measure B maxDepth (q1 ++ q2) =
  (queue_measure B maxDepth q1 + queue_measure B maxDepth q2)%nat.
Proof. induction q1 as [|it q1 IH]; simpl; [done|]. rewrite IH. lia. Qed.

Lemma queue_measure_children B maxDepth decayFactor current ns r :
  remaining maxDepth current = S r ->
  (queue_measure B maxDepth (children decayFactor current ns)
   <= length ns * tree_size B r)%nat.
Proof.
  intros Hr. induction ns as [|e ns IH]; [done|].
  rewrite children_cons, queue_measure_app. unfold explore_edge at 1.
  destruct (n_ltb _ _); simpl.
  - lia.
  - unfold remaining in *. simpl.
    replace (Z.to_nat (maxDepth - (q_depth current + 1))) with r by lia. lia.
Qed.

Lemma loop_body_measure adjacencyList B maxDepth decayFactor current rest st :
  bounded_degree adjacencyList B ->
  (S (queue_measure B maxDepth
        (queue (loop_body adjacencyList maxDepth decayFactor current rest st)))
   <= queue_measure B maxDepth (current :: rest))%nat.
Proof.
  intros HB. unfold loop_body. simpl.
  destruct (Z.leb_spec maxDepth (q_depth current)) as [Hge|Hlt]; simpl.
  - pose proof (tree_size_pos B (remaining maxDepth current)). lia.
  - rewrite fold_explore_app, queue_measure_app.
    destruct (remaining maxDepth current) as [|r] eqn:Hr;
      [unfold remaining in Hr; lia|].
    pose proof (queue_measure_children B maxDepth decayFactor current
                  (neighbors_of adjacencyList (q_nodeId current)) r Hr) as Hc.
    specialize (HB (q_nodeId current)). simpl.
    assert (length (neighbors_of adjacencyList (q_nodeId current)) * tree_size B r
            <= B * tree_size B r)%nat by (apply Nat.mul_le_mono_r; lia).
    lia.
Qed.

Lemma while_loop_terminates adjacencyList B maxDepth decayFactor fuel st :
  bounded_degree adjacencyList B ->
  (queue_measure B maxDepth (queue st) <= fuel)%nat ->
  is_Some (while_loop fuel adjacencyList maxDepth decayFactor st).
Proof.
  intros HB. revert st.
  induction fuel as [|fuel IH]; intros st Hm;
    destruct (queue st) as [|current rest] eqn:Hq.
  - simpl. rewrite Hq. eauto.
  - simpl in Hm. pose proof (tree_size_pos B (remaining maxDepth current)). lia.
  - simpl. rewrite Hq. eauto.
  - simpl. rewrite Hq. apply IH.
    pose proof (loop_body_measure adjacencyList B maxDepth decayFactor
                  current rest st HB). lia.
Qed.

(** The loop ends only on the empty queue. *)
Lemma while_loop_queue_empty adjacencyList maxDepth decayFactor fuel st st' :
  while_loop fuel adjacencyList maxDepth decayFactor st = Some st' ->
  queue st' = [].
Proof.
  revert st. induction fuel as [|fuel IH]; intros st; simpl;
    destruct (queue st) eqn:Hq; try done; try (intros [= <-]; done).
  apply IH.
Qed.

(** More fuel does not change a result. *)
Lemma while_loop_fuel_mono adjacencyList maxDepth decayFactor fuel fuel' st st' :
  while_loop fuel adjacencyList maxDepth decayFactor st = Some st' ->
  (fuel <= fuel')%nat ->
  while_loop fuel' adjacencyList maxDepth decayFactor st = Some st'.
Proof.
  revert fuel' st. induction fuel as [|fuel IH]; intros fuel' st; simpl;
    destruct (queue st) eqn:Hq; try done.
  - intros Hs _. destruct fuel'; simpl; by rewrite Hq.
  - intros Hs _. destruct fuel'; simpl; by rewrite Hq.
  - intros Hs Hle. destruct fuel' as [|fuel']; [lia|].
    simpl. rewrite Hq. apply IH; [done|lia].
Qed.

(** *** The depth of what is queued and recorded *)

Lemma loop_body_depth_inv adjacencyList maxDepth decayFactor current rest st :
  queue st = current :: rest ->
  depth_inv maxDepth st ->
  depth_inv maxDepth (loop_body adjacencyList maxDepth decayFactor current rest st).
Proof.
  intros Hq [Hqueue Hpaths]. rewrite Hq in Hqueue.
  apply Forall_cons in Hqueue as [Hcur Hrest].
  assert (Forall (fun p : InfluencePath num => 0 < depth p <= maxDepth)
            (if 0 <? q_depth current
             then st_paths st ++ [ {| path := q_path current;
                                      path_weight := q_weight current;
                                      depth := q_depth current |} ]
             else st_paths st)) as Hpaths'.
  { destruct (Z.ltb_spec 0 (q_depth current)); [|done].
    apply Forall_app. split; [done|]. apply Forall_singleton. simpl. lia. }
  unfold loop_body, depth_inv.
  destruct (Z.leb_spec maxDepth (q_depth current)) as [Hge|Hlt]; simpl.
  - done.
  - split; [|done]. rewrite fold_explore_app. apply Forall_app. split; [done|].
    apply Forall_forall. intros it Hit.
    apply children_spec in Hit as (e & _ & _ & _ & _ & Hd). lia.
Qed.

Lemma while_loop_depth_inv adjacencyList maxDepth decayFactor fuel st st' :
  depth_inv maxDepth st ->
  while_loop fuel adjacencyList maxDepth decayFactor st = Some st' ->
  depth_inv maxDepth st'.
Proof.
  revert st. induction fuel as [|fuel IH]; intros st Hinv; simpl;
    destruct (queue st) as [|current rest] eqn:Hq; try done;
    try (intros [= <-]; done).
  apply IH. by apply loop_body_depth_inv.
Qed.

Lemma initial_state_depth_inv maxDepth sourceId :
  depth_inv maxDepth (initial_state sourceId).
Proof.
  split; simpl; [|constructor].
  apply Forall_singleton. simpl. by left.
Qed.

End EngineFacts.

(** ** Results of [calculatePropagatedInfluence] *)

Section EngineResults.
Context {num : Type} `{JsNumber num}.
Implicit Types (adjacencyList : gmap string (list (InfluenceEdge num))).
Implicit Types (results : gmap string (PropagationResult num)).

Lemma propagateFromNode_terminates adjacencyList B fuel sourceId maxDepth decayFactor :
  bounded_degree adjacencyList B ->
  (tree_size B (Z.to_nat maxDepth) <= fuel)%nat ->
  exists st,
    while_loop fuel adjacencyList maxDepth decayFactor (initial_state sourceId) = Some st /\
    queue st = [] /\
    Forall (fun p => 0 < depth p <= maxDepth) (st_paths st).
Proof.
  intros HB Hfuel.
  destruct (while_loop_terminates adjacencyList B maxDepth decayFactor fuel
              (initial_state sourceId) HB) as [st Hst].
  { simpl. unfold remaining. simpl. rewrite Z.sub_0_r. lia. }
  exists st. split; [done|]. split.
  - by eapply while_loop_queue_empty.
  - eapply while_loop_depth_inv; [apply initial_state_depth_inv|done].
Qed.

Lemma propagateFromNode_fuel_mono adjacencyList fuel fuel' sourceId maxDepth decayFactor r :
  propagateFromNode fuel sourceId adjacencyList maxDepth decayFactor = Some r ->
  (fuel <= fuel')%nat ->
  propagateFromNode fuel' sourceId adjacencyList maxDepth decayFactor = Some r.
Proof.
  unfold propagateFromNode. intros Hr Hle.
  destruct (while_loop fuel _ _ _ _) as [st|] eqn:Hst; [|done].
  by rewrite (while_loop_fuel_mono _ _ _ _ _ _ _ Hst Hle).
Qed.

Lemma propagate_all_fuel_mono adjacencyList fuel fuel' maxDepth decayFactor nodeIds acc results :
  propagate_all fuel adjacencyList maxDepth decayFactor nodeIds acc = Some results ->
  (fuel <= fuel')%nat ->
  propagate_all fuel' adjacencyList maxDepth decayFactor nodeIds acc = Some results.
Proof.
  intros Hr Hle. revert acc Hr.
  induction nodeIds as [|id ids IH]; intros acc; simpl; [done|].
  destruct (propagateFromNode fuel id _ _ _) as [r|] eqn:Hid; [|done].
  rewrite (propagateFromNode_fuel_mono _ _ _ _ _ _ _ Hid Hle). apply IH.
Qed.

Lemma calculate_fuel_mono (edges : list (InfluenceEdge num)) fuel fuel'
    maxDepth decayFactor nodeIds results :
  calculatePropagatedInfluence fuel edges nodeIds maxDepth decayFactor = Some results ->
  (fuel <= fuel')%nat ->
  calculatePropagatedInfluence fuel' edges nodeIds maxDepth decayFactor = Some results.
Proof. apply propagate_all_fuel_mono. Qed.

(** The result map holds, for each listed id, the result of its own
    traversal, and nothing else is added. *)
Lemma propagate_all_lookup adjacencyList fuel maxDepth decayFactor nodeIds acc :
  (forall id, id ∈ nodeIds ->
     is_Some (propagateFromNode fuel id adjacencyList maxDepth decayFactor)) ->
  exists results,
    propagate_all fuel adjacencyList maxDepth decayFactor nodeIds acc = Some results /\
    forall id, results !! id =
      if decide (id ∈ nodeIds)
      then propagateFromNode fuel id adjacencyList maxDepth decayFactor
      else acc !! id.
Proof.
  revert acc. induction nodeIds as [|n ids IH]; intros acc Hall; simpl.
  - exists acc. split; [done|]. intros id.
    destruct (decide (id ∈ [])) as [Hin|]; [by apply elem_of_nil in Hin|done].
  - destruct (Hall n) as [r Hr]; [left|]. rewrite Hr.
    destruct (IH (<[n:=r]> acc)) as (results & Hres & Hlook).
    { intros id Hid. apply Hall. by right. }
    exists results. split; [done|]. intros id. rewrite Hlook.
    destruct (decide (id ∈ ids)) as [Hin|Hnin].
    + rewrite decide_True; [done|by right].
    + destruct (decide (id = n)) as [->|Hne].
      * rewrite decide_True; [|left]. by rewrite lookup_insert_eq.
      * rewrite decide_False; [by rewrite lookup_insert_ne|].
        intros [?|?]%elem_of_cons; done.
Qed.

Lemma build_bounded_degree (edges : list (InfluenceEdge num)) :
  bounded_degree (buildAdjacencyList edges) (length edges).
Proof. intros id. apply neighbors_of_build_length. Qed.

Lemma calculate_results (fuel : nat) (edges : list (InfluenceEdge num))
    (nodeIds : list string) (maxDepth : Z) (decayFactor : num) :
  (propagation_fuel edges maxDepth <= fuel)%nat ->
  exists results,
    calculatePropagatedInfluence fuel edges nodeIds maxDepth decayFactor = Some results /\
    forall id, results !! id =
      if decide (id ∈ nodeIds)
      then propagateFromNode fuel id (buildAdjacencyList edges) maxDepth decayFactor
      else None.
Proof.
  intros Hfuel. unfold calculatePropagatedInfluence.
  destruct (propagate_all_lookup (buildAdjacencyList edges) fuel maxDepth
              decayFactor nodeIds ∅) as (results & Hres & Hlook).
  - intros id _.
    destruct (propagateFromNode_terminates (buildAdjacencyList edges)
                (length edges) fuel id maxDepth decayFactor
                (build_bounded_degree edges) Hfuel) as (st & Hst & _).
    unfold propagateFromNode. rewrite Hst. eauto.
  - exists results. split; [done|]. intros id. rewrite Hlook.
    destruct (decide (id ∈ nodeIds)); [done|apply lookup_empty].
Qed.

Lemma no_source_no_neighbors (edges : list (InfluenceEdge num)) id :
  Forall (fun e => sourceUserId e <> id) edges ->
  neighbors_of (buildAdjacencyList edges) id = [].
Proof.
  intros Hnone. rewrite neighbors_of_build.
  induction Hnone as [|e es He _ IH]; [done|].
  rewrite filter_cons. destruct (decide (sourceUserId e = id)); [done|apply IH].
Qed.

(** A node without neighbours: one turn of the loop takes the node off the
    queue, records nothing and queues nothing. *)
Lemma propagateFromNode_no_neighbors adjacencyList fuel sourceId maxDepth decayFactor :
  neighbors_of adjacencyList sourceId = [] ->
  (1 <= fuel)%nat ->
  propagateFromNode fuel sourceId adjacencyList maxDepth decayFactor =
    Some {| nodeId := sourceId;
            directInfluence := n_ofZ 0;
            propagatedInfluence := n_ofZ 0;
            totalInfluence := n_add (n_ofZ 0) (n_ofZ 0);
            paths := [] |}.
Proof.
  intros Hn Hfuel. destruct fuel as [|fuel]; [lia|].
  unfold propagateFromNode. simpl. unfold loop_body. simpl. rewrite Hn. simpl.
  destruct (maxDepth <=? 0); destruct fuel; reflexivity.
Qed.

(** C8: the traversal of [calculatePropagatedInfluence] terminates, whatever
    the edges (cycles included), the node ids, the depth limit and the decay
    factor: [propagation_fuel edges maxDepth] turns of the loop, or more,
    empty the queue of every node's traversal and yield one and the same
    result map; it holds a result for exactly the listed ids, and no path
    recorded in it is deeper than [maxDepth]. *)
Theorem propagation_terminates_within_maxDepth
    (edges : list (InfluenceEdge num)) (nodeIds : list string)
    (maxDepth : Z) (decayFactor : num) :
  exists results,
    (forall fuel, (propagation_fuel edges maxDepth <= fuel)%nat ->
       calculatePropagatedInfluence fuel edges nodeIds maxDepth decayFactor
       = Some results) /\
    (forall fuel id, (propagation_fuel edges maxDepth <= fuel)%nat ->
       exists st,
         while_loop fuel (buildAdjacencyList edges) maxDepth decayFactor
           (initial_state id) = Some st /\ queue st = []) /\
    (forall id, id ∈ nodeIds <-> is_Some (results !! id)) /\
    (forall id r p, results !! id = Some r -> p ∈ paths r ->
       0 < depth p <= maxDepth).
Proof.
  pose proof (build_bounded_degree edges) as HB.
  set (adj := buildAdjacencyList edges) in *.
  set (fuel0 := propagation_fuel edges maxDepth).
  assert (forall id, exists r,
            propagateFromNode fuel0 id adj maxDepth decayFactor = Some r /\
            Forall (fun p => 0 < depth p <= maxDepth) (paths r)) as Hone.
  { intros id.
    destruct (propagateFromNode_terminates adj (length edges) fuel0 id maxDepth
                decayFactor HB) as (st & Hst & _ & Hp); [done|].
    unfold propagateFromNode. rewrite Hst. eauto. }
  destruct (calculate_results fuel0 edges nodeIds maxDepth decayFactor)
    as (results & Hres & Hlook); [done|]. fold adj in Hlook.
  exists results. split; [|split; [|split]].
  - intros fuel Hfuel. unfold calculatePropagatedInfluence. fold adj.
    by apply (propagate_all_fuel_mono _ fuel0).
  - intros fuel id Hfuel.
    destruct (propagateFromNode_terminates adj (length edges) fuel id maxDepth
                decayFactor HB) as (st & Hst & Hq & _); [done|]. eauto.
  - intros id. rewrite Hlook. split.
    + intros Hin. rewrite decide_True by done.
      destruct (Hone id) as (r & -> & _). eauto.
    + intros [r Hr]. destruct (decide (id ∈ nodeIds)); [done|discriminate].
  - intros id r p Hr Hp. rewrite Hlook in Hr.
    destruct (decide (id ∈ nodeIds)); [|discriminate].
    destruct (Hone id) as (r' & Hr' & Hall). rewrite Hr' in Hr.
    injection Hr as <-. rewrite Forall_forall in Hall. by apply Hall.
Qed.

(** C6 (as the code has it): a node id that no edge has as its source, be
    it absent from the adjacency list altogether, is processed without
    error: its result has [directInfluence = 0], [propagatedInfluence = 0]
    and an empty list of paths.  The node itself, taken off the queue at
    depth 0, is neither recorded as a path nor counted. *)
Theorem no_outgoing_edges_empty_result
    (fuel : nat) (edges : list (InfluenceEdge num)) (nodeIds : list string)
    (maxDepth : Z) (decayFactor : num) (id : string) :
  Forall (fun e => sourceUserId e <> id) edges ->
  id ∈ nodeIds ->
  (propagation_fuel edges maxDepth <= fuel)%nat ->
  exists results,
    calculatePropagatedInfluence fuel edges nodeIds maxDepth decayFactor = Some results /\
    results !! id =
      Some {| nodeId := id;
              directInfluence := n_ofZ 0;
              propagatedInfluence := n_ofZ 0;
              totalInfluence := n_add (n_ofZ 0) (n_ofZ 0);
              paths := [] |}.
Proof.
  intros Hnone Hin Hfuel.
  destruct (calculate_results fuel edges nodeIds maxDepth decayFactor Hfuel)
    as (results & Hres & Hlook).
  exists results. split; [done|].
  rewrite Hlook, decide_True by done.
  apply propagateFromNode_no_neighbors.
  - by apply no_source_no_neighbors.
  - pose proof (tree_size_pos (length edges) (Z.to_nat maxDepth)).
    unfold propagation_fuel in Hfuel. lia.
Qed.

End EngineResults.

(** ** The two-edge scenario *)

(** C1: on the edges [A -> B] (weight 80) and [B -> C] (weight 50), with
    [maxDepth = 3] and [decayFactor = 0.6], the result for [A] has
    [directInfluence = 80], the paths [A,B] of weight [1.0 * (80/100) * 0.6
    = 0.48] at depth 1 and [A,B,C] of weight [0.48 * (50/100) * 0.6 = 0.144]
    at depth 2, and [totalInfluence = 80 + 0.48 + 0.144 = 80.624].  This holds
    in exact arithmetic and, with the decimals read as binary64 literals, on
    binary64 as well.  In general every element the traversal queues carries
    the weight of the element it was reached from, times
    [(edge.weight / 100) * decayFactor], one level deeper. *)
Theorem scenario_two_edges_from_A :
  (forall fuel, (propagation_fuel (num:=Q) scenario_edges 3 <= fuel)%nat ->
     exists results r wB wC,
       calculatePropagatedInfluence fuel scenario_edges ["A"; "B"; "C"] 3 (dec 6 1)
         = Some results /\
       results !! "A" = Some r /\
       (directInfluence r == 80)%Q /\
       paths r = [ {| path := ["A"; "B"]; path_weight := wB; depth := 1 |};
                   {| path := ["A"; "B"; "C"]; path_weight := wC; depth := 2 |} ] /\
       (wB == 1 * (80 / 100) * 0.6)%Q /\ (wB == 0.48)%Q /\
       (wC == wB * (50 / 100) * 0.6)%Q /\ (wC == 0.144)%Q /\
       (propagatedInfluence r == 0.48 + 0.144)%Q /\
       (totalInfluence r == 80.624)%Q) /\
  (forall fuel, (propagation_fuel (num:=PrimFloat.float) scenario_edges 3 <= fuel)%nat ->
     exists results r,
       calculatePropagatedInfluence fuel scenario_edges ["A"; "B"; "C"] 3 (dec 6 1)
         = Some results /\
       results !! "A" = Some r /\
       directInfluence r = 80%float /\
       paths r = [ {| path := ["A"; "B"]; path_weight := 0.48%float; depth := 1 |};
                   {| path := ["A"; "B"; "C"]; path_weight := 0.144%float;
                      depth := 2 |} ] /\
       totalInfluence r = 80.624%float) /\
  (forall (num : Type) (N : JsNumber num) (decayFactor : num)
          (current : QueueItem num) (neighbors : list (InfluenceEdge num))
          (rest : list (QueueItem num)) (it : QueueItem num),
     it ∈ fold_left (explore_edge decayFactor current) neighbors rest ->
     it ∈ rest \/
     exists edge, edge ∈ neighbors /\
       q_nodeId it = targetUserId edge /\
       q_weight it =
         n_mul (n_mul (q_weight current) (n_div (weight edge) (n_ofZ 100)))
               decayFactor /\
       q_depth it = q_depth current + 1).
Proof.
  split; [|split].
  - intros fuel Hfuel. eexists _, _, _, _.
    split; [apply (calculate_fuel_mono _ 15 fuel); [vm_compute; reflexivity|exact Hfuel]|].
    split; [vm_compute; reflexivity|].
    split; [reflexivity|]. split; [reflexivity|].
    repeat split; reflexivity.
  - intros fuel Hfuel. eexists _, _.
    split; [apply (calculate_fuel_mono _ 15 fuel); [vm_compute; reflexivity|exact Hfuel]|].
    split; [vm_compute; reflexivity|].
    repeat split; reflexivity.
  - intros num N decayFactor current neighbors rest it.
    rewrite fold_explore_app. intros [Hin|Hin]%elem_of_app; [by left|right].
    apply children_spec in Hin as (e & He & Hn & Hw & _ & Hd). eauto.
Qed.

(** C6 on a node of the two-edge scenario: [C] has no outgoing edge. *)
Lemma no_outgoing_edges_witness :
  exists results,
    calculatePropagatedInfluence (num:=Q) 15 scenario_edges ["A"; "B"; "C"] 3 (dec 6 1)
      = Some results /\
    results !! "C" =
      Some {| nodeId := "C";
              directInfluence := n_ofZ 0;
              propagatedInfluence := n_ofZ 0;
              totalInfluence := n_add (n_ofZ 0) (n_ofZ 0);
              paths := [] |}.
Proof.
  apply (no_outgoing_edges_empty_result (num:=Q) 15 scenario_edges
           ["A"; "B"; "C"] 3 (dec 6 1) "C").
  - repeat constructor; discriminate.
  - repeat constructor.
  - vm_compute. lia.
Defined.

(** C6 as stated fails: a node without outgoing edges does not get a
    one-element path list.  With no edge at all, the result of [X] has no
    path, where the specification expects the one path [X] at depth 0. *)
Lemma no_outgoing_edges_paths_not_singleton :
  ~ exists (r : PropagationResult Q) (p : InfluencePath Q),
      calculatePropagatedInfluence (num:=Q) 15 [] ["X"] 3 (dec 6 1) ≫= (.!! "X")
        = Some r /\
      paths r = [p].
Proof.
  intros (r & p & Hr & Hp). vm_compute in Hr. injection Hr as <-. discriminate Hp.
Qed.

(** On a cycle with [decayFactor = 1] the carried weight never falls under
    the threshold; the depth limit alone ends the traversal, which walks the
    cycle up to depth 3. *)
Example cycle_stops_at_maxDepth :
  (fun r => (path <$> paths r, depth <$> paths r)) <$>
    (calculatePropagatedInfluence (num:=Q) (propagation_fuel (num:=Q) cyclic_edges 3)
       cyclic_edges ["A"] 3 (n_ofZ 1) ≫= (.!! "A"))
  = Some ([["A"; "B"]; ["A"; "B"; "A"]; ["A"; "B"; "A"; "B"]], [1; 2; 3]).
Proof. vm_compute. reflexivity. Qed.

(** ** Time decay over the reals *)

Lemma calculateDecayedWeight_R (now : Z) (w : R) (createdAt : Z) (rate : R) :
  calculateDecayedWeight (num:=R) now w createdAt rate =
  (w * R_pow (1 - rate) (days_between createdAt now))%R.
Proof. reflexivity. Qed.

Lemma R_pow_pos_base (b e : R) : (0 < b)%R -> R_pow b e = Rpower b e.
Proof. intros Hb. unfold R_pow. by destruct (Rlt_dec 0 b). Qed.

Lemma Rpower_base_1 (e : R) : Rpower 1 e = 1%R.
Proof. unfold Rpower. by rewrite ln_1, Rmult_0_r, exp_0. Qed.

Lemma ln_neg (b : R) : (0 < b < 1)%R -> (ln b < 0)%R.
Proof. intros [H0 H1]. rewrite <- ln_1. by apply ln_increasing. Qed.

Lemma Rpower_decreasing_exponent (b x y : R) :
  (0 < b < 1)%R -> (x < y)%R -> (Rpower b y < Rpower b x)%R.
Proof.
  intros Hb Hxy. unfold Rpower. apply exp_increasing.
  pose proof (ln_neg b Hb). nra.
Qed.

Lemma Rpower_le_1 (b e : R) : (0 < b <= 1)%R -> (0 <= e)%R -> (Rpower b e <= 1)%R.
Proof.
  intros [H0 [H1| ->]] He; [|rewrite Rpower_base_1; lra].
  destruct He as [He| <-]; [|rewrite Rpower_O; lra].
  rewrite <- (Rpower_O b H0). left. by apply Rpower_decreasing_exponent.
Qed.

Lemma days_between_same (t : Z) : days_between t t = 0%R.
Proof. unfold days_between. lra. Qed.

Lemma days_between_lt (t now1 now2 : Z) :
  now1 < now2 -> (days_between t now1 < days_between t now2)%R.
Proof. intros Hlt. apply IZR_lt in Hlt. unfold days_between. lra. Qed.

Lemma days_between_nonneg (t now : Z) : t <= now -> (0 <= days_between t now)%R.
Proof. intros Hle. apply IZR_le in Hle. unfold days_between. lra. Qed.

(** C3 (as the code has it, in real arithmetic): with the numbers taken as
    reals and [Math.pow] as the real power, for a rate in [0,1) the function
    returns [w * (1-rate)^daysElapsed], the elapsed days being [(now - t)] in
    days, not clamped at 0.  With no time elapsed the weight is returned
    unchanged; for a positive weight and a rate in (0,1) the result strictly
    decreases as time elapses; and once [t] is not in the future, a
    non-negative weight is never exceeded.  The strict decrease is a fact of
    the reals: see [tiny_rate_is_absorbed_on_binary64] below. *)
Theorem decayed_weight_formula (w : R) (t : Z) (rate : R) :
  (0 <= rate < 1)%R ->
  (forall now,
     calculateDecayedWeight now w t rate =
     (w * Rpower (1 - rate) (days_between t now))%R) /\
  calculateDecayedWeight t w t rate = w /\
  (forall now1 now2, (0 < rate)%R -> (0 < w)%R -> now1 < now2 ->
     (calculateDecayedWeight now2 w t rate < calculateDecayedWeight now1 w t rate)%R) /\
  (forall now, t <= now -> (0 <= w)%R ->
     (calculateDecayedWeight now w t rate <= w)%R).
Proof.
  intros Hrate.
  assert (forall now, calculateDecayedWeight now w t rate =
                      (w * Rpower (1 - rate) (days_between t now))%R) as Heq.
  { intros now. rewrite calculateDecayedWeight_R, R_pow_pos_base; [done|lra]. }
  split; [done|]. split; [|split].
  - rewrite Heq, days_between_same, Rpower_O; lra.
  - intros now1 now2 Hr Hw Hlt. rewrite !Heq.
    apply Rmult_lt_compat_l; [done|].
    apply Rpower_decreasing_exponent; [lra|by apply days_between_lt].
  - intros now Hle Hw. rewrite Heq.
    pose proof (Rpower_le_1 (1 - rate) (days_between t now)
                  ltac:(lra) (days_between_nonneg t now Hle)).
    nra.
Qed.

Lemma decayed_weight_witness :
  (forall now,
     calculateDecayedWeight (num:=R) now 80%R 0 (5 / 100)%R =
     (80 * Rpower (1 - 5 / 100) (days_between 0 now))%R) /\
  calculateDecayedWeight (num:=R) 0 80%R 0 (5 / 100)%R = 80%R /\
  (forall now1 now2, (0 < 5 / 100)%R -> (0 < 80)%R -> now1 < now2 ->
     (calculateDecayedWeight (num:=R) now2 80 0 (5 / 100)
      < calculateDecayedWeight (num:=R) now1 80 0 (5 / 100))%R) /\
  (forall now, 0 <= now -> (0 <= 80)%R ->
     (calculateDecayedWeight (num:=R) now 80 0 (5 / 100) <= 80)%R).
Proof. apply (decayed_weight_formula 80 0 (5 / 100)). lra. Defined.

Lemma Rpower_half_minus_1 : Rpower (1 - 1 / 2) (-1) = 2%R.
Proof.
  replace (1 - 1 / 2)%R with (/ 2)%R by lra.
  replace (-1)%R with (Ropp 1) by lra.
  rewrite Rpower_Ropp, Rpower_1 by lra. lra.
Qed.

(** C3 as stated fails on an edge created in the future: one day ahead of
    [now], at rate 1/2, the weight 1 comes back as 2; it exceeds the weight
    and differs from the clamped formula, which gives 1. *)
Lemma decayed_weight_future_exceeds :
  calculateDecayedWeight (num:=R) 0 1%R 86400000 (1 / 2)%R = 2%R /\
  decayed_clamped 1%R 86400000 (1 / 2)%R 0 = 1%R /\
  ~ (calculateDecayedWeight (num:=R) 0 1%R 86400000 (1 / 2)%R <= 1)%R.
Proof.
  assert (days_between 86400000 0 = (-1)%R) as Hd by (unfold days_between; lra).
  assert (calculateDecayedWeight (num:=R) 0 1%R 86400000 (1 / 2)%R = 2%R) as Hv.
  { rewrite calculateDecayedWeight_R, R_pow_pos_base, Hd, Rpower_half_minus_1; lra. }
  split; [done|]. split.
  - unfold decayed_clamped. rewrite Hd, Rmax_left, Rpower_O; lra.
  - rewrite Hv. lra.
Qed.

(** On binary64 the decrease is not strict for every rate in (0,1): the
    rate 1e-17 lies strictly between 0 and 1 and vanishes in [1 - rate],
    the base of the power, which is then exactly 1. *)
Example tiny_rate_is_absorbed_on_binary64 :
  n_ltb (n_ofZ 0) (dec (num:=PrimFloat.float) 1 17) = true /\
  n_ltb (dec (num:=PrimFloat.float) 1 17) (n_ofZ 1) = true /\
  n_sub (n_ofZ 1) (dec (num:=PrimFloat.float) 1 17) = n_ofZ 1.
Proof. repeat split; vm_compute; reflexivity. Qed.

Lemma up_1 : up 1 = 2.
Proof. symmetry. apply tech_up; simpl; lra. Qed.

(** C9 (as the code has it): the function validates nothing.  Whatever the
    rate, a call completes by returning a number; for every rate below 1,
    the negative ones included, that number is [w * (1-rate)^daysElapsed]. *)
Theorem decay_rate_is_not_validated (now : Z) (w : R) (t : Z) (rate : R) :
  exists v,
    calculateDecayedWeight_call now w t rate = Returns v /\
    ((rate < 1)%R -> v = (w * Rpower (1 - rate) (days_between t now))%R).
Proof.
  eexists. split; [reflexivity|]. intros Hr.
  rewrite calculateDecayedWeight_R, R_pow_pos_base; [done|lra].
Qed.

(** C9 as stated fails: rates outside [0,1) are not rejected.  One day
    after creation, the rate -1 returns the weight doubled and the rate 1
    returns 0; neither call throws. *)
Lemma decay_rate_outside_range_accepted :
  calculateDecayedWeight_call (num:=R) 86400000 100%R 0 (-1)%R = Returns 200%R /\
  calculateDecayedWeight_call (num:=R) 86400000 100%R 0 1%R = Returns 0%R.
Proof.
  assert (days_between 0 86400000 = 1%R) as Hd by (unfold days_between; lra).
  unfold calculateDecayedWeight_call. split; f_equal;
    rewrite calculateDecayedWeight_R, Hd.
  - rewrite R_pow_pos_base, Rpower_1 by lra. lra.
  - unfold R_pow, R_is_int. destruct (Rlt_dec 0 (1 - 1)) as [Hlt|_]; [lra|].
    rewrite up_1. change (2 - 1) with 1.
    destruct (Req_dec_T 1 (IZR 1)) as [_|Hne]; [|lra].
    simpl. lra.
Qed.

(** ** Sorting with a comparator that subtracts keys *)

Section SortByKey.
Context {A : Type} (key : A -> Q) (compareFn : A -> A -> Q).
Hypothesis compare_key : forall a b, compareFn a b = (key b - key a)%Q.

Lemma moves_behind_iff (a b : A) :
  n_ltb (n_ofZ 0) (compareFn a b) = true <-> (key a < key b)%Q.
Proof.
  simpl. rewrite compare_key, negb_true_iff. split.
  - intros Hb. apply Qnot_le_lt. intros Hle.
    assert (Qle_bool (key b - key a) (inject_Z 0) = true) as Ht; [|congruence].
    apply Qle_bool_iff. unfold inject_Z. Lqa.lra.
  - intros Hlt. destruct (Qle_bool (key b - key a) (inject_Z 0)) eqn:Hb; [|done].
    apply Qle_bool_iff in Hb. unfold inject_Z in Hb. Lqa.lra.
Qed.

Lemma sort_insert_cons (a b : A) (l : list A) :
  sort_insert compareFn a (b :: l) =
  if n_ltb (n_ofZ 0) (compareFn a b)
  then b :: sort_insert compareFn a l else a :: b :: l.
Proof. reflexivity. Qed.

Lemma Array_sort_cons (a : A) (l : list A) :
  Array_sort compareFn (a :: l) = sort_insert compareFn a (Array_sort compareFn l).
Proof. reflexivity. Qed.

Lemma sort_insert_perm (a : A) (l : list A) : sort_insert compareFn a l ≡ₚ a :: l.
Proof.
  induction l as [|b l IH]; [done|]. rewrite sort_insert_cons.
  destruct (n_ltb (n_ofZ 0) (compareFn a b)); [|done].
  rewrite IH. apply Permutation_swap.
Qed.

Lemma Array_sort_perm (l : list A) : Array_sort compareFn l ≡ₚ l.
Proof.
  induction l as [|a l IH]; [done|].
  rewrite Array_sort_cons, sort_insert_perm. by constructor.
Qed.

Lemma sort_insert_sorted (a : A) (l : list A) :
  StronglySorted (fun x y => (key y <= key x)%Q) l ->
  StronglySorted (fun x y => (key y <= key x)%Q) (sort_insert compareFn a l).
Proof.
  induction 1 as [|b l Hl IH Hb].
  - repeat constructor.
  - rewrite sort_insert_cons.
    destruct (n_ltb (n_ofZ 0) (compareFn a b)) eqn:Hc.
    + apply moves_behind_iff in Hc. constructor; [done|].
      rewrite sort_insert_perm. constructor; [Lqa.lra|done].
    + assert (key b <= key a)%Q as Hba.
      { apply Qnot_lt_le. intros Hlt. apply moves_behind_iff in Hlt. congruence. }
      constructor; [by constructor|]. constructor; [done|].
      eapply Forall_impl; [exact Hb|]. simpl. intros c Hcb. Lqa.lra.
Qed.

Lemma Array_sort_sorted (l : list A) :
  StronglySorted (fun x y => (key y <= key x)%Q) (Array_sort compareFn l).
Proof.
  induction l as [|a l IH]; [constructor|].
  rewrite Array_sort_cons. by apply sort_insert_sorted.
Qed.

(** Stability: the elements of one key keep their relative order. *)
Lemma sort_insert_stable (k : Q) (a : A) (l : list A) :
  List.filter (fun x => Qeq_bool (key x) k) (sort_insert compareFn a l) =
  List.filter (fun x => Qeq_bool (key x) k) (a :: l).
Proof.
  induction l as [|b l IH]; [done|]. rewrite sort_insert_cons.
  destruct (n_ltb (n_ofZ 0) (compareFn a b)) eqn:Hc; [|done].
  apply moves_behind_iff in Hc.
  cbn [List.filter] in *. rewrite IH.
  destruct (Qeq_bool (key a) k) eqn:Ha; [|done].
  destruct (Qeq_bool (key b) k) eqn:Hb; [|done].
  apply Qeq_bool_iff in Ha, Hb. Lqa.lra.
Qed.

Lemma Array_sort_stable (k : Q) (l : list A) :
  List.filter (fun x => Qeq_bool (key x) k) (Array_sort compareFn l) =
  List.filter (fun x => Qeq_bool (key x) k) l.
Proof.
  induction l as [|a l IH]; [done|].
  rewrite Array_sort_cons, sort_insert_stable. cbn [List.filter]. by rewrite IH.
Qed.

End SortByKey.

Lemma compareNodes_key (metric : Metric) (a b : InfluenceNode Q) :
  compareNodes metric a b = (metric_key metric b - metric_key metric a)%Q.
Proof. by destruct metric. Qed.

Lemma StronglySorted_take {A : Type} (R : A -> A -> Prop) (n : nat) (l : list A) :
  StronglySorted R l -> StronglySorted R (take n l).
Proof.
  intros Hs. revert n. induction Hs as [|a l Hl IH Ha]; intros [|n]; simpl;
    try constructor; [apply IH|].
  apply Forall_forall. intros x Hx. rewrite Forall_forall in Ha. apply Ha.
  by apply (subseteq_take n l).
Qed.

Lemma StronglySorted_take_drop {A : Type} (R : A -> A -> Prop) (n : nat) (l : list A) :
  StronglySorted R l ->
  forall a b, a ∈ take n l -> b ∈ drop n l -> R a b.
Proof.
  intros Hs. rewrite <- (take_drop n l) in Hs.
  revert Hs. generalize (take n l) (drop n l). intros l1 l2.
  induction l1 as [|x l1 IH]; simpl; intros Hs a b Ha Hb.
  - by apply elem_of_nil in Ha.
  - apply StronglySorted_inv in Hs as [Hs Hx].
    apply elem_of_cons in Ha as [->|Ha].
    + rewrite Forall_forall in Hx. apply Hx. apply elem_of_app. by right.
    + by apply IH.
Qed.

(** C7: for every node list and every limit >= 0, [findTopInfluencers]
    returns [min(limit, len(nodes))] nodes, sorted non-increasing by the
    metric's key ([total]: rawScore, [direct]: score, [propagated]:
    rawScore - score, [volatility]: volatility).  They are the head of a
    stable rearrangement of the input: together with the nodes left out
    they are a permutation of the input, no node left out has a larger key
    than a returned one, and nodes of equal key stand in input order. *)
Theorem top_influencers_sorted (nodes : list (InfluenceNode Q)) (metric : Metric)
    (limit : Z) :
  0 <= limit ->
  length (findTopInfluencers nodes metric limit)
    = Nat.min (Z.to_nat limit) (length nodes) /\
  StronglySorted (fun a b => (metric_key metric b <= metric_key metric a)%Q)
    (findTopInfluencers nodes metric limit) /\
  exists rest,
    findTopInfluencers nodes metric limit ++ rest ≡ₚ nodes /\
    (forall a b, a ∈ findTopInfluencers nodes metric limit -> b ∈ rest ->
       (metric_key metric b <= metric_key metric a)%Q) /\
    (forall k,
       List.filter (fun n => Qeq_bool (metric_key metric n) k)
         (findTopInfluencers nodes metric limit ++ rest) =
       List.filter (fun n => Qeq_bool (metric_key metric n) k) nodes).
Proof.
  intros Hlimit. unfold findTopInfluencers, Array_slice0.
  destruct (Z.ltb_spec limit 0) as [?|_]; [lia|].
  set (sorted := Array_sort (compareNodes metric) nodes).
  assert (sorted ≡ₚ nodes) as Hperm
    by apply Array_sort_perm.
  assert (StronglySorted
            (fun a b => (metric_key metric b <= metric_key metric a)%Q) sorted)
    as Hsorted by apply Array_sort_sorted, compareNodes_key.
  assert (length sorted = length nodes) as Hlen by by rewrite Hperm.
  set (n := Z.to_nat (Z.min limit (Z.of_nat (length sorted)))).
  split; [|split].
  - rewrite length_take. subst n. lia.
  - by apply StronglySorted_take.
  - exists (drop n sorted). rewrite take_drop. split; [done|]. split.
    + intros a b.
      by apply (StronglySorted_take_drop
                  (fun a b => (metric_key metric b <= metric_key metric a)%Q)).
    + intros k. apply Array_sort_stable, compareNodes_key.
Qed.

Lemma top_influencers_witness :
  length (findTopInfluencers sample_nodes metric_total 2)
    = Nat.min (Z.to_nat 2) (length sample_nodes) /\
  StronglySorted (fun a b => (metric_key metric_total b <= metric_key metric_total a)%Q)
    (findTopInfluencers sample_nodes metric_total 2) /\
  exists rest,
    findTopInfluencers sample_nodes metric_total 2 ++ rest ≡ₚ sample_nodes /\
    (forall a b, a ∈ findTopInfluencers sample_nodes metric_total 2 -> b ∈ rest ->
       (metric_key metric_total b <= metric_key metric_total a)%Q) /\
    (forall k,
       List.filter (fun n => Qeq_bool (metric_key metric_total n) k)
         (findTopInfluencers sample_nodes metric_total 2 ++ rest) =
       List.filter (fun n => Qeq_bool (metric_key metric_total n) k) sample_nodes).
Proof. apply (top_influencers_sorted sample_nodes metric_total 2). lia. Defined.

(** The ranking of the sample: [n2] first, then [n1] before [n3], which tie
    on rawScore and keep their input order. *)
Example top_influencers_sample :
  map node_id (findTopInfluencers sample_nodes metric_total 10) = ["n2"; "n1"; "n3"] /\
  map node_id (findTopInfluencers sample_nodes metric_propagated 2) = ["n1"; "n2"].
Proof. split; reflexivity. Qed.

(** ** Label propagation *)

Section LabelCounts.
Context {num : Type} `{JsNumber num}.
Implicit Types (labelCounts : list (nat * num)).

Lemma counts_get_set labelCounts k v l :
  counts_get (counts_set labelCounts k v) l =
  if decide (l = k) then Some v else counts_get labelCounts l.
Proof.
  induction labelCounts as [|[l0 c0] lc IH]; simpl.
  - repeat case_decide; congruence.
  - destruct (decide (l0 = k)) as [->|Hne]; simpl.
    + repeat case_decide; congruence.
    + rewrite IH. repeat case_decide; congruence.
Qed.

Lemma counts_set_keys labelCounts k v :
  (counts_set labelCounts k v).*1 = add_key (labelCounts.*1) k.
Proof.
  unfold add_key. induction labelCounts as [|[l0 c0] lc IH].
  - cbn [counts_set fmap list_fmap fst].
    destruct (decide (k ∈ [])) as [Hin|_]; [by apply elem_of_nil in Hin|done].
  - cbn [counts_set]. destruct (decide (l0 = k)) as [->|Hne].
    + cbn [fmap list_fmap fst].
      destruct (decide (k ∈ k :: lc.*1)) as [_|Hnin]; [done|].
      exfalso. apply Hnin. left.
    + rewrite !fmap_cons, IH. cbn [fst].
      destruct (decide (k ∈ lc.*1)) as [Hin|Hnin];
        destruct (decide (k ∈ l0 :: lc.*1)) as [Hin'|Hnin']; try done.
      * exfalso. apply Hnin'. by right.
      * apply elem_of_cons in Hin' as [?|?]; congruence.
Qed.

Lemma counts_get_elem labelCounts l c :
  NoDup (labelCounts.*1) -> (l, c) ∈ labelCounts -> counts_get labelCounts l = Some c.
Proof.
  induction labelCounts as [|[l0 c0] lc IH]; simpl.
  - intros _ Hin. by apply elem_of_nil in Hin.
  - intros [Hnin Hnd]%NoDup_cons [Heq|Hin]%elem_of_cons.
    + injection Heq as -> ->. by rewrite decide_True.
    + rewrite decide_False; [by apply IH|].
      intros ->. apply Hnin. apply list_elem_of_fmap. by exists (l, c).
Qed.

End LabelCounts.

Lemma add_key_elem (keys : list nat) (k l : nat) :
  l ∈ add_key keys k <-> l ∈ keys \/ l = k.
Proof.
  unfold add_key. destruct (decide (k ∈ keys)) as [Hin|Hnin].
  - split; [by left|]. intros [?| ->]; done.
  - rewrite elem_of_app, list_elem_of_singleton. done.
Qed.

Lemma add_key_NoDup (keys : list nat) (k : nat) :
  NoDup keys -> NoDup (add_key keys k).
Proof.
  intros Hnd. unfold add_key. destruct (decide (k ∈ keys)) as [Hin|Hnin]; [done|].
  apply NoDup_app. split; [done|]. split; [|apply NoDup_singleton].
  intros x Hx ->%list_elem_of_singleton. done.
Qed.

Lemma add_keys_elem (ls keys : list nat) (l : nat) :
  l ∈ fold_left add_key ls keys <-> l ∈ keys \/ l ∈ ls.
Proof.
  revert keys. induction ls as [|x ls IH]; intros keys; simpl.
  - split; [by left|]. intros [?|Hin]; [done|by apply elem_of_nil in Hin].
  - rewrite IH, add_key_elem, elem_of_cons. tauto.
Qed.

Lemma add_keys_NoDup (ls keys : list nat) :
  NoDup keys -> NoDup (fold_left add_key ls keys).
Proof.
  revert keys. induction ls as [|x ls IH]; intros keys Hnd; simpl; [done|].
  by apply IH, add_key_NoDup.
Qed.

Lemma add_keys_prefix (ls keys : list nat) :
  exists extra, fold_left add_key ls keys = keys ++ extra.
Proof.
  revert keys. induction ls as [|x ls IH]; intros keys; simpl.
  - exists []. by rewrite app_nil_r.
  - destruct (IH (add_key keys x)) as [extra ->]. unfold add_key.
    destruct (decide (x ∈ keys)); [by exists extra|].
    exists ([x] ++ extra). by rewrite app_assoc.
Qed.

Lemma NoDup_split_unique (b : nat) (l1 l2 l1' l2' : list nat) :
  NoDup (l1 ++ b :: l2) -> l1 ++ b :: l2 = l1' ++ b :: l2' -> l1 = l1'.
Proof.
  revert l1'. induction l1 as [|x l1 IH]; intros [|x' l1'] Hnd Heq; simpl in *.
  - done.
  - injection Heq as <- Heq. apply NoDup_cons in Hnd as [Hnin _].
    exfalso. apply Hnin. rewrite Heq. apply elem_of_app. right. left.
  - injection Heq as -> Heq. apply NoDup_cons in Hnd as [Hnin _].
    exfalso. apply Hnin. apply elem_of_app. right. left.
  - injection Heq as -> Heq. apply NoDup_cons in Hnd as [_ Hnd].
    f_equal. by apply IH.
Qed.

(** The keys stand in the order in which the labels are first met. *)
Lemma add_keys_order (ls keys kpre kpost : list nat) (b : nat) :
  NoDup keys -> b ∉ keys ->
  fold_left add_key ls keys = kpre ++ b :: kpost ->
  exists lpre lpost,
    ls = lpre ++ b :: lpost /\ (b ∉ lpre) /\
    (forall x, x ∈ lpre -> x ∈ kpre) /\ (forall x, x ∈ keys -> x ∈ kpre).
Proof.
  revert keys. induction ls as [|x ls IH]; intros keys Hnd Hb Heq; simpl in Heq.
  - exfalso. apply Hb. rewrite Heq. apply elem_of_app. right. left.
  - destruct (decide (x = b)) as [->|Hne].
    + exists [], ls. split; [done|]. split; [apply not_elem_of_nil|].
      split; [intros y Hy; by apply elem_of_nil in Hy|].
      assert (add_key keys b = keys ++ [b]) as Hk
        by (unfold add_key; by rewrite decide_False).
      rewrite Hk in Heq.
      destruct (add_keys_prefix ls (keys ++ [b])) as [extra Hex].
      pose proof (add_keys_NoDup ls (keys ++ [b])) as Hnd'.
      rewrite <- Hk in Hnd' at 1. specialize (Hnd' (add_key_NoDup _ _ Hnd)).
      rewrite Hex in Heq, Hnd'. rewrite <- app_assoc in Heq, Hnd'. simpl in *.
      rewrite (NoDup_split_unique b keys extra kpre kpost Hnd' Heq). done.
    + destruct (IH (add_key keys x)) as (lpre & lpost & -> & Hnin & Hpre & Hkeys).
      * by apply add_key_NoDup.
      * rewrite add_key_elem. intros [?|?]; congruence.
      * done.
      * exists (x :: lpre), lpost. split; [done|]. split.
        { intros [?|?]%elem_of_cons; congruence. }
        split.
        { intros y [->|Hy]%elem_of_cons; [|by apply Hpre].
          apply Hkeys, add_key_elem. by right. }
        { intros y Hy. apply Hkeys, add_key_elem. by left. }
Qed.

(** *** The table of votes of one node *)

Section Votes.
Context (labels : gmap string nat).
Implicit Types (neighbors : list (InfluenceEdge Q)) (labelCounts : list (nat * Q)).

Lemma count_vote_keys neighbors labelCounts :
  (fold_left (count_vote labels) neighbors labelCounts).*1 =
  fold_left add_key (label_of labels ∘ targetUserId <$> neighbors) (labelCounts.*1).
Proof.
  revert labelCounts. induction neighbors as [|e ns IH]; intros lc; [done|].
  cbn [fold_left fmap list_fmap]. rewrite IH. unfold count_vote.
  by rewrite counts_set_keys.
Qed.

Lemma count_vote_get neighbors labelCounts l :
  counts_get (fold_left (count_vote labels) neighbors labelCounts) l =
  fold_left (vote_step labels l) neighbors (counts_get labelCounts l).
Proof.
  revert labelCounts. induction neighbors as [|e ns IH]; intros lc; [done|].
  cbn [fold_left]. rewrite IH. f_equal. unfold count_vote, vote_step.
  rewrite counts_get_set.
  destruct (decide (l = label_of labels (targetUserId e))) as [->|Hne].
  - by rewrite decide_True.
  - rewrite decide_False; congruence.
Qed.

Lemma n_or_zero_Q (c : Q) : (n_or c (n_ofZ 0) == c)%Q.
Proof.
  unfold n_or. cbn [n_truthy n_ofZ Q_number].
  destruct (Qeq_bool c 0) eqn:Hc; simpl; [|reflexivity].
  apply Qeq_bool_iff in Hc. by rewrite Hc.
Qed.

(** The count folded for a label is the vote of the label (on top of the
    count it started from). *)
Lemma vote_step_fold neighbors l (o : option Q) c :
  fold_left (vote_step labels l) neighbors o = Some c ->
  (c == match o with Some c0 => c0 | None => 0 end + vote labels neighbors l)%Q.
Proof.
  revert o. induction neighbors as [|e ns IH]; intros o; cbn [fold_left vote].
  - intros ->. Lqa.lra.
  - intros Hc. apply IH in Hc. rewrite Hc. unfold vote_step.
    destruct (decide (label_of labels (targetUserId e) = l)); [|Lqa.lra].
    cbn [n_add Q_number]. destruct o as [c0|].
    + rewrite n_or_zero_Q. Lqa.lra.
    + cbn [n_ofZ Q_number]. unfold inject_Z. Lqa.lra.
Qed.

(** The table built for a node: its keys are distinct, every label of an
    out-neighbour has an entry, and every entry holds the vote of its
    label. *)
Lemma labelCounts_keys_NoDup neighbors :
  NoDup (fold_left (count_vote labels) neighbors []).*1.
Proof. rewrite count_vote_keys. apply add_keys_NoDup. constructor. Qed.

Lemma labelCounts_entry neighbors l c :
  (l, c) ∈ fold_left (count_vote labels) neighbors [] ->
  (c == vote labels neighbors l)%Q.
Proof.
  intros Hin.
  apply counts_get_elem in Hin; [|apply labelCounts_keys_NoDup].
  rewrite count_vote_get in Hin. apply vote_step_fold in Hin.
  rewrite Hin. simpl. Lqa.lra.
Qed.

Lemma labelCounts_has_label neighbors e :
  e ∈ neighbors ->
  exists c, (label_of labels (targetUserId e), c)
            ∈ fold_left (count_vote labels) neighbors [].
Proof.
  intros He.
  assert (label_of labels (targetUserId e)
          ∈ (fold_left (count_vote labels) neighbors []).*1) as Hk.
  { rewrite count_vote_keys, add_keys_elem. right.
    apply list_elem_of_fmap. by exists e. }
  apply list_elem_of_fmap in Hk as ([l c] & Hl & Hin). simpl in Hl. subst l.
  by exists c.
Qed.

End Votes.

(** *** The choice of the best label *)

Lemma pick_best_lt (m0 : Q) (b0 : nat) (entry : nat * Q) :
  pick_best (m0, b0) entry =
  if n_ltb m0 (snd entry) then (snd entry, fst entry) else (m0, b0).
Proof. reflexivity. Qed.

Lemma n_ltb_Q (a b : Q) : n_ltb a b = true <-> (a < b)%Q.
Proof.
  cbn [n_ltb Q_number]. rewrite negb_true_iff. split.
  - intros Hb. apply Qnot_le_lt. intros Hle. apply Qle_bool_iff in Hle. congruence.
  - intros Hlt. destruct (Qle_bool b a) eqn:Hb; [|done].
    apply Qle_bool_iff in Hb. Lqa.lra.
Qed.

Lemma n_ltb_Q_false (a b : Q) : n_ltb a b = false <-> (b <= a)%Q.
Proof.
  cbn [n_ltb Q_number]. rewrite negb_false_iff. apply Qle_bool_iff.
Qed.

(** [forEach] ends on the first entry of maximal count when that count is
    above the initial [maxCount], and on the initial pair otherwise. *)
Lemma pick_best_fold (entries : list (nat * Q)) (m0 : Q) (b0 : nat) :
  exists m b,
    fold_left pick_best entries (m0, b0) = (m, b) /\
    (forall l c, (l, c) ∈ entries -> (c <= m)%Q) /\
    (m0 <= m)%Q /\
    ((m = m0 /\ b = b0 /\ forall l c, (l, c) ∈ entries -> (c <= m0)%Q) \/
     (exists pre post,
        entries = pre ++ (b, m) :: post /\ (m0 < m)%Q /\
        forall l c, (l, c) ∈ pre -> (c < m)%Q)).
Proof.
  revert m0 b0. induction entries as [|[l1 c1] rest IH]; intros m0 b0.
  - exists m0, b0. split; [done|]. split.
    { intros l c Hin. by apply elem_of_nil in Hin. }
    split; [Lqa.lra|]. left. split; [done|]. split; [done|].
    intros l c Hin. by apply elem_of_nil in Hin.
  - cbn [fold_left]. rewrite pick_best_lt. cbn [fst snd].
    destruct (n_ltb m0 c1) eqn:Hlt.
    + apply n_ltb_Q in Hlt.
      destruct (IH c1 l1) as (m & b & Hfold & Hall & Hle & Hcase).
      exists m, b. split; [done|]. split.
      { intros l c [Heq|Hin]%elem_of_cons; [|by eapply Hall].
        injection Heq as -> ->. done. }
      split; [Lqa.lra|]. right.
      destruct Hcase as [(-> & -> & Hrest)|(pre & post & -> & Hm & Hpre)].
      * exists [], rest. split; [done|]. split; [done|].
        intros l c Hin. by apply elem_of_nil in Hin.
      * exists ((l1, c1) :: pre), post. split; [done|]. split; [Lqa.lra|].
        intros l c [Heq|Hin]%elem_of_cons; [|by eapply Hpre].
        injection Heq as -> ->. done.
    + apply n_ltb_Q_false in Hlt.
      destruct (IH m0 b0) as (m & b & Hfold & Hall & Hle & Hcase).
      exists m, b. split; [done|]. split.
      { intros l c [Heq|Hin]%elem_of_cons; [|by eapply Hall].
        injection Heq as -> ->. Lqa.lra. }
      split; [done|].
      destruct Hcase as [(-> & -> & Hrest)|(pre & post & -> & Hm & Hpre)].
      * left. split; [done|]. split; [done|].
        intros l c [Heq|Hin]%elem_of_cons; [|by eapply Hrest].
        injection Heq as -> ->. done.
      * right. exists ((l1, c1) :: pre), post. split; [done|]. split; [done|].
        intros l c [Heq|Hin]%elem_of_cons; [|by eapply Hpre].
        injection Heq as -> ->. Lqa.lra.
Qed.

(** The label a node takes: its own when no label has a positive vote;
    otherwise a label of maximal vote, and among several of them the one
    met first along the node's out-edges. *)
Lemma bestLabel_of_spec (labels : gmap string nat) (nodeId : string)
    (neighbors : list (InfluenceEdge Q)) :
  ((forall e, e ∈ neighbors ->
      (vote labels neighbors (label_of labels (targetUserId e)) <= 0)%Q) /\
   bestLabel_of labels nodeId neighbors = label_of labels nodeId) \/
  (exists pre e post,
     neighbors = pre ++ e :: post /\
     label_of labels (targetUserId e) = bestLabel_of labels nodeId neighbors /\
     (0 < vote labels neighbors (bestLabel_of labels nodeId neighbors))%Q /\
     (forall e', e' ∈ neighbors ->
        (vote labels neighbors (label_of labels (targetUserId e'))
         <= vote labels neighbors (bestLabel_of labels nodeId neighbors))%Q) /\
     (forall e', e' ∈ pre ->
        label_of labels (targetUserId e') <> bestLabel_of labels nodeId neighbors /\
        (vote labels neighbors (label_of labels (targetUserId e'))
         < vote labels neighbors (bestLabel_of labels nodeId neighbors))%Q)).
Proof.
  unfold bestLabel_of.
  set (LC := fold_left (count_vote labels) neighbors []).
  destruct (pick_best_fold LC (n_ofZ 0) (label_of labels nodeId))
    as (m & b & Hfold & Hall & Hle & Hcase).
  rewrite Hfold. cbn [snd].
  assert (forall e, e ∈ neighbors ->
            exists c, (label_of labels (targetUserId e), c) ∈ LC /\
                      (c == vote labels neighbors (label_of labels (targetUserId e)))%Q)
    as Hentry.
  { intros e He. destruct (labelCounts_has_label labels neighbors e He) as [c Hc].
    exists c. split; [done|]. by apply labelCounts_entry. }
  destruct Hcase as [(-> & -> & Hrest)|(pre & post & HLC & Hm & Hpre)].
  - left. split; [|done]. intros e He.
    destruct (Hentry e He) as (c & Hc & <-).
    apply Hrest in Hc. cbn [n_ofZ Q_number] in Hc. unfold inject_Z in Hc. Lqa.lra.
  - right.
    assert ((b, m) ∈ LC) as Hb by (rewrite HLC; apply elem_of_app; right; left).
    assert (m == vote labels neighbors b)%Q as Hmb by by apply labelCounts_entry.
    pose proof (count_vote_keys labels neighbors []) as Hkeys. fold LC in Hkeys.
    rewrite HLC, fmap_app, fmap_cons in Hkeys. cbn [fst fmap list_fmap] in Hkeys.
    symmetry in Hkeys.
    apply add_keys_order in Hkeys as (lpre & lpost & Hsplit & Hnin & Hlpre & _);
      [|constructor|apply not_elem_of_nil].
    apply fmap_app_inv in Hsplit as (epre & erest & -> & Hrest & ->).
    symmetry in Hrest. apply fmap_cons_inv in Hrest as (e & epost & Hbe & _ & ->).
    cbn [compose] in Hbe. subst b.
    exists epre, e, epost. split; [done|]. split; [done|].
    split; [|split].
    + rewrite <- Hmb. cbn [n_ofZ Q_number] in Hm. unfold inject_Z in Hm. Lqa.lra.
    + intros e' He'. destruct (Hentry e' He') as (c & Hc & <-).
      rewrite <- Hmb. by eapply Hall.
    + intros e' He'.
      assert (label_of labels (targetUserId e') ∈ (label_of labels ∘ targetUserId) <$> epre)
        as Hl by (apply list_elem_of_fmap; by exists e').
      split; [intros Heq; apply Hnin; by rewrite <- Heq|].
      apply Hlpre, list_elem_of_fmap in Hl as ([l c] & Hlc & Hin). cbn [fst] in Hlc.
      subst l. rewrite <- Hmb.
      assert (c == vote labels (epre ++ e :: epost) (label_of labels (targetUserId e')))%Q
        as <-.
      { apply labelCounts_entry. fold LC. rewrite HLC. apply elem_of_app. by left. }
      by eapply Hpre.
Qed.

Section Iterations.
Context {num : Type} `{JsNumber num}.
Implicit Types (adjacencyList : gmap string (list (InfluenceEdge num))).
Implicit Types (labels : gmap string nat).

Lemma relabel_node_flag adjacencyList labels changed nodeId :
  (changed = true -> snd (relabel_node adjacencyList (labels, changed) nodeId) = true) /\
  (snd (relabel_node adjacencyList (labels, changed) nodeId) = changed ->
   fst (relabel_node adjacencyList (labels, changed) nodeId) = labels \/ changed = true).
Proof.
  unfold relabel_node. cbn [fst snd].
  destruct (neighbors_of adjacencyList nodeId); [by split; [|left]|].
  destruct (decide (labels !! nodeId = Some _)); cbn [fst snd].
  - by split; [|left].
  - split; [done|]. intros <-. by right.
Qed.

(** An iteration that reports no change leaves the labels as they were. *)
Lemma fold_relabel_unchanged adjacencyList nodeIds labels changed :
  snd (fold_left (relabel_node adjacencyList) nodeIds (labels, changed)) = false ->
  changed = false /\
  fst (fold_left (relabel_node adjacencyList) nodeIds (labels, changed)) = labels.
Proof.
  revert labels changed. induction nodeIds as [|id ids IH]; intros labels changed;
    cbn [fold_left].
  - cbn [fst snd]. by intros ->.
  - destruct (relabel_node adjacencyList (labels, changed) id) as [labels' changed']
      eqn:Hstep.
    intros Hfalse. destruct (IH _ _ Hfalse) as [-> Hfst]. rewrite Hfst.
    destruct (relabel_node_flag adjacencyList labels changed id) as [Htrue Hsame].
    rewrite Hstep in Htrue, Hsame. cbn [fst snd] in *.
    destruct changed; [by specialize (Htrue eq_refl)|].
    split; [done|]. by destruct Hsame.
Qed.

Lemma iteration_unchanged adjacencyList nodeIds labels :
  changed_in adjacencyList nodeIds labels = false ->
  iteration adjacencyList nodeIds labels = (labels, false).
Proof.
  unfold changed_in, iteration. intros Hc.
  destruct (fold_relabel_unchanged _ _ _ _ Hc) as [_ Hfst].
  destruct (fold_left _ _ _) as [l c]. cbn [fst snd] in *. by subst.
Qed.

Lemma labels_after_S adjacencyList nodeIds k labels :
  labels_after adjacencyList nodeIds (S k) labels =
  fst (iteration adjacencyList nodeIds (labels_after adjacencyList nodeIds k labels)).
Proof.
  revert labels. induction k as [|k IH]; intros labels; [done|].
  change (labels_after adjacencyList nodeIds (S (S k)) labels)
    with (labels_after adjacencyList nodeIds (S k)
            (fst (iteration adjacencyList nodeIds labels))).
  by rewrite IH.
Qed.

(** The loop runs [k <= n] iterations; each one but the last changes a
    label, and when the loop stops before its bound the last one changes
    none. *)
Lemma iterate_spec adjacencyList nodeIds n labels :
  exists k, (k <= n)%nat /\
    iterate n adjacencyList nodeIds labels = labels_after adjacencyList nodeIds k labels /\
    (forall j, (S j < k)%nat ->
       changed_in adjacencyList nodeIds (labels_after adjacencyList nodeIds j labels)
       = true) /\
    ((k < n)%nat ->
       exists j, k = S j /\
         changed_in adjacencyList nodeIds (labels_after adjacencyList nodeIds j labels)
         = false).
Proof.
  revert labels. induction n as [|n IH]; intros labels.
  - exists 0%nat. repeat split; [done|lia|lia].
  - cbn [iterate].
    destruct (iteration adjacencyList nodeIds labels) as [labels' changed] eqn:Hit.
    destruct changed.
    + destruct (IH labels') as (k & Hk & Hres & Hbefore & Hlast).
      exists (S k). split; [lia|]. cbn [labels_after]. rewrite Hit. cbn [fst].
      split; [done|]. split.
      * intros [|j] Hj; cbn [labels_after].
        { unfold changed_in. by rewrite Hit. }
        { rewrite Hit. cbn [fst]. apply Hbefore. lia. }
      * intros Hlt. destruct Hlast as (j & -> & Hj); [lia|].
        exists (S j). split; [done|]. cbn [labels_after]. by rewrite Hit.
    + exists 1%nat. split; [lia|]. cbn [labels_after]. rewrite Hit. cbn [fst].
      split; [done|]. split; [intros j Hj; lia|].
      intros _. exists 0%nat. split; [done|]. cbn [labels_after].
      unfold changed_in. by rewrite Hit.
Qed.

(** The counter gives every listed node a label of its own. *)
Lemma initial_labels_fold (nodeIds : list string) labels (n : nat) :
  (forall a l, labels !! a = Some l -> (l < n)%nat) ->
  (forall a b l, labels !! a = Some l -> labels !! b = Some l -> a = b) ->
  let st := fold_left (fun '(labels, labelCounter) nodeId =>
                         (<[nodeId := labelCounter]> labels, S labelCounter))
              nodeIds (labels, n) in
  (forall a, is_Some (fst st !! a) <-> is_Some (labels !! a) \/ a ∈ nodeIds) /\
  (forall a b l, fst st !! a = Some l -> fst st !! b = Some l -> a = b).
Proof.
  revert labels n. induction nodeIds as [|id ids IH]; intros labels n Hlt Hinj;
    cbn [fold_left].
  - cbn [fst]. split; [|done]. intros a. split; [by left|].
    intros [?|Hin]; [done|by apply elem_of_nil in Hin].
  - destruct (IH (<[id := n]> labels) (S n)) as [Hdom Hinj'].
    + intros a l. destruct (decide (a = id)) as [->|Hne].
      * rewrite lookup_insert_eq. intros [= <-]. lia.
      * rewrite lookup_insert_ne by done. intros Hl. apply Hlt in Hl. lia.
    + intros a b l.
      destruct (decide (a = id)) as [->|Ha]; destruct (decide (b = id)) as [->|Hb];
        rewrite ?lookup_insert_eq, ?lookup_insert_ne by done; try done.
      * intros [= <-] Hl. apply Hlt in Hl. lia.
      * intros Hl [= <-]. apply Hlt in Hl. lia.
      * apply Hinj.
    + split; [|exact Hinj']. intros a. rewrite Hdom, elem_of_cons.
      destruct (decide (a = id)) as [->|Hne].
      * rewrite lookup_insert_eq. split; [by right; left|by left].
      * rewrite lookup_insert_ne by done.
        split; [intros [?|?]; [by left|by right; right]|].
        intros [?|[?|?]]; [by left|done|by right].
Qed.

End Iterations.



(** ** The result cache *)

Section CacheFacts.
Context {T : Type}.
Implicit Types (c : InfluenceCache.t T) (m : gmap string (InfluenceCache.CacheEntry T)).

Lemma fold_delete_if_match regex (keys : list string) (n : nat) m :
  fst (fold_left (InfluenceCache.delete_if_match regex) keys (n, m))
    = (n + length (List.filter (test regex) keys))%nat /\
  forall k,
    snd (fold_left (InfluenceCache.delete_if_match regex) keys (n, m)) !! k =
    if decide (k ∈ keys) then (if test regex k then None else m !! k) else m !! k.
Proof.
  revert n m. induction keys as [|key keys IH]; intros n m; cbn [fold_left].
  - cbn [fst snd List.filter length]. split; [lia|]. intros k.
    destruct (decide (k ∈ [])) as [Hin|_]; [by apply elem_of_nil in Hin|done].
  - unfold InfluenceCache.delete_if_match at 2 4. cbn [fst snd List.filter].
    destruct (test regex key) eqn:Htest.
    + destruct (IH (S n) (delete key m)) as [Hn Hm]. split.
      * rewrite Hn. cbn [length]. lia.
      * intros k. rewrite Hm.
        destruct (decide (k ∈ keys)) as [Hin|Hnin].
        { rewrite decide_True by (by right).
          destruct (test regex k) eqn:Hk; [done|].
          rewrite lookup_delete_ne; [done|]. intros ->. congruence. }
        { destruct (decide (k = key)) as [->|Hne].
          - rewrite decide_True by left. by rewrite Htest, lookup_delete_eq.
          - rewrite decide_False, lookup_delete_ne; [done|done|].
            intros [?|?]%elem_of_cons; done. }
    + destruct (IH n m) as [Hn Hm]. split; [done|].
      intros k. rewrite Hm.
      destruct (decide (k ∈ keys)) as [Hin|Hnin].
      * by rewrite decide_True by (by right).
      * destruct (decide (k = key)) as [->|Hne].
        { rewrite decide_True by left. by rewrite Htest. }
        { rewrite decide_False; [done|]. intros [?|?]%elem_of_cons; done. }
Qed.

(** What [deletePattern] does: it deletes the keys in which its regular
    expression matches somewhere, keeps every other entry, and returns the
    number of keys deleted. *)
Lemma deletePattern_spec (pattern : string) regex c :
  RegExp (replace_stars pattern) = Some regex ->
  exists c',
    InfluenceCache.deletePattern pattern c
      = Some (length (List.filter (test regex)
                        (map_to_list (InfluenceCache.cache c)).*1), c') /\
    InfluenceCache.stats c' = InfluenceCache.stats c /\
    forall k, InfluenceCache.cache c' !! k =
      if test regex k then None else InfluenceCache.cache c !! k.
Proof.
  intros Hre. unfold InfluenceCache.deletePattern. rewrite Hre.
  destruct (fold_delete_if_match regex (map_to_list (InfluenceCache.cache c)).*1
              0 (InfluenceCache.cache c)) as [Hn Hm].
  eexists. split; [by rewrite Hn|]. cbn. split; [done|].
  intros k. rewrite Hm.
  destruct (decide (k ∈ (map_to_list (InfluenceCache.cache c)).*1)) as [_|Hnin];
    [done|].
  destruct (test regex k); [|done].
  destruct (InfluenceCache.cache c !! k) as [e|] eqn:Hk; [|done].
  exfalso. apply Hnin. apply list_elem_of_fmap. exists (k, e).
  split; [done|]. by apply elem_of_map_to_list.
Qed.

Lemma get_null_entry now key c entry :
  InfluenceCache.cache c !! key = Some entry ->
  InfluenceCache.value entry = null ->
  now <= InfluenceCache.expiresAt entry ->
  InfluenceCache.get now key c =
    (null, {| InfluenceCache.cache := InfluenceCache.cache c;
              InfluenceCache.stats := InfluenceCache.hit c |}).
Proof.
  intros Hk Hv Hnow. unfold InfluenceCache.get. rewrite Hk.
  destruct (Z.ltb_spec (InfluenceCache.expiresAt entry) now); [lia|].
  by rewrite Hv.
Qed.

(** Whatever [get] finds, a [null] from it sends [getOrSet] to the
    factory. *)
Lemma getOrSet_after_null {W : Type} now now' key
    (factory : W -> JsValue T * W) ttlMs c (w : W) :
  fst (InfluenceCache.get now key c) = null ->
  InfluenceCache.getOrSet now now' key factory ttlMs c w =
    (fst (factory w),
     InfluenceCache.set now' key (fst (factory w)) ttlMs
       (snd (InfluenceCache.get now key c)),
     snd (factory w)).
Proof.
  intros Hnull. unfold InfluenceCache.getOrSet.
  destruct (InfluenceCache.get now key c) as [cached c1]. cbn [fst snd] in *.
  subst cached. by destruct (factory w).
Qed.

(** [get] returns [null] unless it finds an entry with a value other than
    [null]. *)
Lemma get_null_unless_data now key c :
  (forall entry t, InfluenceCache.cache c !! key = Some entry ->
                   InfluenceCache.value entry <> data t) ->
  fst (InfluenceCache.get now key c) = null.
Proof.
  intros Hnodata. unfold InfluenceCache.get.
  destruct (InfluenceCache.cache c !! key) as [entry|] eqn:Hk; [|done].
  destruct (InfluenceCache.expiresAt entry <? now); [done|]. cbn [fst].
  destruct (InfluenceCache.value entry) as [|t] eqn:Hv; [done|].
  by destruct (Hnodata entry t).
Qed.

(** Calls with a factory that yields [null] invoke it every time: the
    entry they leave holds [null] again. *)
Lemma getOrSet_calls_null {W : Type} (times : list (Z * Z)) key
    (factory : W -> JsValue T * W) ttlMs c (w : W) :
  (forall w, fst (factory w) = null) ->
  (forall entry t, InfluenceCache.cache c !! key = Some entry ->
                   InfluenceCache.value entry <> data t) ->
  snd (getOrSet_calls times key factory ttlMs c w)
    = Nat.iter (length times) (fun w => snd (factory w)) w.
Proof.
  intros Hnull. revert c w.
  induction times as [|[now now'] times IH]; intros c w Hnodata;
    cbn [getOrSet_calls length]; [done|].
  rewrite getOrSet_after_null by by apply get_null_unless_data.
  cbn [fst snd]. rewrite Nat.iter_succ_r. apply IH.
  intros entry t. cbn [InfluenceCache.set InfluenceCache.cache].
  rewrite lookup_insert_eq. intros [= <-]. cbn [InfluenceCache.value].
  by rewrite Hnull.
Qed.

End CacheFacts.

(** C10 (as the code has it): a stored [null] is read as [null] and sends
    [getOrSet] to the factory.  For a key whose unexpired entry holds
    [null], [get] returns [null], and [getOrSet] does not return the entry:
    it invokes the factory, stores its result and returns it.  With a
    factory that yields [null] again, every further call invokes the factory
    once more: after [n] calls the factory has acted [n] times on its world.
    The entry is there all the same: the [get] counts a hit, [has] answers
    [true] and [delete] returns [true]. *)
Theorem stored_null_reaches_the_factory {T W : Type} (now now' : Z) (key : string)
    (factory : W -> JsValue T * W) (ttlMs : Z) (c : InfluenceCache.t T) (w : W)
    (entry : InfluenceCache.CacheEntry T) :
  InfluenceCache.cache c !! key = Some entry ->
  InfluenceCache.value entry = null ->
  now <= InfluenceCache.expiresAt entry ->
  InfluenceCache.get now key c =
    (null, {| InfluenceCache.cache := InfluenceCache.cache c;
              InfluenceCache.stats := InfluenceCache.hit c |}) /\
  InfluenceCache.getOrSet now now' key factory ttlMs c w =
    (fst (factory w),
     InfluenceCache.set now' key (fst (factory w)) ttlMs
       {| InfluenceCache.cache := InfluenceCache.cache c;
          InfluenceCache.stats := InfluenceCache.hit c |},
     snd (factory w)) /\
  (forall (times : list (Z * Z)) (nullFactory : W -> JsValue T * W) (w0 : W),
     (forall w, fst (nullFactory w) = null) ->
     snd (getOrSet_calls times key nullFactory ttlMs c w0)
       = Nat.iter (length times) (fun w => snd (nullFactory w)) w0) /\
  fst (InfluenceCache.has now key c) = true /\
  fst (InfluenceCache.delete key c) = true.
Proof.
  intros Hk Hv Hnow.
  pose proof (get_null_entry now key c entry Hk Hv Hnow) as Hget.
  split; [exact Hget|]. split; [|split; [|split]].
  - rewrite getOrSet_after_null by by rewrite Hget. by rewrite Hget.
  - intros times nullFactory w0 Hnull. apply getOrSet_calls_null; [done|].
    intros entry' t Hk'. rewrite Hk in Hk'. injection Hk' as <-.
    rewrite Hv. done.
  - unfold InfluenceCache.has. rewrite Hk.
    by destruct (Z.ltb_spec (InfluenceCache.expiresAt entry) now); [lia|].
  - unfold InfluenceCache.delete. cbn [fst]. apply bool_decide_eq_true_2.
    rewrite Hk. by eexists.
Qed.

Lemma stored_null_witness :
  InfluenceCache.get 5 "k" (InfluenceCache.set 0 "k" (@null nat) 1000 InfluenceCache.empty) =
    (null, {| InfluenceCache.cache :=
                InfluenceCache.cache
                  (InfluenceCache.set 0 "k" (@null nat) 1000 InfluenceCache.empty);
              InfluenceCache.stats :=
                InfluenceCache.hit
                  (InfluenceCache.set 0 "k" (@null nat) 1000 InfluenceCache.empty) |}) /\
  InfluenceCache.getOrSet 5 6 "k" counting_null_factory 1000
      (InfluenceCache.set 0 "k" (@null nat) 1000 InfluenceCache.empty) 0%nat =
    (fst (counting_null_factory 0%nat),
     InfluenceCache.set 6 "k" (fst (counting_null_factory 0%nat)) 1000
       {| InfluenceCache.cache :=
            InfluenceCache.cache
              (InfluenceCache.set 0 "k" (@null nat) 1000 InfluenceCache.empty);
          InfluenceCache.stats :=
            InfluenceCache.hit
              (InfluenceCache.set 0 "k" (@null nat) 1000 InfluenceCache.empty) |},
     snd (counting_null_factory (T:=nat) 0%nat)) /\
  (forall (times : list (Z * Z)) (nullFactory : nat -> JsValue nat * nat) (w0 : nat),
     (forall w, fst (nullFactory w) = null) ->
     snd (getOrSet_calls times "k" nullFactory 1000
            (InfluenceCache.set 0 "k" (@null nat) 1000 InfluenceCache.empty) w0)
       = Nat.iter (length times) (fun w => snd (nullFactory w)) w0) /\
  fst (InfluenceCache.has 5 "k"
         (InfluenceCache.set 0 "k" (@null nat) 1000 InfluenceCache.empty)) = true /\
  fst (InfluenceCache.delete "k"
         (InfluenceCache.set 0 "k" (@null nat) 1000 InfluenceCache.empty)) = true.
Proof.
  apply (stored_null_reaches_the_factory (T:=nat) (W:=nat) 5 6 "k" counting_null_factory 1000
           (InfluenceCache.set 0 "k" null 1000 InfluenceCache.empty) 0%nat
           {| InfluenceCache.value := null; InfluenceCache.expiresAt := 1000;
              InfluenceCache.createdAt := 0 |}).
  - apply lookup_insert_eq.
  - reflexivity.
  - simpl. lia.
Defined.

(** C10 as stated fails in its headline: a stored [null] is not
    indistinguishable from a miss at the public interface.  Of a cache that
    holds [null] under [k] and of a cache without [k], [get] returns [null]
    both times; but [has] answers [true] for the first and [false] for the
    second, the [get] counts a hit in the first and a miss in the second,
    [delete] returns [true] and [false], and [getStats] reports the sizes 1
    and 0. *)
Lemma stored_null_differs_from_a_miss :
  fst (InfluenceCache.get 5 "k"
         (InfluenceCache.set 0 "k" (@null nat) 1000 InfluenceCache.empty)) = null /\
  fst (InfluenceCache.get 5 "k" (@InfluenceCache.empty nat)) = null /\
  fst (InfluenceCache.has 5 "k"
         (InfluenceCache.set 0 "k" (@null nat) 1000 InfluenceCache.empty)) = true /\
  fst (InfluenceCache.has 5 "k" (@InfluenceCache.empty nat)) = false /\
  InfluenceCache.stats
    (snd (InfluenceCache.get 5 "k"
            (InfluenceCache.set 0 "k" (@null nat) 1000 InfluenceCache.empty)))
    = {| InfluenceCache.hits := 1; InfluenceCache.misses := 0 |} /\
  InfluenceCache.stats (snd (InfluenceCache.get 5 "k" (@InfluenceCache.empty nat)))
    = {| InfluenceCache.hits := 0; InfluenceCache.misses := 1 |} /\
  fst (InfluenceCache.delete "k"
         (InfluenceCache.set 0 "k" (@null nat) 1000 InfluenceCache.empty)) = true /\
  fst (InfluenceCache.delete "k" (@InfluenceCache.empty nat)) = false /\
  InfluenceCache.size
    (InfluenceCache.getStats
       (InfluenceCache.set 0 "k" (@null nat) 1000 InfluenceCache.empty)) = 1%nat /\
  InfluenceCache.size (InfluenceCache.getStats (@InfluenceCache.empty nat)) = 0%nat.
Proof.
  split; [by vm_compute|]. split; [by vm_compute|]. split; [by vm_compute|].
  split; [by vm_compute|]. split; [by vm_compute|]. split; [by vm_compute|].
  split; [by vm_compute|]. split; [by vm_compute|]. split; by vm_compute.
Qed.

(** Three calls in a row on a stored [null], each one with the counting
    factory: the factory has run three times. *)
Example getOrSet_three_calls :
  snd (getOrSet_calls [(5, 6); (7, 8); (9, 10)] "k" counting_null_factory 1000
         (InfluenceCache.set 0 "k" (@null nat) 1000 InfluenceCache.empty) 0%nat)
  = 3%nat.
Proof. reflexivity. Qed.

(** C4, the code at a failing input: the cache holds the keys
    [graph:org1], [subgraph:org1] and [scores:org1].  The glob
    [graph:org1*] matches the first key only, and [subgraph:org1] does not
    start with [graph:org1]; yet [deletePattern("graph:org1*")] deletes the
    two keys that contain [graph:org1] and returns 2, because the regular
    expression it tests with is not anchored. *)
Theorem deletePattern_matches_inside_keys :
  glob_match "graph:org1*" "graph:org1" = true /\
  glob_match "graph:org1*" "subgraph:org1" = false /\
  String.prefix "graph:org1" "subgraph:org1" = false /\
  glob_match "graph:org1*" "scores:org1" = false /\
  exists c',
    InfluenceCache.deletePattern "graph:org1*" sample_cache = Some (2%nat, c') /\
    InfluenceCache.cache c' !! "graph:org1" = None /\
    InfluenceCache.cache c' !! "subgraph:org1" = None /\
    InfluenceCache.cache c' !! "scores:org1"
      = InfluenceCache.cache sample_cache !! "scores:org1" /\
    is_Some (InfluenceCache.cache sample_cache !! "subgraph:org1").
Proof.
  repeat (split; [reflexivity|]).
  destruct (RegExp (replace_stars "graph:org1*")) as [regex|] eqn:Hre;
    [|by vm_compute in Hre].
  destruct (deletePattern_spec "graph:org1*" regex sample_cache Hre)
    as (c' & Hdel & _ & Hlook).
  exists c'. vm_compute in Hre. injection Hre as <-.
  split; [rewrite Hdel; f_equal; f_equal; by vm_compute|].
  rewrite !Hlook.
  split; [by vm_compute|]. split; [by vm_compute|]. split; [by vm_compute|].
  vm_compute. eexists. reflexivity.
Qed.

(** ** The recompute cycle *)

Lemma orderBy_insert_perm {A : Type} (key : A -> Z) (desc : bool) (x : A) (l : list A) :
  orderBy_insert key desc x l ≡ₚ x :: l.
Proof.
  induction l as [|y l IH]; [done|]. cbn [orderBy_insert].
  destruct (if desc then key x <? key y else key y <? key x); [|done].
  rewrite IH. apply Permutation_swap.
Qed.

Lemma orderBy_perm {A : Type} (key : A -> Z) (desc : bool) (l : list A) :
  orderBy key desc l ≡ₚ l.
Proof.
  induction l as [|x l IH]; [done|].
  unfold orderBy in *. cbn [foldr]. rewrite orderBy_insert_perm. by constructor.
Qed.

Section RecalculateFacts.
Context {num : Type} `{JsNumber num} `{JsMath num}.
Implicit Types (db : Database num) (ev : EventRow num) (rows : list (EventRow num)).

Lemma same_id_same_event rows ev ev' :
  NoDup (ev_id <$> rows) -> ev ∈ rows -> ev' ∈ rows -> ev_id ev = ev_id ev' -> ev = ev'.
Proof.
  induction rows as [|r rows IH]; cbn [fmap list_fmap].
  - intros _ Hin. by apply elem_of_nil in Hin.
  - intros [Hnin Hnd]%NoDup_cons [->|Hev]%elem_of_cons [->|Hev']%elem_of_cons Hid.
    + done.
    + exfalso. apply Hnin. rewrite Hid. apply list_elem_of_fmap. by exists ev'.
    + exfalso. apply Hnin. rewrite <- Hid. apply list_elem_of_fmap. by exists ev.
    + by apply IH.
Qed.

Lemma pending_events_elem organizationId db ev :
  ev ∈ pending_events organizationId db <->
  ev ∈ influenceEvent db /\ is_pending organizationId ev = true.
Proof.
  unfold pending_events. rewrite orderBy_perm, list_elem_of_In, filter_In.
  by rewrite <- list_elem_of_In.
Qed.

Lemma pending_events_length organizationId db :
  length (pending_events organizationId db)
  = length (List.filter (is_pending organizationId) (influenceEvent db)).
Proof. unfold pending_events. by rewrite orderBy_perm. Qed.

(** The rows step 8 marks are the events step 2 read. *)
Lemma mark_processed_pending now organizationId db :
  NoDup (ev_id <$> influenceEvent db) ->
  mark_processed now (ev_id <$> pending_events organizationId db) (influenceEvent db) =
  (fun ev => if is_pending organizationId ev then with_processedAt now ev else ev)
    <$> influenceEvent db.
Proof.
  intros Hnd. unfold mark_processed. apply list_fmap_ext.
  intros i ev Hev%list_elem_of_lookup_2.
  destruct (is_pending organizationId ev) eqn:Hp.
  - rewrite bool_decide_eq_true_2; [done|].
    apply list_elem_of_fmap. exists ev. split; [done|].
    by apply pending_events_elem.
  - rewrite bool_decide_eq_false_2; [done|].
    intros (ev' & Hid & [Hev' Hp']%pending_events_elem)%list_elem_of_fmap.
    rewrite (same_id_same_event _ ev ev' Hnd Hev Hev' Hid) in Hp. congruence.
Qed.

Lemma with_processedAt_not_pending now organizationId ev :
  is_pending organizationId (with_processedAt now ev) = false.
Proof.
  unfold is_pending. apply bool_decide_eq_false_2. cbn. intros [_ ?]. done.
Qed.

Lemma is_pending_with_processedAt now organizationId ev :
  is_pending organizationId
    (if is_pending organizationId ev then with_processedAt now ev else ev) = false.
Proof.
  destruct (is_pending organizationId ev) eqn:Hp; [|done].
  apply with_processedAt_not_pending.
Qed.

Lemma no_pending_after_marking now organizationId rows :
  List.filter (is_pending organizationId)
    ((fun ev => if is_pending organizationId ev then with_processedAt now ev else ev)
       <$> rows) = [].
Proof.
  induction rows as [|ev rows IH]; [done|].
  cbn [fmap list_fmap List.filter]. fold (@fmap list _).
  by rewrite is_pending_with_processedAt.
Qed.

Lemma pending_events_nil organizationId db :
  List.filter (is_pending organizationId) (influenceEvent db) = [] ->
  pending_events organizationId db = [].
Proof. unfold pending_events. by intros ->. Qed.

(** The updates pushed by the loop over [scoresWithIds] report the new
    scores in the order of that list. *)
Lemma fold_update_one (now : Z) (historicalScores : list (ScoreRow num))
    (scoresWithIds : list (ScoreData num))
    (acc : list (ScoreRow num) * list (ScoreUpdate num) * nat) :
  (fun u => (su_userId u, su_newScore u))
    <$> snd (fst (fold_left (update_one now historicalScores) scoresWithIds acc))
  = ((fun u => (su_userId u, su_newScore u)) <$> snd (fst acc))
    ++ ((fun d => (sd_id d, newScore d)) <$> scoresWithIds).
Proof.
  revert acc. induction scoresWithIds as [|d ds IH]; intros [[rows ups] i].
  - cbn [fold_left fst snd fmap list_fmap]. by rewrite app_nil_r.
  - cbn [fold_left]. rewrite IH. cbn [update_one fst snd].
    rewrite fmap_app, fmap_cons, <- app_assoc. reflexivity.
Qed.

(** With fuel for the traversals, the route succeeds.  It reads the pending
    events of the tenant (when asked to process events) and marks them; the
    scores it reports are those of [score_user] on the propagation results
    and on the impact of the events read, ranked. *)
Lemma POST_success (fuel : nat) (now : Z) db (body : Request) :
  organizationId body <> "" ->
  (tree_size (length (active_edges (organizationId body) db)) (Z.to_nat MAX_DEPTH)
   <= fuel)%nat ->
  exists stats scoreUpdates scoreRows propagationResults,
    POST_steps_1_to_8 fuel now db body =
      Some (Success stats scoreUpdates,
            {| influenceEdge := influenceEdge db;
               influenceEvent :=
                 match (if processEvents body
                        then pending_events (organizationId body) db else []) with
                 | [] => influenceEvent db
                 | _ :: _ =>
                     mark_processed now
                       (ev_id <$> (if processEvents body
                                   then pending_events (organizationId body) db else []))
                       (influenceEvent db)
                 end;
               user := user db;
               influenceScore := scoreRows |}) /\
    eventsProcessed stats =
      length (if processEvents body
              then pending_events (organizationId body) db else []) /\
    (fun u => (su_userId u, su_newScore u)) <$> scoreUpdates =
      (fun d => (sd_id d, newScore d)) <$>
        Array_sort (fun a b => n_sub (newScore b) (newScore a))
          (score_user now (applyDecay body) propagationResults
             (fold_left add_event_impact
                (if processEvents body
                 then pending_events (organizationId body) db else []) ∅)
             <$> active_users (organizationId body) db).
Proof.
  intros Horg Hfuel. unfold POST_steps_1_to_8. rewrite bool_decide_eq_false_2 by done.
  set (edges := active_edges (organizationId body) db) in *.
  set (events := if processEvents body
                 then pending_events (organizationId body) db else []).
  set (users := active_users (organizationId body) db).
  destruct (calculate_results fuel (typedEdge now (applyDecay body) <$> edges)
              (u_id <$> users) MAX_DEPTH DECAY_FACTOR) as (results & -> & _).
  { unfold propagation_fuel. by rewrite length_fmap. }
  match goal with
  | |- context [fold_left (update_one now ?h) ?l ?a] =>
      pose proof (fold_update_one now h l a) as Hups;
      destruct (fold_left (update_one now h) l a) as [[scoreRows scoreUpdates] i]
  end.
  cbn [fst snd fmap list_fmap app] in Hups.
  eexists _, scoreUpdates, scoreRows, results.
  split; [reflexivity|]. split; [done|]. exact Hups.
Qed.

End RecalculateFacts.

Lemma mark_nothing_pending {num : Type} `{JsNumber num} (now : Z) (organizationId : string)
    (rows : list (EventRow num)) :
  List.filter (is_pending organizationId) rows = [] ->
  (fun ev => if is_pending organizationId ev then with_processedAt now ev else ev)
    <$> rows = rows.
Proof.
  induction rows as [|ev rows IH]; [done|]. rewrite fmap_cons. cbn [List.filter].
  destruct (is_pending organizationId ev); [done|].
  intros Hnil. f_equal. by apply IH.
Qed.


(** ** The route as a whole *)

Lemma RegExp_unstarred (c : ascii) (rest : string) :
  is_syntax_character c = false ->
  Ascii.eqb c "*"%char = false ->
  (forall rest', rest <> String "*"%char rest') ->
  RegExp (String c rest) =
    match RegExp rest with
    | Some r => Some ((if Ascii.eqb c "."%char then AnyChar else Char c, false) :: r)
    | None => None
    end.
Proof.
  intros Hsyn Hstar Hrest. cbn [RegExp]. rewrite Hsyn, Hstar. cbn [orb].
  destruct rest as [|c' rest']; [done|].
  destruct (Ascii.eqb_spec c' "*"%char) as [->|Hne]; [by destruct (Hrest rest')|].
  destruct c' as [[] [] [] [] [] [] [] []]; try done.
Qed.

Lemma RegExp_starred (c : ascii) (rest : string) :
  RegExp (String c (String "*"%char rest)) =
    if is_syntax_character c || Ascii.eqb c "*"%char then None
    else match RegExp rest with
         | Some r => Some ((if Ascii.eqb c "."%char then AnyChar else Char c, true) :: r)
         | None => None
         end.
Proof. reflexivity. Qed.

Lemma throws_from_atom (state : RepeatState) (c : ascii) (rest : string) :
  is_syntax_character c = false ->
  Ascii.eqb c "*"%char = false ->
  throws_from state (String c rest) = throws_from AfterAtom rest.
Proof.
  intros Hsyn Hstar. cbn [throws_from]. rewrite Hstar, Hsyn.
  destruct (Ascii.eqb_spec c "+"%char) as [->|_]; [done|].
  destruct (Ascii.eqb_spec c "?"%char) as [->|_]; [done|].
  destruct (Ascii.eqb_spec c ")"%char) as [->|_]; [done|].
  destruct (Ascii.eqb_spec c "("%char) as [->|_]; done.
Qed.

(** The two readings of a source agree: a source with an embedded regular
    expression is not one on which [new RegExp] is said to throw. *)
Lemma RegExp_Some_not_throws_upto (n : nat) (source : string) (state : RepeatState)
    (r : list (RegexAtom * bool)) :
  (String.length source <= n)%nat ->
  RegExp source = Some r -> throws_from state source = false.
Proof.
  revert source state r. induction n as [|n IH]; intros source state r Hlen Hre.
  - destruct source; [done|cbn in Hlen; lia].
  - destruct source as [|c rest]; [done|].
    assert (is_syntax_character c = false /\ Ascii.eqb c "*"%char = false)
      as [Hsyn Hstar].
    { cbn [RegExp] in Hre.
      destruct (is_syntax_character c); [done|].
      by destruct (Ascii.eqb c "*"%char). }
    rewrite throws_from_atom by done. cbn [String.length] in Hlen.
    destruct rest as [|c' rest']; [done|].
    destruct (Ascii.eqb_spec c' "*"%char) as [->|Hne].
    + rewrite RegExp_starred, Hsyn, Hstar in Hre. cbn [orb] in Hre.
      destruct (RegExp rest') as [r'|] eqn:Hr'; [|done].
      cbn [throws_from Ascii.eqb Bool.eqb orb]. cbn [String.length] in Hlen.
      apply (IH rest' AfterQuantifier r'); [lia|done].
    + rewrite RegExp_unstarred in Hre; [|done|done|].
      * destruct (RegExp (String c' rest')) as [r'|] eqn:Hr'; [|done].
        apply (IH (String c' rest') AfterAtom r'); [lia|done].
      * intros rest'' [= -> _]. done.
Qed.

Lemma RegExp_Some_not_throws (source : string) (r : list (RegexAtom * bool)) :
  RegExp source = Some r -> RegExp_throws source = false.
Proof. by apply (RegExp_Some_not_throws_upto (String.length source)). Qed.

Section RouteFacts.
Context {T : Type}.
Implicit Types (c : InfluenceCache.t T).

Lemma deletePattern_submap (pattern : string) c (n : nat) (c' : InfluenceCache.t T) :
  InfluenceCache.deletePattern pattern c = Some (n, c') ->
  InfluenceCache.stats c' = InfluenceCache.stats c /\
  InfluenceCache.cache c' ⊆ InfluenceCache.cache c.
Proof.
  intros Hdel.
  destruct (RegExp (replace_stars pattern)) as [regex|] eqn:Hre.
  - destruct (deletePattern_spec pattern regex c Hre) as (c'' & Hdel' & Hstats & Hlook).
    rewrite Hdel in Hdel'. injection Hdel' as _ <-. split; [done|].
    apply map_subseteq_spec. intros k e. rewrite Hlook.
    by destruct (test regex k).
  - unfold InfluenceCache.deletePattern in Hdel. by rewrite Hre in Hdel.
Qed.

(** A call of [deletePattern] whose [new RegExp] is decided. *)
Lemma deletePattern_call_decided (pattern : string) c :
  pattern_throws pattern || pattern_compiles pattern = true ->
  (pattern_throws pattern = true /\
   deletePattern_call pattern c = Some (Throws "SyntaxError")) \/
  (pattern_throws pattern = false /\
   exists n c', deletePattern_call pattern c = Some (Returns (n, c')) /\
     InfluenceCache.deletePattern pattern c = Some (n, c') /\
     InfluenceCache.stats c' = InfluenceCache.stats c /\
     InfluenceCache.cache c' ⊆ InfluenceCache.cache c).
Proof.
  unfold deletePattern_call, pattern_throws, pattern_compiles.
  destruct (RegExp_throws (replace_stars pattern)); [by left|]. cbn [orb].
  intros Hre. right. split; [done|].
  destruct (RegExp (replace_stars pattern)) as [regex|] eqn:Hregex; [|done].
  destruct (deletePattern_spec pattern regex c Hregex) as (c' & Hdel & _).
  rewrite Hdel. eexists _, c'. split; [done|]. split; [done|].
  by eapply deletePattern_submap.
Qed.

Lemma then_deletePattern_thrown (patterns : list string) (e : string) c :
  fold_left then_deletePattern patterns (Some (Throws e, c)) = Some (Throws e, c).
Proof. induction patterns as [|p ps IH]; [done|]. exact IH. Qed.

(** A run of [deletePattern] statements whose patterns are all decided
    completes, or throws at the first pattern that throws; it adds nothing
    to the cache and leaves the counters. *)
Lemma deletePattern_run (patterns : list string) c :
  forallb (fun pattern => pattern_throws pattern || pattern_compiles pattern) patterns
    = true ->
  exists c',
    fold_left then_deletePattern patterns (Some (Returns tt, c))
    = Some (if existsb pattern_throws patterns
            then Throws "SyntaxError" else Returns tt, c') /\
    InfluenceCache.stats c' = InfluenceCache.stats c /\
    InfluenceCache.cache c' ⊆ InfluenceCache.cache c.
Proof.
  revert c. induction patterns as [|p ps IH]; intros c; cbn [forallb existsb fold_left].
  - intros _. by exists c.
  - intros [Hp Hps]%andb_true_iff. unfold then_deletePattern at 2.
    destruct (deletePattern_call_decided p c Hp)
      as [[Hthrows ->]|(Hthrows & n & c1 & -> & _ & Hstats & Hsub)];
      rewrite Hthrows; cbn [orb].
    + rewrite then_deletePattern_thrown. by exists c.
    + destruct (IH c1 Hps) as (c' & Hrun & Hstats' & Hsub').
      exists c'. split; [exact Hrun|]. split; [congruence|].
      by transitivity (InfluenceCache.cache c1).
Qed.

Lemma invalidate_caches_call_decided (organizationId : string) c :
  invalidation_covered organizationId = true ->
  exists c',
    invalidate_caches_call organizationId c
    = Some (if invalidation_throws organizationId
            then Throws "SyntaxError" else Returns tt, c') /\
    InfluenceCache.stats c' = InfluenceCache.stats c /\
    InfluenceCache.cache c' ⊆ InfluenceCache.cache c.
Proof. apply deletePattern_run. Qed.

(** Step 9 as a run of calls and step 9 as a function of the cache agree
    when no pattern throws. *)
Lemma invalidate_caches_call_completes (organizationId : string) c :
  invalidation_throws organizationId = false ->
  invalidate_caches_call organizationId c =
  (fun c' => (Returns tt, c')) <$> invalidate_caches organizationId c.
Proof.
  unfold invalidation_throws, invalidation_patterns. cbn [existsb].
  intros (Ht1 & (Ht2 & (Ht3 & (Ht4 & _)%orb_false_elim)%orb_false_elim)%orb_false_elim)
    %orb_false_elim.
  unfold invalidate_caches_call, invalidation_patterns, invalidate_caches.
  cbn [fold_left]. unfold then_deletePattern, deletePattern_call.
  unfold pattern_throws in Ht1, Ht2, Ht3, Ht4. rewrite Ht1.
  destruct (InfluenceCache.deletePattern _ c) as [[n1 c1]|]; [|done].
  rewrite Ht2.
  destruct (InfluenceCache.deletePattern _ c1) as [[n2 c2]|]; [|done].
  rewrite Ht3.
  destruct (InfluenceCache.deletePattern _ c2) as [[n3 c3]|]; [|done].
  rewrite Ht4.
  by destruct (InfluenceCache.deletePattern _ c3) as [[n4 c4]|].
Qed.

End RouteFacts.

(** The verdicts on some patterns of step 9: an id [a++], [(] or [)] makes
    the pattern throw; [org1] gives a regular expression that is embedded;
    [a+] gives one that is not. *)
Example pattern_verdicts :
  pattern_throws "graph:a++*" = true /\
  pattern_throws "graph:(*" = true /\
  pattern_throws "graph:)*" = true /\
  (pattern_throws "graph:org1*" = false /\ pattern_compiles "graph:org1*" = true) /\
  (pattern_throws "graph:a+*" = false /\ pattern_compiles "graph:a+*" = false).
Proof. repeat split; reflexivity. Qed.

Section RouteAnswers.
Context {num : Type} `{JsNumber num} `{JsMath num} {T : Type}.
Implicit Types (db : Database num) (c : InfluenceCache.t T).

(** Without an organization id the route answers 400 and touches neither
    the store nor the cache. *)
Lemma POST_bad_request (fuel : nat) (now : Z) db c (body : Request) :
  organizationId body = "" ->
  POST_steps_1_to_8 fuel now db body = Some (BadRequest, db) /\
  POST fuel now db c body = Some (BadRequest, db, c).
Proof.
  intros Horg.
  assert (POST_steps_1_to_8 fuel now db body = Some (BadRequest, db)) as Hsteps.
  { unfold POST_steps_1_to_8. by rewrite bool_decide_eq_true_2. }
  split; [exact Hsteps|]. unfold POST. by rewrite Hsteps.
Qed.

(** When steps 1 to 8 are through and step 9 is decided, the route answers:
    with what the steps were heading for if step 9 completes, with 500 if
    it throws; the store is the one the steps wrote. *)
Lemma POST_after_the_writes (fuel : nat) (now : Z) db c (body : Request)
    (stats : RecalcStats) (scoreUpdates : list (ScoreUpdate num)) (db' : Database num) :
  POST_steps_1_to_8 fuel now db body = Some (Success stats scoreUpdates, db') ->
  invalidation_covered (organizationId body) = true ->
  exists c',
    POST fuel now db c body
    = Some (if invalidation_throws (organizationId body)
            then ServerError else Success stats scoreUpdates, db', c') /\
    InfluenceCache.stats c' = InfluenceCache.stats c /\
    InfluenceCache.cache c' ⊆ InfluenceCache.cache c.
Proof.
  intros Hsteps Hcovered.
  destruct (invalidate_caches_call_decided (organizationId body) c Hcovered)
    as (c' & Hrun & Hstats & Hsub).
  exists c'. split; [|done]. unfold POST. rewrite Hsteps, Hrun.
  by destruct (invalidation_throws (organizationId body)).
Qed.

End RouteAnswers.




(** * Further properties *)

(** ** The adjacency list *)

Section AdjacencyExtra.
Context {num : Type} `{JsNumber num}.

Lemma filter_source_nil (edges : list (InfluenceEdge num)) (id : string) :
  filter (fun e => sourceUserId e = id) edges = [] <->
  forall e, e ∈ edges -> sourceUserId e <> id.
Proof.
  induction edges as [|e edges IH].
  - split; [|done]. intros _ e He. by apply elem_of_nil in He.
  - rewrite filter_cons. destruct (decide (sourceUserId e = id)) as [Heq|Hne].
    + split; [done|]. intros Hall. exfalso. apply (Hall e); [left|done].
    + rewrite IH. split.
      * intros Hall e' [->|He']%elem_of_cons; [done|by apply Hall].
      * intros Hall e' He'. apply Hall. by right.
Qed.

Lemma adjacency_lookup_fold (edges : list (InfluenceEdge num))
    (adjacencyList : gmap string (list (InfluenceEdge num))) (id : string) :
  fold_left adjacency_add edges adjacencyList !! id =
  match filter (fun e => sourceUserId e = id) edges with
  | [] => adjacencyList !! id
  | e :: es => Some (default [] (adjacencyList !! id) ++ e :: es)
  end.
Proof.
  revert adjacencyList. induction edges as [|e edges IH]; intros adj; [done|].
  cbn [fold_left]. rewrite IH, filter_cons. unfold adjacency_add.
  destruct (decide (sourceUserId e = id)) as [->|Hne].
  - rewrite lookup_insert_eq.
    destruct (filter _ edges) as [|e' es]; [done|].
    simpl. by rewrite <- app_assoc.
  - by rewrite lookup_insert_ne.
Qed.

(** X1: [buildAdjacencyList] groups the edges by source.  The list stored
    for a node holds the edges that leave it, in input order; a node has an
    entry exactly when some edge leaves it, so no stored list is empty; and
    every edge sits in the list of its own source. *)
Theorem adjacency_groups_edges_by_source (edges : list (InfluenceEdge num)) :
  (forall id,
     buildAdjacencyList edges !! id =
     match filter (fun e => sourceUserId e = id) edges with
     | [] => None
     | e :: es => Some (e :: es)
     end) /\
  (forall id, is_Some (buildAdjacencyList edges !! id) <->
              exists e, e ∈ edges /\ sourceUserId e = id) /\
  (forall id l, buildAdjacencyList edges !! id = Some l -> l <> []) /\
  (forall e, e ∈ edges <->
             e ∈ neighbors_of (buildAdjacencyList edges) (sourceUserId e)).
Proof.
  assert (forall id,
            buildAdjacencyList edges !! id =
            match filter (fun e => sourceUserId e = id) edges with
            | [] => None
            | e :: es => Some (e :: es)
            end) as Hlook.
  { intros id. unfold buildAdjacencyList. rewrite adjacency_lookup_fold.
    by rewrite lookup_empty. }
  split; [exact Hlook|]. split; [|split].
  - intros id. rewrite Hlook. split.
    + intros [l Hl].
      destruct (filter (fun e => sourceUserId e = id) edges) as [|e es] eqn:Hf;
        [done|].
      assert (e ∈ filter (fun e => sourceUserId e = id) edges) as He
        by (rewrite Hf; left).
      apply list_elem_of_filter in He as [Hs He]. by exists e.
    + intros (e & He & Hs).
      destruct (filter (fun e => sourceUserId e = id) edges) as [|e' es] eqn:Hf;
        [|by eexists].
      exfalso. by apply (proj1 (filter_source_nil edges id) Hf e).
  - intros id l. rewrite Hlook.
    destruct (filter _ edges); [done|]. by intros [= <-].
  - intros e. rewrite neighbors_of_build, list_elem_of_filter. tauto.
Qed.

End AdjacencyExtra.

(** ** The traversal *)

Section TraversalExtra.
Context {num : Type} `{JsNumber num}.
Implicit Types (adjacencyList : gmap string (list (InfluenceEdge num))).
Implicit Types (current : QueueItem num) (st : LoopState num).

Lemma while_loop_invariant (P : LoopState num -> Prop)
    adjacencyList maxDepth decayFactor fuel st st' :
  (forall current rest st, queue st = current :: rest -> P st ->
     P (loop_body adjacencyList maxDepth decayFactor current rest st)) ->
  P st ->
  while_loop fuel adjacencyList maxDepth decayFactor st = Some st' ->
  P st'.
Proof.
  intros Hstep. revert st. induction fuel as [|fuel IH]; intros st HP; simpl;
    destruct (queue st) as [|current rest] eqn:Hq; try done;
    try (intros [= <-]; done).
  apply IH. by apply Hstep.
Qed.

(** The queue and the recorded paths after one turn of the loop. *)
Lemma loop_body_queue adjacencyList maxDepth decayFactor current rest st :
  queue (loop_body adjacencyList maxDepth decayFactor current rest st) =
  rest ++ (if maxDepth <=? q_depth current then []
           else children decayFactor current
                  (neighbors_of adjacencyList (q_nodeId current))).
Proof.
  unfold loop_body. destruct (maxDepth <=? q_depth current); cbn [queue].
  - by rewrite app_nil_r.
  - apply fold_explore_app.
Qed.

Lemma loop_body_paths adjacencyList maxDepth decayFactor current rest st :
  st_paths (loop_body adjacencyList maxDepth decayFactor current rest st) =
  st_paths st ++
    (if 0 <? q_depth current
     then [ {| path := q_path current; path_weight := q_weight current;
               depth := q_depth current |} ]
     else []).
Proof.
  unfold loop_body.
  destruct (maxDepth <=? q_depth current), (0 <? q_depth current); cbn [st_paths];
    by rewrite ?app_nil_r.
Qed.

Lemma loop_body_propagated adjacencyList maxDepth decayFactor current rest st :
  st_propagated (loop_body adjacencyList maxDepth decayFactor current rest st) =
  if 0 <? q_depth current then n_add (st_propagated st) (q_weight current)
  else st_propagated st.
Proof.
  unfold loop_body.
  by destruct (maxDepth <=? q_depth current), (0 <? q_depth current).
Qed.

Lemma children_threshold decayFactor current ns it :
  it ∈ children decayFactor current ns ->
  n_ltb (q_weight it) MIN_WEIGHT_THRESHOLD = false.
Proof.
  induction ns as [|e ns IH].
  - intros Hin. by apply elem_of_nil in Hin.
  - rewrite children_cons. intros [Hin|Hin]%elem_of_app; [|by apply IH].
    unfold explore_edge in Hin.
    destruct (n_ltb (propagatedWeight decayFactor current e) MIN_WEIGHT_THRESHOLD)
      eqn:Hlt; [by apply elem_of_nil in Hin|].
    by apply list_elem_of_singleton in Hin as ->.
Qed.

(** The results of [calculatePropagatedInfluence], read off the final
    states of the loops. *)
Lemma propagation_results (edges : list (InfluenceEdge num)) (nodeIds : list string)
    (maxDepth : Z) (decayFactor : num) :
  exists results,
    (forall fuel, (propagation_fuel edges maxDepth <= fuel)%nat ->
       calculatePropagatedInfluence fuel edges nodeIds maxDepth decayFactor
       = Some results) /\
    (forall id, id ∈ nodeIds <-> is_Some (results !! id)) /\
    (forall id r, results !! id = Some r ->
       exists st,
         while_loop (propagation_fuel edges maxDepth) (buildAdjacencyList edges)
           maxDepth decayFactor (initial_state id) = Some st /\
         r = {| nodeId := id;
                directInfluence :=
                  fold_left (fun sum edge => n_add sum (weight edge))
                    (filter (fun e => sourceUserId e = id) edges) (n_ofZ 0);
                propagatedInfluence := st_propagated st;
                totalInfluence :=
                  n_add (fold_left (fun sum edge => n_add sum (weight edge))
                           (filter (fun e => sourceUserId e = id) edges) (n_ofZ 0))
                        (st_propagated st);
                paths := st_paths st |}).
Proof.
  destruct (calculate_results (propagation_fuel edges maxDepth) edges nodeIds
              maxDepth decayFactor) as (results & Hres & Hlook); [done|].
  assert (forall id r, results !! id = Some r ->
            id ∈ nodeIds /\
            propagateFromNode (propagation_fuel edges maxDepth) id
              (buildAdjacencyList edges) maxDepth decayFactor = Some r) as Hin.
  { intros id r. rewrite Hlook. by destruct (decide (id ∈ nodeIds)). }
  exists results. split; [|split].
  - intros fuel Hfuel. by apply (calculate_fuel_mono _ _ _ _ _ _ _ Hres).
  - intros id. split.
    + intros Hid. rewrite Hlook, decide_True by done.
      destruct (propagateFromNode_terminates (buildAdjacencyList edges)
                  (length edges) (propagation_fuel edges maxDepth) id maxDepth
                  decayFactor (build_bounded_degree edges)) as (st & Hst & _);
        [done|].
      unfold propagateFromNode. rewrite Hst. eauto.
    + intros [r Hr]. by destruct (Hin id r Hr).
  - intros id r Hr. destruct (Hin id r Hr) as [_ Hp].
    unfold propagateFromNode in Hp.
    destruct (while_loop _ _ _ _ _) as [st|] eqn:Hst; [|done].
    exists st. split; [done|]. injection Hp as <-.
    by rewrite neighbors_of_build.
Qed.

(** *** Paths are walks *)

Lemma is_walk_snoc (edges : list (InfluenceEdge num)) (p : list string) (a t : string) :
  is_walk edges p -> last p = Some a ->
  (exists e, e ∈ edges /\ sourceUserId e = a /\ targetUserId e = t) ->
  is_walk edges (p ++ [t]).
Proof.
  intros Hw Hlast He i x y Hx Hy.
  destruct (decide (S i < length p)%nat) as [Hlt|Hge].
  - rewrite lookup_app_l in Hx by lia. rewrite lookup_app_l in Hy by lia.
    by apply (Hw i).
  - assert (S i = length p) as Hi.
    { apply lookup_lt_Some in Hy. rewrite length_app in Hy. simpl in Hy. lia. }
    rewrite lookup_app_l in Hx by lia.
    rewrite lookup_app_r in Hy by lia. rewrite Hi, Nat.sub_diag in Hy.
    injection Hy as <-.
    rewrite last_lookup in Hlast. rewrite <- Hi in Hlast. simpl in Hlast.
    rewrite Hx in Hlast. by injection Hlast as ->.
Qed.

Lemma walk_step (edges : list (InfluenceEdge num)) source maxDepth decayFactor
    current rest st :
  queue st = current :: rest ->
  Forall (item_is_walk edges source) (queue st) /\
  Forall (path_is_walk edges source) (st_paths st) ->
  Forall (item_is_walk edges source)
    (queue (loop_body (buildAdjacencyList edges) maxDepth decayFactor current rest st)) /\
  Forall (path_is_walk edges source)
    (st_paths (loop_body (buildAdjacencyList edges) maxDepth decayFactor current rest st)).
Proof.
  intros Hq [Hqueue Hpaths]. rewrite Hq in Hqueue.
  apply Forall_cons in Hqueue as [(Hhead & Hlast & Hlen & Hwalk) Hrest].
  rewrite loop_body_queue, loop_body_paths. split.
  - apply Forall_app. split; [done|].
    destruct (maxDepth <=? q_depth current); [constructor|].
    apply Forall_forall. intros it Hit.
    apply children_spec in Hit as (e & He & Hn & _ & Hp & Hd).
    rewrite neighbors_of_build in He. apply list_elem_of_filter in He as [Hs He].
    unfold item_is_walk. rewrite Hp, Hn, Hd. split; [|split; [|split]].
    + destruct (q_path current); [done|exact Hhead].
    + by rewrite last_snoc.
    + rewrite length_app. simpl. lia.
    + apply (is_walk_snoc edges _ (q_nodeId current)); [done|done|by exists e].
  - apply Forall_app. split; [done|].
    destruct (0 <? q_depth current); [|constructor].
    apply Forall_singleton. by split.
Qed.

(** X2: every recorded path is a walk from the source.  A path starts at
    the node it is recorded for, has one node more than its depth, and each
    of its nodes is joined to the next by an edge of the input. *)
Theorem recorded_paths_are_walks (edges : list (InfluenceEdge num))
    (nodeIds : list string) (maxDepth : Z) (decayFactor : num) :
  exists results,
    (forall fuel, (propagation_fuel edges maxDepth <= fuel)%nat ->
       calculatePropagatedInfluence fuel edges nodeIds maxDepth decayFactor
       = Some results) /\
    forall id r p, results !! id = Some r -> p ∈ paths r ->
      head (path p) = Some id /\
      Z.of_nat (length (path p)) = depth p + 1 /\
      is_walk edges (path p).
Proof.
  destruct (propagation_results edges nodeIds maxDepth decayFactor)
    as (results & Hres & _ & Hloop).
  exists results. split; [exact Hres|]. intros id r p Hr Hp.
  destruct (Hloop id r Hr) as (st & Hst & ->). cbn [paths] in Hp.
  apply (while_loop_invariant
           (fun st => Forall (item_is_walk edges id) (queue st) /\
                      Forall (path_is_walk edges id) (st_paths st))) in Hst.
  - destruct Hst as [_ Hpaths]. rewrite Forall_forall in Hpaths. by apply Hpaths.
  - intros current rest st0. apply walk_step.
  - split; [|constructor]. apply Forall_singleton.
    split; [done|]. split; [done|]. split; [done|].
    intros i a b Ha Hb. destruct i; done.
Qed.

End TraversalExtra.

Section TraversalAccounting.
Context {num : Type} `{JsNumber num}.
Implicit Types (adjacencyList : gmap string (list (InfluenceEdge num))).
Implicit Types (current : QueueItem num) (st : LoopState num).

(** X3: the accounts of a result.  [directInfluence] is the sum of the raw
    weights of the edges that leave the node, in input order, whatever the
    depth limit and the decay factor; [propagatedInfluence] is the sum of the
    weights of the recorded paths, in the order recorded; [totalInfluence]
    is the sum of the two. *)
Theorem result_accounts (edges : list (InfluenceEdge num))
    (nodeIds : list string) (maxDepth : Z) (decayFactor : num) :
  exists results,
    (forall fuel, (propagation_fuel edges maxDepth <= fuel)%nat ->
       calculatePropagatedInfluence fuel edges nodeIds maxDepth decayFactor
       = Some results) /\
    forall id r, results !! id = Some r ->
      nodeId r = id /\
      directInfluence r =
        fold_left (fun sum edge => n_add sum (weight edge))
          (filter (fun e => sourceUserId e = id) edges) (n_ofZ 0) /\
      propagatedInfluence r =
        fold_left n_add (path_weight <$> paths r) (n_ofZ 0) /\
      totalInfluence r = n_add (directInfluence r) (propagatedInfluence r).
Proof.
  destruct (propagation_results edges nodeIds maxDepth decayFactor)
    as (results & Hres & _ & Hloop).
  exists results. split; [exact Hres|]. intros id r Hr.
  destruct (Hloop id r Hr) as (st & Hst & ->).
  cbn [nodeId directInfluence propagatedInfluence totalInfluence paths].
  split; [done|]. split; [done|]. split; [|done].
  apply (while_loop_invariant
           (fun st => st_propagated st =
                      fold_left n_add (path_weight <$> st_paths st) (n_ofZ 0)))
    in Hst; [done| |done].
  intros current rest st0 _ Hinv.
  rewrite loop_body_propagated, loop_body_paths.
  destruct (0 <? q_depth current); [|by rewrite app_nil_r].
  rewrite fmap_app, fold_left_app, <- Hinv. reflexivity.
Qed.

(** X4: pruning.  No recorded path carries a weight under
    [MIN_WEIGHT_THRESHOLD]: a step whose weight falls under it is never
    queued, so nothing is recorded for it or beyond it. *)
Theorem recorded_weights_reach_threshold (edges : list (InfluenceEdge num))
    (nodeIds : list string) (maxDepth : Z) (decayFactor : num) :
  exists results,
    (forall fuel, (propagation_fuel edges maxDepth <= fuel)%nat ->
       calculatePropagatedInfluence fuel edges nodeIds maxDepth decayFactor
       = Some results) /\
    forall id r p, results !! id = Some r -> p ∈ paths r ->
      n_ltb (path_weight p) MIN_WEIGHT_THRESHOLD = false.
Proof.
  destruct (propagation_results edges nodeIds maxDepth decayFactor)
    as (results & Hres & _ & Hloop).
  exists results. split; [exact Hres|]. intros id r p Hr Hp.
  destruct (Hloop id r Hr) as (st & Hst & ->). cbn [paths] in Hp.
  apply (while_loop_invariant threshold_inv) in Hst.
  - destruct Hst as [_ Hpaths]. rewrite Forall_forall in Hpaths. by apply Hpaths.
  - intros current rest st0 Hq [Hqueue Hpaths]. rewrite Hq in Hqueue.
    apply Forall_cons in Hqueue as [Hcur Hrest].
    unfold threshold_inv. rewrite loop_body_queue, loop_body_paths. split.
    + apply Forall_app. split; [done|].
      destruct (maxDepth <=? q_depth current); [constructor|].
      apply Forall_forall. intros it Hit. right. by eapply children_threshold.
    + apply Forall_app. split; [done|].
      destruct (Z.ltb_spec 0 (q_depth current)); [|constructor].
      apply Forall_singleton. cbn [path_weight]. destruct Hcur; [lia|done].
  - split; [|constructor]. apply Forall_singleton. by left.
Qed.

Lemma StronglySorted_app_iff {A : Type} (R : A -> A -> Prop) (l1 l2 : list A) :
  StronglySorted R (l1 ++ l2) <->
  StronglySorted R l1 /\ StronglySorted R l2 /\
  forall a b, a ∈ l1 -> b ∈ l2 -> R a b.
Proof.
  induction l1 as [|x l1 IH]; simpl.
  - split.
    + intros Hs. split; [constructor|]. split; [done|].
      intros a b Ha. by apply elem_of_nil in Ha.
    + by intros (_ & Hs & _).
  - split.
    + intros [Hs Hx]%StronglySorted_inv. apply IH in Hs as (Hs1 & Hs2 & Hcross).
      rewrite Forall_app in Hx. destruct Hx as [Hx1 Hx2].
      split; [by constructor|]. split; [done|].
      intros a b [->|Ha]%elem_of_cons Hb.
      * rewrite Forall_forall in Hx2. by apply Hx2.
      * by apply Hcross.
    + intros (Hs1 & Hs2 & Hcross).
      apply StronglySorted_inv in Hs1 as [Hs1 Hx1].
      constructor.
      * apply IH. split; [done|]. split; [done|].
        intros a b Ha Hb. apply Hcross; [by right|done].
      * apply Forall_app. split; [done|]. apply Forall_forall.
        intros b Hb. apply Hcross; [left|done].
Qed.

Lemma StronglySorted_constant (c : Z) (l : list Z) :
  Forall (fun d => d = c) l -> StronglySorted Z.le l.
Proof.
  induction 1 as [|d ds Hd Hall IH]; constructor; [done|].
  eapply Forall_impl; [exact Hall|]. simpl. intros d' ->. lia.
Qed.

Lemma bfs_step adjacencyList maxDepth decayFactor current rest st :
  queue st = current :: rest ->
  bfs_inv st ->
  bfs_inv (loop_body adjacencyList maxDepth decayFactor current rest st).
Proof.
  intros Hq (Hpaths & Hqueue & Hcross & Hspan). rewrite Hq in Hqueue, Hcross, Hspan.
  rewrite fmap_cons in Hqueue. apply StronglySorted_inv in Hqueue as [Hrest Hhd].
  assert (forall it, it ∈ rest -> q_depth current <= q_depth it) as Hge.
  { intros it Hit. rewrite Forall_forall in Hhd. apply Hhd.
    apply list_elem_of_fmap. by exists it. }
  set (new := if maxDepth <=? q_depth current then []
              else children decayFactor current
                     (neighbors_of adjacencyList (q_nodeId current))).
  assert (forall it, it ∈ new -> q_depth it = q_depth current + 1) as Hnew.
  { intros it. unfold new. destruct (maxDepth <=? q_depth current).
    - intros Hit. by apply elem_of_nil in Hit.
    - intros Hit. by apply children_spec in Hit as (e & _ & _ & _ & _ & Hd). }
  set (rec := if 0 <? q_depth current
              then [ {| path := q_path current; path_weight := q_weight current;
                        depth := q_depth current |} ]
              else []).
  assert (forall p, p ∈ rec -> depth p = q_depth current) as Hrec.
  { intros p. unfold rec. destruct (0 <? q_depth current).
    - by intros ->%list_elem_of_singleton.
    - intros Hp. by apply elem_of_nil in Hp. }
  unfold bfs_inv. rewrite loop_body_queue, loop_body_paths. fold new rec.
  split; [|split; [|split]].
  - rewrite fmap_app. apply StronglySorted_app_iff. split; [done|]. split.
    + unfold rec. destruct (0 <? q_depth current); repeat constructor.
    + intros a b (p & -> & Hp)%list_elem_of_fmap (p' & -> & Hp')%list_elem_of_fmap.
      rewrite (Hrec p' Hp'). apply Hcross; [done|left].
  - rewrite fmap_app. apply StronglySorted_app_iff. split; [done|]. split.
    + assert (Forall (fun d => d = q_depth current + 1) (q_depth <$> new)) as Hall.
      { apply Forall_forall. intros d (it & -> & Hit)%list_elem_of_fmap. by apply Hnew. }
      by apply StronglySorted_constant in Hall.
    + intros a b (it & -> & Hit)%list_elem_of_fmap (it' & -> & Hit')%list_elem_of_fmap.
      rewrite (Hnew it' Hit').
      pose proof (Hspan current it ltac:(left) ltac:(by right)). lia.
  - intros p it [Hp|Hp]%elem_of_app [Hit|Hit]%elem_of_app.
    + apply Hcross; [done|by right].
    + rewrite (Hnew it Hit). pose proof (Hcross p current Hp ltac:(left)). lia.
    + rewrite (Hrec p Hp). by apply Hge.
    + rewrite (Hrec p Hp), (Hnew it Hit). lia.
  - intros it1 it2 [H1|H1]%elem_of_app [H2|H2]%elem_of_app.
    + apply Hspan; by right.
    + rewrite (Hnew it2 H2). pose proof (Hge it1 H1). lia.
    + rewrite (Hnew it1 H1).
      pose proof (Hspan current it2 ltac:(left) ltac:(by right)). lia.
    + rewrite (Hnew it1 H1), (Hnew it2 H2). lia.
Qed.

(** X5: breadth first.  The paths of a result are listed by depth: no path
    stands before a shallower one. *)
Theorem paths_listed_by_depth (edges : list (InfluenceEdge num))
    (nodeIds : list string) (maxDepth : Z) (decayFactor : num) :
  exists results,
    (forall fuel, (propagation_fuel edges maxDepth <= fuel)%nat ->
       calculatePropagatedInfluence fuel edges nodeIds maxDepth decayFactor
       = Some results) /\
    forall id r, results !! id = Some r ->
      StronglySorted Z.le (depth <$> paths r).
Proof.
  destruct (propagation_results edges nodeIds maxDepth decayFactor)
    as (results & Hres & _ & Hloop).
  exists results. split; [exact Hres|]. intros id r Hr.
  destruct (Hloop id r Hr) as (st & Hst & ->). cbn [paths].
  apply (while_loop_invariant bfs_inv) in Hst.
  - by destruct Hst.
  - intros current rest st0. apply bfs_step.
  - split; [constructor|]. split; [repeat constructor|]. split.
    + intros p it Hp. by apply elem_of_nil in Hp.
    + intros it1 it2 ->%list_elem_of_singleton ->%list_elem_of_singleton. lia.
Qed.

(** X6: the result of a node does not depend on the other ids asked for.
    Two calls over the same edges give a node they both list the same
    result, whatever else they list, in whatever order and however often. *)
Theorem result_independent_of_other_ids (edges : list (InfluenceEdge num))
    (nodeIds1 nodeIds2 : list string) (maxDepth : Z) (decayFactor : num) :
  exists results1 results2,
    (forall fuel, (propagation_fuel edges maxDepth <= fuel)%nat ->
       calculatePropagatedInfluence fuel edges nodeIds1 maxDepth decayFactor
       = Some results1 /\
       calculatePropagatedInfluence fuel edges nodeIds2 maxDepth decayFactor
       = Some results2) /\
    forall id, id ∈ nodeIds1 -> id ∈ nodeIds2 ->
      is_Some (results1 !! id) /\ results1 !! id = results2 !! id.
Proof.
  destruct (propagation_results edges nodeIds1 maxDepth decayFactor)
    as (results1 & Hres1 & Hdom1 & Hloop1).
  destruct (propagation_results edges nodeIds2 maxDepth decayFactor)
    as (results2 & Hres2 & Hdom2 & Hloop2).
  exists results1, results2. split; [intros fuel Hfuel; by split; auto|].
  intros id Hin1 Hin2.
  destruct (proj1 (Hdom1 id) Hin1) as [r1 Hr1].
  destruct (proj1 (Hdom2 id) Hin2) as [r2 Hr2].
  split; [by eexists|]. rewrite Hr1, Hr2.
  destruct (Hloop1 id r1 Hr1) as (st1 & Hst1 & ->).
  destruct (Hloop2 id r2 Hr2) as (st2 & Hst2 & ->).
  rewrite Hst1 in Hst2. by injection Hst2 as <-.
Qed.

(** X7: with a depth limit of 0 or less nothing propagates.  Whatever the
    graph, every result has no path and a propagated influence of 0; its
    direct influence is unaffected. *)
Theorem no_propagation_without_depth (fuel : nat) (edges : list (InfluenceEdge num))
    (nodeIds : list string) (maxDepth : Z) (decayFactor : num) :
  maxDepth <= 0 ->
  (1 <= fuel)%nat ->
  exists results,
    calculatePropagatedInfluence fuel edges nodeIds maxDepth decayFactor = Some results /\
    (forall id, id ∈ nodeIds <-> is_Some (results !! id)) /\
    forall id r, results !! id = Some r ->
      paths r = [] /\ propagatedInfluence r = n_ofZ 0 /\
      directInfluence r =
        fold_left (fun sum edge => n_add sum (weight edge))
          (filter (fun e => sourceUserId e = id) edges) (n_ofZ 0).
Proof.
  intros Hdepth Hfuel.
  assert (forall id,
            propagateFromNode fuel id (buildAdjacencyList edges) maxDepth decayFactor =
            Some {| nodeId := id;
                    directInfluence :=
                      fold_left (fun sum edge => n_add sum (weight edge))
                        (filter (fun e => sourceUserId e = id) edges) (n_ofZ 0);
                    propagatedInfluence := n_ofZ 0;
                    totalInfluence :=
                      n_add (fold_left (fun sum edge => n_add sum (weight edge))
                               (filter (fun e => sourceUserId e = id) edges) (n_ofZ 0))
                            (n_ofZ 0);
                    paths := [] |}) as Hone.
  { intros id. destruct fuel as [|fuel]; [lia|].
    unfold propagateFromNode. cbn [while_loop initial_state queue].
    unfold loop_body. cbn [q_depth]. rewrite (proj2 (Z.leb_le maxDepth 0) Hdepth).
    change (0 <? 0) with false. cbv iota.
    destruct fuel; cbn [while_loop queue]; by rewrite neighbors_of_build. }
  destruct (propagate_all_lookup (buildAdjacencyList edges) fuel maxDepth decayFactor
              nodeIds ∅) as (results & Hres & Hlook).
  { intros id _. rewrite Hone. eauto. }
  exists results. split; [exact Hres|]. split.
  - intros id. rewrite Hlook. destruct (decide (id ∈ nodeIds)) as [Hin|Hnin].
    + rewrite Hone. split; [eauto|done].
    + rewrite lookup_empty. split; [done|]. by intros [? ?].
  - intros id r. rewrite Hlook. destruct (decide (id ∈ nodeIds)); [|by rewrite lookup_empty].
    rewrite Hone. by intros [= <-].
Qed.

End TraversalAccounting.

Lemma no_propagation_without_depth_witness :
  exists results,
    calculatePropagatedInfluence (num:=Q) 1 scenario_edges ["A"; "B"] 0 (dec 6 1)
      = Some results /\
    (forall id, id ∈ ["A"; "B"] <-> is_Some (results !! id)) /\
    forall id r, results !! id = Some r ->
      paths r = [] /\ propagatedInfluence r = n_ofZ 0 /\
      directInfluence r =
        fold_left (fun sum edge => n_add sum (weight edge))
          (filter (fun e => sourceUserId e = id) scenario_edges) (n_ofZ 0).
Proof.
  apply (no_propagation_without_depth (num:=Q) 1 scenario_edges ["A"; "B"] 0 (dec 6 1));
    lia.
Defined.

(** ** The result cache *)

Section CacheExtra.
Context {T : Type}.
Implicit Types (c : InfluenceCache.t T) (m : gmap string (InfluenceCache.CacheEntry T)).
Implicit Types (v : JsValue T).

(** X8: a stored value comes back until it expires.  A [get] at [now'] of
    what [set] stored at [now] for [ttlMs] returns the value and counts a
    hit as long as [now'] is not past [now + ttlMs]; past it, the [get]
    returns [null], counts a miss and removes the entry, leaving the map as
    if the key had been deleted from the cache before the [set]. *)
Theorem set_then_get (now now' : Z) (key : string) v (ttlMs : Z) c :
  InfluenceCache.get now' key (InfluenceCache.set now key v ttlMs c) =
    if now + ttlMs <? now'
    then (null, {| InfluenceCache.cache := base.delete key (InfluenceCache.cache c);
                   InfluenceCache.stats := InfluenceCache.miss c |})
    else (v, {| InfluenceCache.cache :=
                  InfluenceCache.cache (InfluenceCache.set now key v ttlMs c);
                InfluenceCache.stats := InfluenceCache.hit c |}).
Proof.
  unfold InfluenceCache.get, InfluenceCache.set. cbn [InfluenceCache.cache].
  rewrite lookup_insert_eq. cbn [InfluenceCache.expiresAt InfluenceCache.value].
  destruct (now + ttlMs <? now'); [|done].
  by rewrite delete_insert_eq.
Qed.

(** X9: the calls on one key leave the other keys alone.  What [get] and
    [has] answer for [key'] is the same before and after a [set], a
    [delete], an expired or a fresh [get] and a [has] on another key. *)
Theorem other_keys_unaffected (now now' : Z) (key key' : string) v (ttlMs : Z) c :
  key <> key' ->
  answers now' key' (InfluenceCache.set now key v ttlMs c) = answers now' key' c /\
  answers now' key' (snd (InfluenceCache.delete key c)) = answers now' key' c /\
  answers now' key' (snd (InfluenceCache.get now key c)) = answers now' key' c /\
  answers now' key' (snd (InfluenceCache.has now key c)) = answers now' key' c.
Proof.
  intros Hne.
  assert (forall c1 c2,
            InfluenceCache.cache c1 !! key' = InfluenceCache.cache c2 !! key' ->
            answers now' key' c1 = answers now' key' c2) as Hsame.
  { intros c1 c2 Hk. unfold answers, InfluenceCache.get, InfluenceCache.has.
    rewrite Hk. destruct (InfluenceCache.cache c2 !! key') as [entry|]; [|done].
    by destruct (InfluenceCache.expiresAt entry <? now'). }
  split; [|split; [|split]]; apply Hsame.
  - cbn. by rewrite lookup_insert_ne.
  - cbn. by rewrite lookup_delete_ne.
  - unfold InfluenceCache.get.
    destruct (InfluenceCache.cache c !! key) as [entry|]; [|done].
    destruct (InfluenceCache.expiresAt entry <? now); [|done].
    cbn. by rewrite lookup_delete_ne.
  - unfold InfluenceCache.has.
    destruct (InfluenceCache.cache c !! key) as [entry|]; [|done].
    destruct (InfluenceCache.expiresAt entry <? now); [|done].
    cbn. by rewrite lookup_delete_ne.
Qed.

(** X10: [has] and [get] side by side.  [has] answers [true] exactly when
    the key holds an entry that has not expired; it leaves the map as [get]
    does and never touches the counters.  [get] counts a hit exactly when
    [has] answers [true], also when the value it then returns is [null]; when
    [has] answers [false], [get] returns [null]. *)
Theorem has_and_get (now : Z) (key : string) c :
  (fst (InfluenceCache.has now key c) = true <->
   exists entry, InfluenceCache.cache c !! key = Some entry /\
                 now <= InfluenceCache.expiresAt entry) /\
  InfluenceCache.cache (snd (InfluenceCache.has now key c))
    = InfluenceCache.cache (snd (InfluenceCache.get now key c)) /\
  InfluenceCache.stats (snd (InfluenceCache.has now key c)) = InfluenceCache.stats c /\
  InfluenceCache.stats (snd (InfluenceCache.get now key c))
    = (if fst (InfluenceCache.has now key c)
       then InfluenceCache.hit c else InfluenceCache.miss c) /\
  (fst (InfluenceCache.has now key c) = false ->
   fst (InfluenceCache.get now key c) = null).
Proof.
  unfold InfluenceCache.has, InfluenceCache.get.
  destruct (InfluenceCache.cache c !! key) as [entry|] eqn:Hk.
  - destruct (Z.ltb_spec (InfluenceCache.expiresAt entry) now) as [Hlt|Hge];
      cbn [fst snd InfluenceCache.cache InfluenceCache.stats].
    + split; [|done]. split; [done|]. intros (e & [= <-] & He). lia.
    + split; [|done]. split; [|done]. intros _. by exists entry.
  - cbn [fst snd InfluenceCache.cache InfluenceCache.stats].
    split; [|done]. split; [done|]. by intros (e & He & _).
Qed.

(** X11: [delete] answers for the map, not for the clock.  It returns
    [true] exactly when the key holds an entry, expired or not, so it can
    return [true] where [has] returns [false]; afterwards [get] returns
    [null], [has] and a second [delete] return [false], and the counters are
    as before. *)
Theorem delete_removes_the_entry (now : Z) (key : string) c :
  (fst (InfluenceCache.delete key c) = true <->
   is_Some (InfluenceCache.cache c !! key)) /\
  (fst (InfluenceCache.has now key c) = true ->
   fst (InfluenceCache.delete key c) = true) /\
  fst (InfluenceCache.get now key (snd (InfluenceCache.delete key c))) = null /\
  fst (InfluenceCache.has now key (snd (InfluenceCache.delete key c))) = false /\
  fst (InfluenceCache.delete key (snd (InfluenceCache.delete key c))) = false /\
  InfluenceCache.stats (snd (InfluenceCache.delete key c)) = InfluenceCache.stats c.
Proof.
  unfold InfluenceCache.delete, InfluenceCache.has, InfluenceCache.get.
  cbn [fst snd InfluenceCache.cache InfluenceCache.stats].
  rewrite lookup_delete_eq. cbn [fst].
  split; [apply bool_decide_eq_true|]. split.
  - rewrite bool_decide_eq_true.
    destruct (InfluenceCache.cache c !! key) as [entry|]; [by eauto|done].
  - split; [done|]. split; [done|]. split; [|done].
    apply bool_decide_eq_false. by intros [? ?].
Qed.

Lemma run_calls_snoc (calls : list (CacheCall T)) (call : CacheCall T) c :
  run_calls (calls ++ [call]) c = run_call (run_calls calls c) call.
Proof. unfold run_calls. by rewrite fold_left_app. Qed.

Lemma lookups_of_call (call : CacheCall T) c :
  (InfluenceCache.hits (InfluenceCache.stats (run_call c call))
   + InfluenceCache.misses (InfluenceCache.stats (run_call c call)))%nat
  = count_lookups
      (InfluenceCache.hits (InfluenceCache.stats c)
       + InfluenceCache.misses (InfluenceCache.stats c))%nat call.
Proof.
  destruct call as [now key|now key v ttlMs|now key|key|now|];
    cbn [run_call count_lookups]; try done.
  - unfold InfluenceCache.get.
    destruct (InfluenceCache.cache c !! key) as [entry|]; [|cbn; lia].
    destruct (InfluenceCache.expiresAt entry <? now); cbn; lia.
  - unfold InfluenceCache.has.
    destruct (InfluenceCache.cache c !! key) as [entry|]; [|done].
    by destruct (InfluenceCache.expiresAt entry <? now).
Qed.

(** X12: the counters count the lookups.  After any sequence of calls the
    hits and the misses add up to the number of [get] calls made since the
    last [clear] (on top of what the counters held, if there was no
    [clear]); [set], [has], [delete] and the sweep count nothing.  The hit
    rate that [getStats] reports lies between 0 and 1, and is 0 while
    nothing has been looked up. *)
Theorem counters_count_lookups (calls : list (CacheCall T)) c :
  (InfluenceCache.stat_hits (InfluenceCache.getStats (run_calls calls c))
   + InfluenceCache.stat_misses (InfluenceCache.getStats (run_calls calls c)))%nat
  = fold_left count_lookups calls
      (InfluenceCache.hits (InfluenceCache.stats c)
       + InfluenceCache.misses (InfluenceCache.stats c))%nat /\
  (0 <= InfluenceCache.hitRate (InfluenceCache.getStats (run_calls calls c)) <= 1)%Q /\
  (fold_left count_lookups calls
      (InfluenceCache.hits (InfluenceCache.stats c)
       + InfluenceCache.misses (InfluenceCache.stats c))%nat = 0%nat ->
   InfluenceCache.hitRate (InfluenceCache.getStats (run_calls calls c)) = 0%Q).
Proof.
  assert ((InfluenceCache.hits (InfluenceCache.stats (run_calls calls c))
           + InfluenceCache.misses (InfluenceCache.stats (run_calls calls c)))%nat
          = fold_left count_lookups calls
              (InfluenceCache.hits (InfluenceCache.stats c)
               + InfluenceCache.misses (InfluenceCache.stats c))%nat) as Hcount.
  { induction calls as [|call calls IH] using rev_ind; [done|].
    by rewrite run_calls_snoc, fold_left_app, lookups_of_call, IH. }
  split; [exact Hcount|].
  rewrite <- Hcount. unfold InfluenceCache.getStats. cbn [InfluenceCache.hitRate].
  set (h := InfluenceCache.hits (InfluenceCache.stats (run_calls calls c))).
  set (ms := InfluenceCache.misses (InfluenceCache.stats (run_calls calls c))).
  split.
  - destruct (Nat.ltb_spec 0 (h + ms)) as [Hpos|Hzero]; [|split; Lqa.lra].
    assert (0 < inject_Z (Z.of_nat (h + ms)))%Q as Hden.
    { change 0%Q with (inject_Z 0). rewrite <- Zlt_Qlt. lia. }
    assert (0 <= inject_Z (Z.of_nat h))%Q as Hnum.
    { change 0%Q with (inject_Z 0). rewrite <- Zle_Qle. lia. }
    assert (inject_Z (Z.of_nat h) <= inject_Z (Z.of_nat (h + ms)))%Q as Hle.
    { rewrite <- Zle_Qle. lia. }
    split.
    + apply Qle_shift_div_l; [done|]. Lqa.lra.
    + apply Qle_shift_div_r; [done|]. Lqa.lra.
  - intros Hz. by rewrite Hz.
Qed.

Lemma cleanup_lookup (now : Z) c (k : string) (e : InfluenceCache.CacheEntry T) :
  InfluenceCache.cache (InfluenceCache.cleanup now c) !! k = Some e <->
  InfluenceCache.cache c !! k = Some e /\ now <= InfluenceCache.expiresAt e.
Proof.
  unfold InfluenceCache.cleanup. cbn [InfluenceCache.cache].
  rewrite map_lookup_filter_Some. cbn. split; intros [? ?]; split; try done; lia.
Qed.

(** X13: the sweep removes the expired entries and only them, and no
    lookup can tell: [cleanup] at [now] keeps exactly the entries with
    [now <= expiresAt]; at any time from [now] on, [get] and [has] answer
    the same on the swept cache as on the unswept one; the counters are
    untouched. *)
Theorem cleanup_is_transparent (now now' : Z) (key : string) c :
  now <= now' ->
  (forall k e,
     InfluenceCache.cache (InfluenceCache.cleanup now c) !! k = Some e <->
     InfluenceCache.cache c !! k = Some e /\ now <= InfluenceCache.expiresAt e) /\
  fst (InfluenceCache.get now' key (InfluenceCache.cleanup now c))
    = fst (InfluenceCache.get now' key c) /\
  fst (InfluenceCache.has now' key (InfluenceCache.cleanup now c))
    = fst (InfluenceCache.has now' key c) /\
  InfluenceCache.stats (InfluenceCache.cleanup now c) = InfluenceCache.stats c.
Proof.
  intros Hnow. split; [intros k e; apply cleanup_lookup|].
  split; [|split; [|done]].
  - unfold InfluenceCache.get.
    destruct (InfluenceCache.cache (InfluenceCache.cleanup now c) !! key)
      as [e|] eqn:Hk.
    + apply cleanup_lookup in Hk as [-> _].
      by destruct (InfluenceCache.expiresAt e <? now').
    + destruct (InfluenceCache.cache c !! key) as [e|] eqn:Hk'; [|done].
      destruct (Z.ltb_spec (InfluenceCache.expiresAt e) now'); [done|].
      assert (InfluenceCache.cache (InfluenceCache.cleanup now c) !! key = Some e)
        as Hin by (apply cleanup_lookup; split; [done|lia]).
      congruence.
  - unfold InfluenceCache.has.
    destruct (InfluenceCache.cache (InfluenceCache.cleanup now c) !! key)
      as [e|] eqn:Hk.
    + apply cleanup_lookup in Hk as [-> _].
      by destruct (InfluenceCache.expiresAt e <? now').
    + destruct (InfluenceCache.cache c !! key) as [e|] eqn:Hk'; [|done].
      destruct (Z.ltb_spec (InfluenceCache.expiresAt e) now'); [done|].
      assert (InfluenceCache.cache (InfluenceCache.cleanup now c) !! key = Some e)
        as Hin by (apply cleanup_lookup; split; [done|lia]).
      congruence.
Qed.

(** X14: [getOrSet] on a live value, and after the factory.  When the key
    holds an unexpired value other than [null], [getOrSet] returns it and
    the factory does not act; when the lookup comes back with [null], the
    factory acts once, and its value is what [getOrSet] returns and what a
    [get] returns from then until [ttlMs] after the store. *)
Theorem getOrSet_uses_the_cache {W : Type} (now now' now'' : Z) (key : string)
    (factory : W -> JsValue T * W) (ttlMs : Z) c (w : W) :
  now'' <= now' + ttlMs ->
  (forall x, fst (InfluenceCache.get now key c) = data x ->
     InfluenceCache.getOrSet now now' key factory ttlMs c w
       = (data x, snd (InfluenceCache.get now key c), w)) /\
  (fst (InfluenceCache.get now key c) = null ->
     fst (fst (InfluenceCache.getOrSet now now' key factory ttlMs c w))
       = fst (factory w) /\
     snd (InfluenceCache.getOrSet now now' key factory ttlMs c w) = snd (factory w) /\
     fst (InfluenceCache.get now'' key
            (snd (fst (InfluenceCache.getOrSet now now' key factory ttlMs c w))))
       = fst (factory w)).
Proof.
  intros Hlive. split.
  - intros x Hx. unfold InfluenceCache.getOrSet.
    destruct (InfluenceCache.get now key c) as [cached c1]. cbn [fst snd] in *.
    by subst cached.
  - intros Hnull. rewrite getOrSet_after_null by done.
    cbn [fst snd]. split; [done|]. split; [done|].
    unfold InfluenceCache.get at 1, InfluenceCache.set. cbn [InfluenceCache.cache].
    rewrite lookup_insert_eq. cbn [InfluenceCache.expiresAt InfluenceCache.value].
    by destruct (Z.ltb_spec (now' + ttlMs) now''); [lia|].
Qed.

End CacheExtra.

Lemma other_keys_unaffected_witness :
  answers 5 "b" (InfluenceCache.set 1 "a" (data 7%nat) 10 sample_cache)
    = answers 5 "b" sample_cache /\
  answers 5 "b" (snd (InfluenceCache.delete "a" sample_cache))
    = answers 5 "b" sample_cache /\
  answers 5 "b" (snd (InfluenceCache.get 1 "a" sample_cache))
    = answers 5 "b" sample_cache /\
  answers 5 "b" (snd (InfluenceCache.has 1 "a" sample_cache))
    = answers 5 "b" sample_cache.
Proof.
  apply (other_keys_unaffected 1 5 "a" "b" (data 7%nat) 10 sample_cache). done.
Defined.

Lemma cleanup_is_transparent_witness :
  (forall k e,
     InfluenceCache.cache (InfluenceCache.cleanup 400000 sample_cache) !! k = Some e <->
     InfluenceCache.cache sample_cache !! k = Some e /\
     400000 <= InfluenceCache.expiresAt e) /\
  fst (InfluenceCache.get 400001 "graph:org1" (InfluenceCache.cleanup 400000 sample_cache))
    = fst (InfluenceCache.get 400001 "graph:org1" sample_cache) /\
  fst (InfluenceCache.has 400001 "graph:org1" (InfluenceCache.cleanup 400000 sample_cache))
    = fst (InfluenceCache.has 400001 "graph:org1" sample_cache) /\
  InfluenceCache.stats (InfluenceCache.cleanup 400000 sample_cache)
    = InfluenceCache.stats sample_cache.
Proof.
  apply (cleanup_is_transparent 400000 400001 "graph:org1" sample_cache). lia.
Defined.

Lemma getOrSet_uses_the_cache_witness :
  (forall x, fst (InfluenceCache.get 5 "graph:org1" sample_cache) = data x ->
     InfluenceCache.getOrSet 5 6 "graph:org1" counting_null_factory 1000 sample_cache 0%nat
       = (data x, snd (InfluenceCache.get 5 "graph:org1" sample_cache), 0%nat)) /\
  (fst (InfluenceCache.get 5 "graph:org1" sample_cache) = null ->
     fst (fst (InfluenceCache.getOrSet 5 6 "graph:org1" counting_null_factory 1000
                 sample_cache 0%nat))
       = fst (counting_null_factory (T:=nat) 0%nat) /\
     snd (InfluenceCache.getOrSet 5 6 "graph:org1" counting_null_factory 1000
            sample_cache 0%nat) = snd (counting_null_factory (T:=nat) 0%nat) /\
     fst (InfluenceCache.get 900 "graph:org1"
            (snd (fst (InfluenceCache.getOrSet 5 6 "graph:org1" counting_null_factory
                         1000 sample_cache 0%nat))))
       = fst (counting_null_factory (T:=nat) 0%nat)).
Proof.
  apply (getOrSet_uses_the_cache 5 6 900 "graph:org1" counting_null_factory 1000
           sample_cache 0%nat). lia.
Defined.

(** ** Patterns *)

Lemma plain_char_spec (c : ascii) :
  plain_char c = true ->
  is_syntax_character c = false /\ Ascii.eqb c "*"%char = false /\
  Ascii.eqb c "."%char = false.
Proof.
  unfold plain_char. rewrite !andb_true_iff, !negb_true_iff. tauto.
Qed.

Lemma append_cons (c : ascii) (p q : string) :
  String c p +:+ q = String c (p +:+ q).
Proof. reflexivity. Qed.

(** The expression of a plain prefix followed by a star. *)
Lemma RegExp_prefix_glob (p : string) :
  plain p = true ->
  RegExp (replace_stars (p +:+ "*")) = Some (literal p ++ [(AnyChar, true)]).
Proof.
  induction p as [|c p IH]; [done|]. cbn [plain]. intros [Hc Hp]%andb_true_iff.
  apply plain_char_spec in Hc as (Hsyn & Hstar & Hdot).
  rewrite append_cons. cbn [replace_stars]. rewrite Hstar.
  rewrite RegExp_unstarred; [|done|done|].
  - rewrite (IH Hp), Hdot. done.
  - intros rest'. destruct p as [|c' p'].
    + done.
    + rewrite append_cons. cbn [replace_stars]. cbn [plain] in Hp.
      apply andb_true_iff in Hp as [Hc' _].
      apply plain_char_spec in Hc' as (_ & Hstar' & _). rewrite Hstar'.
      intros [= ->]. done.
Qed.

Lemma match_here_prefix_glob (p s : string) :
  match_here (literal p ++ [(AnyChar, true)]) s = true <->
  exists post, s = p +:+ post.
Proof.
  revert s. induction p as [|c p IH]; intros s.
  - cbn [literal app]. split; [intros _; by exists s|]. intros _. by destruct s.
  - cbn [literal app match_here]. destruct s as [|c' s].
    + split; [done|]. intros (post & Hs). by rewrite append_cons in Hs.
    + cbn [atom_matches]. rewrite andb_true_iff, IH. split.
      * intros [->%Ascii.eqb_eq (post & ->)]. by exists post.
      * intros (post & Hs). rewrite append_cons in Hs. injection Hs as -> ->.
        split; [apply Ascii.eqb_refl|by exists post].
Qed.

Lemma test_prefix_glob (p s : string) :
  test (literal p ++ [(AnyChar, true)]) s = true <-> occurs_in p s.
Proof.
  induction s as [|c s IH].
  - cbn [test]. rewrite orb_false_r, match_here_prefix_glob. split.
    + intros (post & ->). by exists EmptyString, post.
    + intros ([|? ?] & post & Hs); [by exists post|by rewrite append_cons in Hs].
  - cbn [test]. rewrite orb_true_iff, match_here_prefix_glob, IH. split.
    + intros [(post & ->)|(pre & post & ->)].
      * by exists EmptyString, post.
      * by exists (String c pre), post.
    + intros ([|c' pre] & post & Hs).
      * left. by exists post.
      * right. rewrite append_cons in Hs. injection Hs as -> ->. by exists pre, post.
Qed.

Section PatternExtra.
Context {T : Type}.
Implicit Types (c : InfluenceCache.t T) (m : gmap string (InfluenceCache.CacheEntry T)).

Lemma fold_delete_if_match_size regex (keys : list string) (n : nat) m :
  NoDup keys ->
  (forall k, k ∈ keys -> is_Some (m !! k)) ->
  (fst (fold_left (InfluenceCache.delete_if_match regex) keys (n, m))
   + base.size (snd (fold_left (InfluenceCache.delete_if_match regex) keys (n, m))))%nat
  = (n + base.size m)%nat.
Proof.
  revert n m. induction keys as [|key keys IH]; intros n m Hnd Hin; [done|].
  apply NoDup_cons in Hnd as [Hkey Hnd]. cbn [fold_left].
  unfold InfluenceCache.delete_if_match at 2 4. cbn [fst snd].
  destruct (test regex key).
  - rewrite IH; [|done|].
    + destruct (Hin key ltac:(left)) as [e He].
      assert (base.size m <> 0%nat) as Hpos.
      { intros Hz. apply map_size_empty_inv in Hz. subst m.
        by rewrite lookup_empty in He. }
      rewrite map_size_delete, He. cbn. lia.
    + intros k Hk. rewrite lookup_delete_ne; [apply Hin; by right|].
      intros ->. done.
  - apply IH; [done|]. intros k Hk. apply Hin. by right.
Qed.

(** X15: what [deletePattern] returns is the number of entries it removed.
    Whenever the pattern has a regular expression, the entries left are
    entries the cache held, with their values, the size of the cache went
    down by the number returned, and the counters are untouched. *)
Theorem deletePattern_counts_the_deleted (pattern : string) c (n : nat)
    (c' : InfluenceCache.t T) :
  InfluenceCache.deletePattern pattern c = Some (n, c') ->
  InfluenceCache.cache c' ⊆ InfluenceCache.cache c /\
  base.size (InfluenceCache.cache c) = (n + base.size (InfluenceCache.cache c'))%nat /\
  InfluenceCache.stats c' = InfluenceCache.stats c.
Proof.
  unfold InfluenceCache.deletePattern.
  destruct (RegExp (replace_stars pattern)) as [regex|] eqn:Hre; [|done].
  intros [= <- <-]. cbn [InfluenceCache.cache InfluenceCache.stats].
  split; [|split; [|done]].
  - apply map_subseteq_spec. intros k e.
    destruct (fold_delete_if_match regex (map_to_list (InfluenceCache.cache c)).*1
                0 (InfluenceCache.cache c)) as [_ Hm].
    rewrite Hm. destruct (decide _); [|done]. by destruct (test regex k).
  - symmetry. apply (fold_delete_if_match_size regex _ 0).
    + apply NoDup_fst_map_to_list.
    + intros k ([k' e] & -> & Hin)%list_elem_of_fmap.
      apply elem_of_map_to_list in Hin. by exists e.
Qed.

(** X16: a plain prefix followed by a star.  For a prefix [p] without
    special characters, [deletePattern] of [p] and a star removes the entries
    whose key contains [p] somewhere, and only them: every key that starts with [p] goes,
    so does every other key in which [p] occurs, and a key without [p]
    stays with its entry. *)
Theorem deletePattern_plain_prefix (p : string) c :
  plain p = true ->
  exists n c',
    InfluenceCache.deletePattern (p +:+ "*") c = Some (n, c') /\
    (forall k, occurs_in p k -> InfluenceCache.cache c' !! k = None) /\
    (forall rest, InfluenceCache.cache c' !! (p +:+ rest) = None) /\
    (forall k, ~ occurs_in p k ->
       InfluenceCache.cache c' !! k = InfluenceCache.cache c !! k).
Proof.
  intros Hp.
  destruct (deletePattern_spec (p +:+ "*") _ c (RegExp_prefix_glob p Hp))
    as (c' & Hdel & _ & Hlook).
  eexists _, c'. split; [exact Hdel|].
  assert (forall k, occurs_in p k -> InfluenceCache.cache c' !! k = None) as Hgone.
  { intros k Hk. rewrite Hlook. apply test_prefix_glob in Hk. by rewrite Hk. }
  split; [exact Hgone|]. split.
  - intros rest. apply Hgone. by exists EmptyString, rest.
  - intros k Hk. rewrite Hlook.
    destruct (test (literal p ++ [(AnyChar, true)]) k) eqn:Htest; [|done].
    apply test_prefix_glob in Htest. by destruct Hk.
Qed.

(** X17: the pattern of a lone star empties the cache and returns its
    size; the counters stay. *)
Theorem deletePattern_star_empties c :
  InfluenceCache.deletePattern "*" c
  = Some (base.size (InfluenceCache.cache c),
          {| InfluenceCache.cache := ∅; InfluenceCache.stats := InfluenceCache.stats c |}).
Proof.
  destruct (deletePattern_spec "*" [(AnyChar, true)] c eq_refl)
    as (c' & Hdel & Hstats & Hlook).
  assert (forall k, test [(AnyChar, true)] k = true) as Hall.
  { intros k. by destruct k. }
  rewrite Hdel. f_equal. f_equal.
  - assert (forall keys, List.filter (test [(AnyChar, true)]) keys = keys) as ->.
    { induction keys as [|k keys IH]; [done|].
      cbn [List.filter]. by rewrite Hall, IH. }
    by rewrite length_fmap, length_map_to_list.
  - destruct c' as [m s]. cbn in *. subst s. f_equal.
    apply map_eq. intros k. by rewrite Hlook, Hall, lookup_empty.
Qed.

End PatternExtra.

Lemma deletePattern_counts_the_deleted_witness :
  InfluenceCache.cache
    {| InfluenceCache.cache :=
         base.delete "graph:org1"
           (base.delete "subgraph:org1" (InfluenceCache.cache sample_cache));
       InfluenceCache.stats := InfluenceCache.stats sample_cache |}
    ⊆ InfluenceCache.cache sample_cache /\
  base.size (InfluenceCache.cache sample_cache)
    = (2 + base.size
             (InfluenceCache.cache
                {| InfluenceCache.cache :=
                     base.delete "graph:org1"
                       (base.delete "subgraph:org1" (InfluenceCache.cache sample_cache));
                   InfluenceCache.stats := InfluenceCache.stats sample_cache |}))%nat /\
  InfluenceCache.stats
    {| InfluenceCache.cache :=
         base.delete "graph:org1"
           (base.delete "subgraph:org1" (InfluenceCache.cache sample_cache));
       InfluenceCache.stats := InfluenceCache.stats sample_cache |}
    = InfluenceCache.stats sample_cache.
Proof.
  apply (deletePattern_counts_the_deleted "graph:org1*" sample_cache).
  vm_compute. reflexivity.
Defined.

Lemma deletePattern_plain_prefix_witness :
  exists n c',
    InfluenceCache.deletePattern ("graph:org1" +:+ "*") sample_cache = Some (n, c') /\
    (forall k, occurs_in "graph:org1" k -> InfluenceCache.cache c' !! k = None) /\
    (forall rest, InfluenceCache.cache c' !! ("graph:org1" +:+ rest) = None) /\
    (forall k, ~ occurs_in "graph:org1" k ->
       InfluenceCache.cache c' !! k = InfluenceCache.cache sample_cache !! k).
Proof.
  apply (deletePattern_plain_prefix "graph:org1" sample_cache). reflexivity.
Defined.

(** ** Time decay, event deltas and volatility *)

(** X18: decay composes over time.  For a rate below 1, decaying a weight
    up to [now1] and then, as a weight created at [now1], up to [now2] gives
    what decaying it up to [now2] gives in one go; the result is additive in
    the weight, and a positive weight never decays to 0 or below. *)
Theorem decay_composes_over_time (w : R) (t now1 now2 : Z) (rate : R) :
  (rate < 1)%R ->
  calculateDecayedWeight now2 (calculateDecayedWeight now1 w t rate) now1 rate
    = calculateDecayedWeight now2 w t rate /\
  (forall w',
     calculateDecayedWeight now2 (w + w')%R t rate
     = (calculateDecayedWeight now2 w t rate
        + calculateDecayedWeight now2 w' t rate)%R) /\
  ((0 < w)%R -> (0 < calculateDecayedWeight now2 w t rate)%R).
Proof.
  intros Hrate. rewrite !calculateDecayedWeight_R, !R_pow_pos_base by lra.
  split; [|split].
  - rewrite Rmult_assoc, <- Rpower_plus. f_equal. f_equal.
    unfold days_between. lra.
  - intros w'. rewrite !calculateDecayedWeight_R, !R_pow_pos_base by lra. lra.
  - intros Hw. apply Rmult_lt_0_compat; [done|]. unfold Rpower. apply exp_pos.
Qed.

Lemma decay_composes_over_time_witness :
  calculateDecayedWeight (num:=R) 172800000
      (calculateDecayedWeight (num:=R) 86400000 80%R 0 (1 / 100)%R)
      86400000 (1 / 100)%R
    = calculateDecayedWeight (num:=R) 172800000 80%R 0 (1 / 100)%R /\
  (forall w',
     calculateDecayedWeight (num:=R) 172800000 (80 + w')%R 0 (1 / 100)%R
     = (calculateDecayedWeight (num:=R) 172800000 80%R 0 (1 / 100)%R
        + calculateDecayedWeight (num:=R) 172800000 w' 0 (1 / 100)%R)%R) /\
  ((0 < 80)%R ->
   (0 < calculateDecayedWeight (num:=R) 172800000 80%R 0 (1 / 100)%R)%R).
Proof.
  apply (decay_composes_over_time 80%R 0 86400000 172800000 (1 / 100)%R). lra.
Defined.

(** X19: the delta of an event, over the reals.  The delta is the impact
    score times 15 for a project success, 10 for an adopted proposal, 5 for
    mentorship and 3 for collaboration.  So it is proportional to the
    impact, is 0 for an impact of 0 only, has the sign of the impact, and
    for a positive impact ranks the event types in that order. *)
Theorem influence_delta_scales (eventType : EventType) (impactScore : R) :
  (calculateInfluenceDelta PROJECT_SUCCESS impactScore = 15 * impactScore /\
   calculateInfluenceDelta PROPOSAL_ADOPTED impactScore = 10 * impactScore /\
   calculateInfluenceDelta MENTORSHIP impactScore = 5 * impactScore /\
   calculateInfluenceDelta COLLABORATION impactScore = 3 * impactScore)%R /\
  (forall k, calculateInfluenceDelta eventType (k * impactScore)%R
             = (k * calculateInfluenceDelta eventType impactScore)%R) /\
  (calculateInfluenceDelta eventType impactScore = 0%R <-> impactScore = 0%R) /\
  ((0 < calculateInfluenceDelta eventType impactScore)%R <-> (0 < impactScore)%R) /\
  ((0 < impactScore)%R ->
   (calculateInfluenceDelta COLLABORATION impactScore
    < calculateInfluenceDelta MENTORSHIP impactScore
    < calculateInfluenceDelta PROPOSAL_ADOPTED impactScore)%R /\
   (calculateInfluenceDelta PROPOSAL_ADOPTED impactScore
    < calculateInfluenceDelta PROJECT_SUCCESS impactScore)%R).
Proof.
  unfold calculateInfluenceDelta, baseMultipliers. cbn [n_mul n_ofZ R_number].
  split; [done|].
  split; [intros k; destruct eventType; lra|].
  split; [destruct eventType; split; intros; lra|].
  split; [destruct eventType; split; intros; lra|].
  intros Hpos. lra.
Qed.

(** On binary64 the ranking is not strict at every positive impact: at
    [1e308] the products for a project success and for an adopted proposal
    both overflow to infinity. *)
Example delta_ranking_overflows_on_binary64 :
  calculateInfluenceDelta PROJECT_SUCCESS 1e308%float = PrimFloat.infinity /\
  calculateInfluenceDelta PROPOSAL_ADOPTED 1e308%float = PrimFloat.infinity.
Proof. split; vm_compute; reflexivity. Qed.

Lemma up_2 : up 2 = 3.
Proof. symmetry. apply tech_up; simpl; lra. Qed.

Lemma R_pow_2 (x : R) : R_pow x 2 = (x * x)%R.
Proof.
  unfold R_pow. destruct (Rlt_dec 0 x) as [Hpos|_].
  - replace 2%R with (INR 2) by (simpl; lra). rewrite Rpower_pow by done.
    simpl. lra.
  - unfold R_is_int. rewrite up_2. change (3 - 1) with 2.
    destruct (Req_dec_T 2 (IZR 2)) as [_|Hne]; [|lra]. simpl. lra.
Qed.

Lemma fold_left_Rplus (l : list R) (a : R) :
  fold_left Rplus l a = (a + Rsum l)%R.
Proof.
  revert a. induction l as [|x l IH]; intros a; simpl; [unfold Rsum; simpl; lra|].
  rewrite IH. unfold Rsum. simpl. lra.
Qed.

Lemma Rsum_cons (x : R) (l : list R) : Rsum (x :: l) = (x + Rsum l)%R.
Proof. reflexivity. Qed.

Lemma Rsum_shift (c : R) (l : list R) :
  Rsum (map (Rplus c) l) = (INR (length l) * c + Rsum l)%R.
Proof.
  induction l as [|x l IH]; [unfold Rsum; simpl; lra|].
  cbn [map]. rewrite !Rsum_cons, IH. cbn [length]. rewrite S_INR. lra.
Qed.

Lemma Rsum_scale (k : R) (l : list R) :
  Rsum (map (Rmult k) l) = (k * Rsum l)%R.
Proof.
  induction l as [|x l IH]; [unfold Rsum; simpl; lra|].
  cbn [map]. rewrite !Rsum_cons, IH. lra.
Qed.

Lemma Rsum_squares_nonneg (m : R) (l : list R) :
  (0 <= Rsum (map (fun x => (x - m) * (x - m))%R l))%R.
Proof.
  induction l as [|x l IH]; [unfold Rsum; simpl; lra|].
  cbn [map]. rewrite Rsum_cons.
  pose proof (Rle_0_sqr (x - m)) as Hsq. unfold Rsqr in Hsq. lra.
Qed.

Lemma Rsum_squares_zero (m : R) (l : list R) :
  Rsum (map (fun x => (x - m) * (x - m))%R l) = 0%R <-> Forall (fun x => x = m) l.
Proof.
  induction l as [|x l IH]; [split; [constructor|done]|].
  cbn [map]. rewrite Rsum_cons.
  pose proof (Rsum_squares_nonneg m l) as Hnn. split.
  - intros Hz. pose proof (Rle_0_sqr (x - m)) as Hsq. unfold Rsqr in Hsq.
    assert ((x - m) * (x - m) = 0)%R as Hx by lra.
    constructor; [|apply IH; lra].
    apply Rmult_integral in Hx. lra.
  - intros [-> Hall]%Forall_cons. apply IH in Hall. rewrite Hall. lra.
Qed.

Lemma Rsum_constant (m : R) (l : list R) :
  Forall (fun x => x = m) l -> Rsum l = (INR (length l) * m)%R.
Proof.
  induction 1 as [|x l -> _ IH]; [unfold Rsum; simpl; lra|].
  rewrite Rsum_cons, IH. cbn [length]. rewrite S_INR. lra.
Qed.

(** The volatility of two or more samples: the root of the mean squared
    distance to the mean. *)
Lemma calculateVolatility_R (l : list R) :
  (2 <= length l)%nat ->
  calculateVolatility l =
    sqrt (Rsum (map (fun x => (x - Rsum l / INR (length l))
                              * (x - Rsum l / INR (length l)))%R l)
          / INR (length l))%R.
Proof.
  intros Hlen. unfold calculateVolatility.
  destruct (Nat.ltb_spec (length l) 2) as [Hlt|_]; [lia|].
  cbn [Math_sqrt Math_pow R_math n_div n_ofZ n_sub n_add R_number].
  rewrite <- INR_IZR_INZ, !fold_left_Rplus, !Rplus_0_l. f_equal. f_equal. f_equal.
  apply map_ext. intros x. apply R_pow_2.
Qed.

Lemma INR_length_pos {A : Type} (l : list A) :
  (2 <= length l)%nat -> (0 < INR (length l))%R.
Proof. intros Hlen. apply lt_0_INR. lia. Qed.

(** X20: volatility.  It is never negative; it is 0 exactly when there
    are fewer than two samples or all samples are equal; adding a constant
    to every sample leaves it unchanged, and multiplying every sample by
    [k] multiplies it by the absolute value of [k]. *)
Theorem volatility_is_a_spread (l : list R) :
  (0 <= calculateVolatility l)%R /\
  (calculateVolatility l = 0%R <->
   (length l < 2)%nat \/ forall x y, In x l -> In y l -> x = y) /\
  (forall c, calculateVolatility (map (Rplus c) l) = calculateVolatility l) /\
  (forall k, calculateVolatility (map (Rmult k) l)
             = (Rabs k * calculateVolatility l)%R).
Proof.
  destruct (Nat.ltb_spec (length l) 2) as [Hlt|Hge].
  - assert (forall l' : list R, length l' = length l -> calculateVolatility l' = 0%R)
      as Hzero.
    { intros l' Hl'. unfold calculateVolatility.
      destruct (Nat.ltb_spec (length l') 2); [done|lia]. }
    split; [rewrite Hzero by done; cbn; lra|].
    split; [split; [by left|intros _; by apply Hzero]|].
    split.
    + intros c. rewrite !Hzero; [done|done|by rewrite length_map].
    + intros k. rewrite !Hzero; [cbn; lra|done|by rewrite length_map].
  - pose proof (INR_length_pos l Hge) as Hn.
    set (n := INR (length l)) in *. set (m := (Rsum l / n)%R).
    assert (calculateVolatility l
            = sqrt (Rsum (map (fun x => (x - m) * (x - m))%R l) / n)%R) as Hvol
      by (by apply calculateVolatility_R).
    assert (0 <= Rsum (map (fun x => (x - m) * (x - m))%R l) / n)%R as Hvar.
    { apply Rmult_le_pos; [apply Rsum_squares_nonneg|].
      left. by apply Rinv_0_lt_compat. }
    split; [rewrite Hvol; apply sqrt_pos|]. split; [|split].
    + rewrite Hvol. split.
      * intros Hz. right. apply sqrt_eq_0 in Hz; [|done].
        assert (Rsum (map (fun x => (x - m) * (x - m))%R l) = 0%R) as Hs.
        { apply (Rmult_eq_compat_r n) in Hz. unfold Rdiv in Hz.
          rewrite Rmult_assoc, Rinv_l, Rmult_1_r, Rmult_0_l in Hz; [done|lra]. }
        apply Rsum_squares_zero in Hs. rewrite Forall_forall in Hs.
        intros x y Hx Hy. rewrite (Hs x), (Hs y); [done| |];
          by apply list_elem_of_In.
      * intros [Hshort|Hsame]; [lia|].
        destruct l as [|a l']; [simpl in Hge; lia|].
        assert (Forall (fun x => x = a) (a :: l')) as Hall.
        { apply Forall_forall. intros x Hx%list_elem_of_In.
          apply Hsame; [done|by left]. }
        assert (m = a) as Hm.
        { unfold m. rewrite (Rsum_constant a _ Hall). fold n. field. lra. }
        assert (Forall (fun x => x = m) (a :: l')) as Hall'
          by (rewrite Hm; exact Hall).
        apply Rsum_squares_zero in Hall'. rewrite Hall'.
        unfold Rdiv. rewrite Rmult_0_l. apply sqrt_0.
    + intros c. rewrite calculateVolatility_R by (by rewrite length_map).
      rewrite Hvol, length_map. fold n. rewrite Rsum_shift. fold n.
      rewrite map_map. f_equal. f_equal. f_equal. apply map_ext. intros x.
      unfold m. field. lra.
    + intros k. rewrite calculateVolatility_R by (by rewrite length_map).
      rewrite Hvol, length_map. fold n. rewrite Rsum_scale, map_map.
      rewrite <- sqrt_Rsqr_abs, <- sqrt_mult; [|apply Rle_0_sqr|done].
      f_equal.
      replace (map (fun x => (k * x - k * Rsum l / n) * (k * x - k * Rsum l / n))%R l)
        with (map (Rmult (Rsqr k)) (map (fun x => (x - m) * (x - m))%R l)).
      * rewrite Rsum_scale. unfold Rdiv. lra.
      * rewrite map_map. apply map_ext. intros x. unfold m, Rsqr. field. lra.
Qed.

(** ** The department matrix *)

Section MatrixExtra.
Context {num : Type} `{JsNumber num}.
Implicit Types (matrix : gmap string (gmap string num)).
Implicit Types (nodeDepartments : gmap string string).

Lemma n_or_zero : n_or (n_ofZ 0) (n_ofZ 0) = n_ofZ 0.
Proof. unfold n_or. by destruct (n_truthy (n_ofZ 0)). Qed.

Lemma nodeDepartments_lookup (nodes : list (InfluenceNode num)) (id : string) :
  nodeDepartments_of nodes !! id = last (departments_of nodes id).
Proof.
  unfold nodeDepartments_of, departments_of.
  induction nodes as [|node nodes IH] using rev_ind; [done|].
  rewrite fold_left_app, omap_app. cbn [fold_left omap list_omap].
  unfold set_department at 1.
  destruct (decide (node_id node = id)) as [Hid|Hid].
  - destruct (departmentId node) as [d|]; [|by rewrite app_nil_r].
    destruct (string_truthy d); [|by rewrite app_nil_r].
    by rewrite last_snoc, Hid, lookup_insert_eq.
  - rewrite app_nil_r.
    destruct (departmentId node) as [d|]; [|done].
    destruct (string_truthy d); [|done]. by rewrite lookup_insert_ne.
Qed.

Lemma nodeDepartments_truthy (nodes : list (InfluenceNode num)) (id d : string) :
  nodeDepartments_of nodes !! id = Some d -> string_truthy d = true.
Proof.
  rewrite nodeDepartments_lookup, last_lookup. intros Hd%list_elem_of_lookup_2.
  unfold departments_of in Hd. apply list_elem_of_omap in Hd as (node & _ & Hnode).
  destruct (decide (node_id node = id)); [|done].
  destruct (departmentId node) as [d'|]; [|done].
  destruct (string_truthy d') eqn:Ht; [|done]. by injection Hnode as <-.
Qed.

Lemma add_to_matrix_insert nodeDepartments matrix (edge : InfluenceEdge num) :
  add_to_matrix nodeDepartments matrix edge =
  match nodeDepartments !! sourceUserId edge, nodeDepartments !! targetUserId edge with
  | Some sourceDept, Some targetDept =>
      if string_truthy sourceDept && string_truthy targetDept
         && negb (String.eqb sourceDept targetDept)
      then <[sourceDept :=
               <[targetDept :=
                   add_weight (default (n_ofZ 0) (entry matrix sourceDept targetDept))
                     edge]>
                 (default ∅ (matrix !! sourceDept))]> matrix
      else matrix
  | _, _ => matrix
  end.
Proof.
  unfold add_to_matrix, entry, add_weight.
  destruct (nodeDepartments !! sourceUserId edge) as [sd|]; [|done].
  destruct (nodeDepartments !! targetUserId edge) as [td|]; [|done].
  destruct (string_truthy sd && string_truthy td && negb (String.eqb sd td)); [|done].
  destruct (matrix !! sd) as [row|] eqn:Hrow; cbn [mbind option_bind default].
  - rewrite Hrow. cbn [default Datatypes.id].
    destruct (row !! td); cbn [default]; by rewrite ?n_or_zero.
  - rewrite lookup_insert_eq, insert_insert_eq. cbn [default].
    by rewrite ?lookup_empty, ?n_or_zero.
Qed.

Lemma entry_insert matrix (s t s' t' : string) (v : num) :
  entry (<[s := <[t := v]> (default ∅ (matrix !! s))]> matrix) s' t' =
  if decide (s' = s /\ t' = t) then Some v else entry matrix s' t'.
Proof.
  unfold entry. destruct (decide (s' = s)) as [->|Hs].
  - rewrite lookup_insert_eq. cbn [mbind option_bind].
    destruct (decide (t' = t)) as [->|Ht].
    + rewrite lookup_insert_eq. by rewrite decide_True.
    + rewrite lookup_insert_ne by done. rewrite decide_False by tauto.
      destruct (matrix !! s); cbn [default mbind option_bind]; [done|].
      apply lookup_empty.
  - rewrite lookup_insert_ne by done. by rewrite decide_False by tauto.
Qed.

Lemma filter_snoc {A : Type} (P : A -> Prop) `{forall x, Decision (P x)}
    (l : list A) (x : A) :
  filter P (l ++ [x]) = filter P l ++ (if decide (P x) then [x] else []).
Proof.
  rewrite filter_app. f_equal.
Qed.

(** The entry of a department pair: the running total over the edges
    between the two departments, in input order. *)
Lemma matrix_entry_spec (edges : list (InfluenceEdge num))
    (nodes : list (InfluenceNode num)) (s t : string) :
  entry (calculateDepartmentInfluenceMatrix edges nodes) s t =
  if decide (s = t) then None
  else match filter (crosses (nodeDepartments_of nodes) s t) edges with
       | [] => None
       | e :: es => Some (fold_left add_weight (e :: es) (n_ofZ 0))
       end.
Proof.
  unfold calculateDepartmentInfluenceMatrix.
  induction edges as [|edge edges IH] using rev_ind.
  - cbn [fold_left]. unfold entry. rewrite lookup_empty. cbn.
    by destruct (decide (s = t)).
  - rewrite fold_left_app, filter_snoc. cbn [fold_left].
    rewrite add_to_matrix_insert.
    set (matrix := fold_left (add_to_matrix (nodeDepartments_of nodes)) edges ∅) in *.
    destruct (decide (crosses (nodeDepartments_of nodes) s t edge)) as [[Hs Ht]|Hno].
    + rewrite Hs, Ht.
      rewrite (nodeDepartments_truthy nodes _ _ Hs), (nodeDepartments_truthy nodes _ _ Ht).
      cbn [andb]. destruct (String.eqb_spec s t) as [->|Hne]; cbn [negb].
      * by rewrite IH, !decide_True.
      * rewrite entry_insert, decide_True by done. rewrite decide_False by done.
        rewrite IH, decide_False by done.
        destruct (filter (crosses (nodeDepartments_of nodes) s t) edges) as [|e es].
        -- done.
        -- cbn [app default fold_left]. by rewrite fold_left_app.
    + rewrite app_nil_r.
      destruct (nodeDepartments_of nodes !! sourceUserId edge) as [sd|] eqn:Hs; [|done].
      destruct (nodeDepartments_of nodes !! targetUserId edge) as [td|] eqn:Ht; [|done].
      destruct (string_truthy sd && string_truthy td && negb (String.eqb sd td));
        [|done].
      rewrite entry_insert, decide_False; [done|].
      intros [-> ->]. by destruct Hno.
Qed.

Lemma matrix_rows_nonempty (edges : list (InfluenceEdge num))
    (nodes : list (InfluenceNode num)) (s : string) (row : gmap string num) :
  calculateDepartmentInfluenceMatrix edges nodes !! s = Some row -> row <> ∅.
Proof.
  unfold calculateDepartmentInfluenceMatrix. revert row.
  induction edges as [|edge edges IH] using rev_ind; intros row.
  - cbn [fold_left]. by rewrite lookup_empty.
  - rewrite fold_left_app. cbn [fold_left]. rewrite add_to_matrix_insert.
    destruct (nodeDepartments_of nodes !! sourceUserId edge) as [sd|]; [|apply IH].
    destruct (nodeDepartments_of nodes !! targetUserId edge) as [td|]; [|apply IH].
    destruct (string_truthy sd && string_truthy td && negb (String.eqb sd td));
      [|apply IH].
    destruct (decide (s = sd)) as [->|Hs].
    + rewrite lookup_insert_eq. intros [= <-]. apply insert_non_empty.
    + rewrite lookup_insert_ne by done. apply IH.
Qed.

(** X21: the department matrix.  A node's department is the last
    non-empty department listed for its id.  The matrix has an entry from
    [s] to [t] exactly when the two differ and some edge leads from a node
    of [s] to a node of [t]; the entry is the running total of the weights
    of these edges, in input order.  So the diagonal is empty, an edge with
    an endpoint without department counts nowhere, and no row is empty. *)
Theorem department_matrix_entries (edges : list (InfluenceEdge num))
    (nodes : list (InfluenceNode num)) :
  (forall id, nodeDepartments_of nodes !! id = last (departments_of nodes id)) /\
  (forall s t,
     entry (calculateDepartmentInfluenceMatrix edges nodes) s t =
     if decide (s = t) then None
     else match filter (crosses (nodeDepartments_of nodes) s t) edges with
          | [] => None
          | e :: es => Some (fold_left add_weight (e :: es) (n_ofZ 0))
          end) /\
  (forall s, entry (calculateDepartmentInfluenceMatrix edges nodes) s s = None) /\
  (forall s row,
     calculateDepartmentInfluenceMatrix edges nodes !! s = Some row -> row <> ∅).
Proof.
  split; [apply nodeDepartments_lookup|]. split; [apply matrix_entry_spec|].
  split; [|apply matrix_rows_nonempty].
  intros s. by rewrite matrix_entry_spec, decide_True.
Qed.

End MatrixExtra.

Lemma fold_add_weight_Q (es : list (InfluenceEdge Q)) (a b : Q) :
  (a == b)%Q ->
  (fold_left add_weight es a == b + Qsum (weight <$> es))%Q.
Proof.
  revert a b. induction es as [|e es IH]; intros a b Hab; cbn [fold_left fmap list_fmap].
  - unfold Qsum. cbn. rewrite Hab. Lqa.lra.
  - rewrite (IH _ (b + weight e)%Q).
    + unfold Qsum. cbn [fold_right]. Lqa.lra.
    + unfold add_weight. cbn [n_add Q_number]. by rewrite n_or_zero_Q, Hab.
Qed.

(** X22: on exact numbers, every entry of the department matrix is the sum
    of the weights of the edges that lead from a node of the row's
    department to a node of the column's. *)
Theorem department_matrix_sums (edges : list (InfluenceEdge Q))
    (nodes : list (InfluenceNode Q)) (s t : string) (v : Q) :
  entry (calculateDepartmentInfluenceMatrix edges nodes) s t = Some v ->
  s <> t /\
  (v == Qsum (weight <$> filter (crosses (nodeDepartments_of nodes) s t) edges))%Q.
Proof.
  rewrite matrix_entry_spec. destruct (decide (s = t)) as [|Hne]; [done|].
  destruct (filter (crosses (nodeDepartments_of nodes) s t) edges) as [|e es]; [done|].
  intros [= <-]. split; [done|].
  etransitivity; [apply (fold_add_weight_Q (e :: es) _ 0%Q); reflexivity|].
  Lqa.lra.
Qed.

Lemma department_matrix_sums_witness :
  "eng" <> "ops" /\
  (50 == Qsum (weight <$> filter (crosses (nodeDepartments_of department_nodes)
                                    "eng" "ops")
                 (scenario_edges (num:=Q))))%Q.
Proof.
  apply (department_matrix_sums scenario_edges department_nodes "eng" "ops" 50%Q).
  vm_compute. reflexivity.
Defined.

(** ** Graph metrics *)

Lemma pairs_of_S (n : nat) : pairs_of (S n) = (n + pairs_of n)%nat.
Proof.
  unfold pairs_of. replace (S n * (S n - 1))%nat with (n * 2 + n * (n - 1))%nat.
  - by rewrite Nat.div_add_l.
  - destruct n as [|n]; [done|]. cbn [Nat.sub]. rewrite !Nat.sub_0_r. lia.
Qed.

Section MetricsExtra.
Context {num : Type} `{JsNumber num}.
Implicit Types (adjacencyList : gmap string (list (InfluenceEdge num))).

Lemma count_pair_step adjacencyList (neighbor_i neighbor_j : string) (acc : nat * nat) :
  (fst acc <= fst (count_pair adjacencyList neighbor_i acc neighbor_j))%nat /\
  (fst (count_pair adjacencyList neighbor_i acc neighbor_j) <= S (fst acc))%nat /\
  snd (count_pair adjacencyList neighbor_i acc neighbor_j) = S (snd acc).
Proof.
  unfold count_pair. cbn [fst snd].
  destruct (bool_decide (neighbor_j ∈ targets_of adjacencyList neighbor_i)); lia.
Qed.

Lemma count_pair_fold adjacencyList (neighbor_i : string) (later : list string)
    (acc : nat * nat) :
  let r := fold_left (count_pair adjacencyList neighbor_i) later acc in
  (fst acc <= fst r)%nat /\ snd r = (snd acc + length later)%nat /\
  (fst r <= fst acc + length later)%nat.
Proof.
  revert acc. induction later as [|nj later IH]; intros acc; cbn [fold_left length].
  - cbv zeta. lia.
  - specialize (IH (count_pair adjacencyList neighbor_i acc nj)). cbv zeta in *.
    pose proof (count_pair_step adjacencyList neighbor_i nj acc). lia.
Qed.

Lemma count_pairs_spec adjacencyList (neighbors : list string) (acc : nat * nat) :
  let r := count_pairs adjacencyList neighbors acc in
  (fst acc <= fst r)%nat /\ snd r = (snd acc + pairs_of (length neighbors))%nat /\
  (fst r <= fst acc + pairs_of (length neighbors))%nat.
Proof.
  revert acc. induction neighbors as [|ni later IH]; intros acc;
    cbn [count_pairs length].
  - cbv zeta. unfold pairs_of. cbn. lia.
  - rewrite pairs_of_S.
    pose proof (count_pair_fold adjacencyList ni later acc) as Hj.
    specialize (IH (fold_left (count_pair adjacencyList ni) later acc)).
    cbv zeta in *. lia.
Qed.

Lemma count_nodes_fold adjacencyList (nodes : list (InfluenceNode num))
    (acc : nat * nat) :
  let r := fold_left
             (fun acc node =>
                count_pairs adjacencyList (targets_of adjacencyList (node_id node)) acc)
             nodes acc in
  snd r = (snd acc
           + sum_list ((fun node =>
                          pairs_of (length (targets_of adjacencyList (node_id node))))
                       <$> nodes))%nat /\
  (fst r + snd acc <= fst acc + snd r)%nat.
Proof.
  revert acc. induction nodes as [|node nodes IH]; intros acc;
    cbn [fold_left fmap list_fmap sum_list sum_list_with].
  - cbv zeta. lia.
  - pose proof (count_pairs_spec adjacencyList
                  (targets_of adjacencyList (node_id node)) acc) as Hp.
    specialize (IH (count_pairs adjacencyList
                      (targets_of adjacencyList (node_id node)) acc)).
    cbv zeta in *. cbn [Datatypes.id]. lia.
Qed.

Lemma count_triangles_spec adjacencyList (nodes : list (InfluenceNode num)) :
  snd (count_triangles adjacencyList nodes)
  = sum_list ((fun node =>
                 pairs_of (length (targets_of adjacencyList (node_id node))))
              <$> nodes) /\
  (fst (count_triangles adjacencyList nodes)
   <= snd (count_triangles adjacencyList nodes))%nat.
Proof.
  pose proof (count_nodes_fold adjacencyList nodes (0%nat, 0%nat)) as Hf.
  cbv zeta in Hf. cbn [fst snd] in Hf. unfold count_triangles. lia.
Qed.

(** X23: the pairs the clustering loop looks at.  For every node it looks
    at each pair of positions [i < j] among the node's outgoing edges, so
    the pairs add up to [d * (d - 1) / 2] over the nodes, [d] being the
    number of edges that leave the node; a node without a second outgoing
    edge adds none.  The triangles counted never exceed the pairs. *)
Theorem clustering_counts_pairs (edges : list (InfluenceEdge num))
    (nodes : list (InfluenceNode num)) :
  snd (count_triangles (buildAdjacencyList edges) nodes)
  = sum_list ((fun node => pairs_of (out_degree edges (node_id node))) <$> nodes) /\
  (fst (count_triangles (buildAdjacencyList edges) nodes)
   <= snd (count_triangles (buildAdjacencyList edges) nodes))%nat /\
  ((forall node, node ∈ nodes -> (out_degree edges (node_id node) <= 1)%nat) ->
   count_triangles (buildAdjacencyList edges) nodes = (0%nat, 0%nat)).
Proof.
  destruct (count_triangles_spec (buildAdjacencyList edges) nodes) as [Hposs Hle].
  assert (snd (count_triangles (buildAdjacencyList edges) nodes)
          = sum_list ((fun node => pairs_of (out_degree edges (node_id node)))
                      <$> nodes)) as Hsum.
  { rewrite Hposs. f_equal. apply list_fmap_ext. intros _ node _.
    unfold targets_of, out_degree. by rewrite length_map, neighbors_of_build. }
  split; [exact Hsum|]. split; [exact Hle|].
  intros Hdeg.
  assert (snd (count_triangles (buildAdjacencyList edges) nodes) = 0%nat) as Hz.
  { rewrite Hsum. clear Hsum Hposs Hle.
    induction nodes as [|node nodes IH]; [done|].
    cbn [fmap list_fmap sum_list]. rewrite IH.
    - pose proof (Hdeg node ltac:(left)) as Hd.
      destruct (out_degree edges (node_id node)) as [|[|d]]; [done|done|lia].
    - intros node' Hin. apply Hdeg. by right. }
  destruct (count_triangles (buildAdjacencyList edges) nodes) as [tri poss].
  cbn [fst snd] in *. f_equal; lia.
Qed.

End MetricsExtra.

Lemma fold_rawScore_Q (nodes : list (InfluenceNode Q)) (a : Q) :
  (fold_left (fun sum node => n_add sum (rawScore node)) nodes a
   == a + Qsum (rawScore <$> nodes))%Q.
Proof.
  revert a. induction nodes as [|node nodes IH]; intros a;
    cbn [fold_left fmap list_fmap].
  - unfold Qsum. cbn. Lqa.lra.
  - rewrite IH. unfold Qsum. cbn [fold_right n_add Q_number]. Lqa.lra.
Qed.

Lemma Q_ratio_bounds (a b : Z) :
  0 <= a <= b -> 0 < b -> (0 <= inject_Z a / inject_Z b <= 1)%Q.
Proof.
  intros Ha Hb.
  assert (0 < inject_Z b)%Q as Hden
    by (change 0%Q with (inject_Z 0); rewrite <- Zlt_Qlt; lia).
  assert (0 <= inject_Z a)%Q as Hnum
    by (change 0%Q with (inject_Z 0); rewrite <- Zle_Qle; lia).
  assert (inject_Z a <= inject_Z b)%Q as Hle by (rewrite <- Zle_Qle; lia).
  split.
  - apply Qle_shift_div_l; [done|]. Lqa.lra.
  - apply Qle_shift_div_r; [done|]. Lqa.lra.
Qed.

(** X24: the metrics on exact numbers.  The clustering coefficient lies
    between 0 and 1.  The density is never negative, and it is 0 exactly
    when there are fewer than two nodes or no edge.  The average influence
    times the number of nodes is the sum of the raw scores, so it is 0 for
    an empty node list. *)
Theorem graph_metrics_ranges (nodes : list (InfluenceNode Q))
    (edges : list (InfluenceEdge Q)) :
  totalNodes (calculateGraphMetrics nodes edges) = Z.of_nat (length nodes) /\
  totalEdges (calculateGraphMetrics nodes edges) = Z.of_nat (length edges) /\
  (0 <= clustering (calculateGraphMetrics nodes edges) <= 1)%Q /\
  (0 <= density (calculateGraphMetrics nodes edges))%Q /\
  ((density (calculateGraphMetrics nodes edges) == 0)%Q <->
   (length nodes <= 1)%nat \/ edges = []) /\
  (averageInfluence (calculateGraphMetrics nodes edges)
   * inject_Z (Z.of_nat (length nodes))
   == Qsum (rawScore <$> nodes))%Q.
Proof.
  unfold calculateGraphMetrics.
  cbn [totalNodes totalEdges clustering density averageInfluence n_div n_ofZ Q_number].
  change (inject_Z 0) with 0%Q.
  split; [done|]. split; [done|]. split; [|split; [|split]].
  - destruct (count_triangles_spec (buildAdjacencyList edges) nodes) as [_ Hle].
    destruct (Z.ltb_spec 0 (Z.of_nat (snd (count_triangles (buildAdjacencyList edges)
                                             nodes)))) as [Hpos|_].
    + apply Q_ratio_bounds; lia.
    + split; Lqa.lra.
  - destruct (Z.ltb_spec 0 (Z.of_nat (length nodes) * (Z.of_nat (length nodes) - 1)))
      as [Hpos|_]; [|Lqa.lra].
    assert (0 <= inject_Z (Z.of_nat (length edges)))%Q as Hnum
      by (change 0%Q with (inject_Z 0); rewrite <- Zle_Qle; lia).
    assert (0 < inject_Z (Z.of_nat (length nodes) * (Z.of_nat (length nodes) - 1)))%Q
      as Hden by (change 0%Q with (inject_Z 0); rewrite <- Zlt_Qlt; lia).
    apply Qle_shift_div_l; [done|]. Lqa.lra.
  - destruct (Z.ltb_spec 0 (Z.of_nat (length nodes) * (Z.of_nat (length nodes) - 1)))
      as [Hpos|Hnone].
    + assert (0 < inject_Z (Z.of_nat (length nodes) * (Z.of_nat (length nodes) - 1)))%Q
        as Hden by (change 0%Q with (inject_Z 0); rewrite <- Zlt_Qlt; lia).
      assert (2 <= length nodes)%nat as Htwo by nia.
      split.
      * intros Hz. right.
        assert (inject_Z (Z.of_nat (length edges)) == 0)%Q as He.
        { apply (Qmult_inj_r _ _
                   (/ inject_Z (Z.of_nat (length nodes)
                                * (Z.of_nat (length nodes) - 1)))).
          - intros Hinv.
            assert (0 < / inject_Z (Z.of_nat (length nodes)
                                    * (Z.of_nat (length nodes) - 1)))%Q
              by (by apply Qinv_lt_0_compat).
            Lqa.lra.
          - unfold Qdiv in Hz. rewrite Hz. Lqa.lra. }
        unfold Qeq, inject_Z in He. cbn [Qnum Qden] in He.
        destruct edges; [done|]. cbn [length] in He. lia.
      * intros [Hfew| ->]; [lia|]. cbn [length].
        change (inject_Z (Z.of_nat 0)) with 0%Q. unfold Qdiv. apply Qmult_0_l.
    + split; [intros _; left; nia|reflexivity].
  - destruct (Z.ltb_spec 0 (Z.of_nat (length nodes))) as [Hpos|Hnone].
    + rewrite fold_rawScore_Q.
      assert (0 < inject_Z (Z.of_nat (length nodes)))%Q as Hden
        by (change 0%Q with (inject_Z 0); rewrite <- Zlt_Qlt; lia).
      field. Lqa.lra.
    + destruct nodes; [|cbn [length] in Hnone; lia].
      unfold Qsum. cbn. reflexivity.
Qed.

(** ** Communities *)

Section CommunityExtra.
Context {num : Type} `{JsNumber num}.
Implicit Types (adjacencyList : gmap string (list (InfluenceEdge num))).
Implicit Types (labels : gmap string nat).

Lemma count_vote_labels labels (neighbors : list (InfluenceEdge num))
    (labelCounts : list (nat * num)) (l : nat) :
  l ∈ (fold_left (count_vote labels) neighbors labelCounts).*1 ->
  l ∈ labelCounts.*1 \/
  exists e, e ∈ neighbors /\ l = label_of labels (targetUserId e).
Proof.
  revert labelCounts. induction neighbors as [|e ns IH]; intros lc; cbn [fold_left].
  - by left.
  - intros [Hin|(e' & He' & ->)]%IH.
    + unfold count_vote in Hin. rewrite counts_set_keys in Hin.
      apply add_key_elem in Hin as [Hin| ->]; [by left|].
      right. exists e. split; [left|done].
    + right. exists e'. split; [by right|done].
Qed.

Lemma pick_best_label (entries : list (nat * num)) (acc : num * nat) :
  snd (fold_left pick_best entries acc) = snd acc \/
  snd (fold_left pick_best entries acc) ∈ entries.*1.
Proof.
  revert acc. induction entries as [|[l c] entries IH]; intros acc; cbn [fold_left].
  - by left.
  - destruct (IH (pick_best acc (l, c))) as [Hacc|Hin].
    + rewrite Hacc. unfold pick_best. cbn [fst snd].
      destruct (n_ltb (fst acc) c); [|by left].
      right. cbn [snd fmap list_fmap fst]. left.
    + right. cbn [fmap list_fmap]. by right.
Qed.

(** The label a node takes is its own or the label of one of its targets. *)
Lemma bestLabel_of_source labels (nodeId : string)
    (neighbors : list (InfluenceEdge num)) :
  bestLabel_of labels nodeId neighbors = label_of labels nodeId \/
  exists e, e ∈ neighbors /\
            bestLabel_of labels nodeId neighbors = label_of labels (targetUserId e).
Proof.
  unfold bestLabel_of.
  destruct (pick_best_label (fold_left (count_vote labels) neighbors [])
              (n_ofZ 0, label_of labels nodeId)) as [Hown|Hin]; [by left|].
  apply count_vote_labels in Hin as [Hin|(e & He & Hl)].
  - by apply elem_of_nil in Hin.
  - right. by exists e.
Qed.

Lemma relabel_node_inv adjacencyList (nodeIds : list string)
    (state : gmap string nat * bool) (nodeId : string) :
  nodeId ∈ nodeIds ->
  labels_inv nodeIds (fst state) ->
  labels_inv nodeIds (fst (relabel_node adjacencyList state nodeId)).
Proof.
  intros Hin [Hdom Hlt]. unfold relabel_node.
  destruct (neighbors_of adjacencyList nodeId) as [|e ns] eqn:Hns; [done|].
  destruct (decide (fst state !! nodeId = Some _)); [done|]. cbn [fst].
  assert (0 < length nodeIds)%nat as Hpos.
  { destruct nodeIds; [by apply elem_of_nil in Hin|cbn; lia]. }
  assert (forall a, (label_of (fst state) a < length nodeIds)%nat) as Hlabel.
  { intros a. unfold label_of.
    destruct (fst state !! a) as [l|] eqn:Ha; [by eapply Hlt|done]. }
  split.
  - intros a. destruct (decide (a = nodeId)) as [->|Hne].
    + rewrite lookup_insert_eq. split; [by eauto|done].
    + by rewrite lookup_insert_ne.
  - intros a l. destruct (decide (a = nodeId)) as [->|Hne].
    + rewrite lookup_insert_eq. intros [= <-].
      destruct (bestLabel_of_source (fst state) nodeId (e :: ns))
        as [->|(e' & _ & ->)]; apply Hlabel.
    + rewrite lookup_insert_ne by done. apply Hlt.
Qed.

Lemma fold_relabel_inv adjacencyList (nodeIds ids : list string)
    (state : gmap string nat * bool) :
  (forall id, id ∈ ids -> id ∈ nodeIds) ->
  labels_inv nodeIds (fst state) ->
  labels_inv nodeIds (fst (fold_left (relabel_node adjacencyList) ids state)).
Proof.
  revert state. induction ids as [|id ids IH]; intros state Hsub Hinv; [done|].
  cbn [fold_left]. apply IH.
  - intros id' Hid'. apply Hsub. by right.
  - apply relabel_node_inv; [|done]. apply Hsub. left.
Qed.

Lemma iterate_inv adjacencyList (nodeIds : list string) (n : nat) labels :
  labels_inv nodeIds labels ->
  labels_inv nodeIds (iterate n adjacencyList nodeIds labels).
Proof.
  revert labels. induction n as [|n IH]; intros labels Hinv; [done|].
  cbn [iterate].
  pose proof (fold_relabel_inv adjacencyList nodeIds nodeIds (labels, false)
                ltac:(done) Hinv) as Hit.
  fold (iteration adjacencyList nodeIds labels) in Hit.
  destruct (iteration adjacencyList nodeIds labels) as [labels' changed].
  cbn [fst] in Hit. destruct changed; [by apply IH|done].
Qed.

(** The counter labels every id with the position of its last occurrence. *)
Lemma initial_labels_position (nodeIds : list string) labels (n : nat)
    (a : string) (l : nat) :
  fst (fold_left (fun '(labels, labelCounter) nodeId =>
                    (<[nodeId := labelCounter]> labels, S labelCounter))
         nodeIds (labels, n)) !! a = Some l ->
  (labels !! a = Some l /\ a ∉ nodeIds) \/
  ((n <= l)%nat /\ nodeIds !! (l - n)%nat = Some a /\
   forall j, (l - n < j)%nat -> nodeIds !! j <> Some a).
Proof.
  revert labels n. induction nodeIds as [|id ids IH]; intros labels n;
    cbn [fold_left].
  - cbn [fst]. intros Hl. left. split; [done|]. apply not_elem_of_nil.
  - intros [[Hl Hnin]|(Hle & Hpos & Hlast)]%IH.
    + destruct (decide (a = id)) as [->|Hne].
      * rewrite lookup_insert_eq in Hl. injection Hl as <-. right.
        split; [done|]. rewrite Nat.sub_diag. split; [done|].
        intros [|j] Hj; [lia|]. cbn [lookup list_lookup]. intros Hin.
        apply Hnin. by eapply list_elem_of_lookup_2.
      * rewrite lookup_insert_ne in Hl by done. left. split; [done|].
        by apply not_elem_of_cons.
    + right. split; [lia|].
      replace (l - n)%nat with (S (l - S n)) by lia. split; [done|].
      intros [|j] Hj; [lia|]. apply Hlast. lia.
Qed.

Lemma initial_labels_inv (nodeIds : list string) :
  labels_inv nodeIds (initial_labels nodeIds).
Proof.
  split.
  - intros a.
    destruct (initial_labels_fold nodeIds ∅ 0) as [Hdom _].
    + intros ? ?. by rewrite lookup_empty.
    + intros ? ? ?. by rewrite lookup_empty.
    + cbv zeta in Hdom. unfold initial_labels. rewrite Hdom, lookup_empty.
      split; [by right|]. by intros [[? ?]|?].
  - intros a l Hl. unfold initial_labels in Hl.
    apply initial_labels_position in Hl as [[Hl _]|(_ & Hpos & _)].
    + by rewrite lookup_empty in Hl.
    + rewrite Nat.sub_0_r in Hpos. by apply lookup_lt_Some in Hpos.
Qed.

Lemma relabel_node_keeps adjacencyList (state : gmap string nat * bool)
    (nodeId id : string) :
  neighbors_of adjacencyList id = [] ->
  fst (relabel_node adjacencyList state nodeId) !! id = fst state !! id.
Proof.
  intros Hnone. unfold relabel_node.
  destruct (neighbors_of adjacencyList nodeId) as [|e ns] eqn:Hns; [done|].
  destruct (decide (fst state !! nodeId = Some _)); [done|]. cbn [fst].
  rewrite lookup_insert_ne; [done|]. intros ->. by rewrite Hnone in Hns.
Qed.

Lemma fold_relabel_keeps adjacencyList (ids : list string)
    (state : gmap string nat * bool) (id : string) :
  neighbors_of adjacencyList id = [] ->
  fst (fold_left (relabel_node adjacencyList) ids state) !! id = fst state !! id.
Proof.
  intros Hnone. revert state. induction ids as [|id' ids IH]; intros state; [done|].
  cbn [fold_left]. by rewrite IH, relabel_node_keeps.
Qed.

Lemma iterate_keeps adjacencyList (nodeIds : list string) (n : nat) labels
    (id : string) :
  neighbors_of adjacencyList id = [] ->
  iterate n adjacencyList nodeIds labels !! id = labels !! id.
Proof.
  intros Hnone. revert labels. induction n as [|n IH]; intros labels; [done|].
  cbn [iterate].
  pose proof (fold_relabel_keeps adjacencyList nodeIds (labels, false) id Hnone)
    as Hit.
  fold (iteration adjacencyList nodeIds labels) in Hit.
  destruct (iteration adjacencyList nodeIds labels) as [labels' changed].
  cbn [fst] in Hit. destruct changed; [by rewrite IH|done].
Qed.

(** X25: the labels stay within the listed nodes.  [detectCommunities]
    labels exactly the listed nodes.  A node starts with the position of
    its last occurrence in the list, and every label of the result is the
    position of a listed node.  A node without outgoing edge ends with the
    label it started with, so a graph without edges leaves every node in a
    community of its own. *)
Theorem communities_stay_within_the_nodes (edges : list (InfluenceEdge num))
    (nodeIds : list string) :
  (forall id, id ∈ nodeIds <-> is_Some (detectCommunities edges nodeIds !! id)) /\
  (forall id l, initial_labels nodeIds !! id = Some l ->
     nodeIds !! l = Some id /\
     forall j, (l < j)%nat -> nodeIds !! j <> Some id) /\
  (forall id l, detectCommunities edges nodeIds !! id = Some l ->
     (l < length nodeIds)%nat) /\
  (forall id, out_degree edges id = 0%nat ->
     detectCommunities edges nodeIds !! id = initial_labels nodeIds !! id) /\
  detectCommunities [] nodeIds = initial_labels nodeIds.
Proof.
  pose proof (iterate_inv (buildAdjacencyList edges) nodeIds maxIterations
                (initial_labels nodeIds) (initial_labels_inv nodeIds)) as [Hdom Hlt].
  fold (detectCommunities edges nodeIds) in Hdom, Hlt.
  split; [exact Hdom|]. split; [|split; [exact Hlt|split]].
  - intros id l Hl. unfold initial_labels in Hl.
    apply initial_labels_position in Hl as [[Hl _]|(_ & Hpos & Hlast)].
    + by rewrite lookup_empty in Hl.
    + rewrite Nat.sub_0_r in Hpos, Hlast. by split.
  - intros id Hdeg. unfold detectCommunities. apply iterate_keeps.
    rewrite neighbors_of_build. unfold out_degree in Hdeg.
    by apply nil_length_inv.
  - apply map_eq. intros id. unfold detectCommunities. by apply iterate_keeps.
Qed.

End CommunityExtra.

(** ** Ranking *)

Section SortedInput.
Context {A : Type} (key : A -> Q) (compareFn : A -> A -> Q).
Hypothesis compare_key : forall a b, compareFn a b = (key b - key a)%Q.

(** Sorting leaves a list in descending order as it is. *)
Lemma Array_sort_sorted_id (l : list A) :
  StronglySorted (fun x y => (key y <= key x)%Q) l ->
  Array_sort compareFn l = l.
Proof.
  induction 1 as [|a l Hl IH Ha]; [done|].
  rewrite Array_sort_cons, IH. destruct l as [|b l]; [done|].
  rewrite sort_insert_cons.
  destruct (n_ltb (n_ofZ 0) (compareFn a b)) eqn:Hc; [|done].
  apply (moves_behind_iff key compareFn compare_key) in Hc.
  apply Forall_cons in Ha as [Hb _]. Lqa.lra.
Qed.

End SortedInput.

(** X26: the limit of [findTopInfluencers].  The list for a smaller limit
    is the head of the list for a larger one; a limit of the number of
    nodes or more returns all the nodes; a negative limit does not return
    an empty list but leaves out that many nodes from the low end; and
    ranking the returned list again with the same metric and limit returns
    it unchanged. *)
Theorem top_influencers_limits (nodes : list (InfluenceNode Q)) (metric : Metric) :
  (forall limit1 limit2, 0 <= limit1 <= limit2 ->
     findTopInfluencers nodes metric limit1
     = take (Z.to_nat limit1) (findTopInfluencers nodes metric limit2)) /\
  (forall limit, Z.of_nat (length nodes) <= limit ->
     findTopInfluencers nodes metric limit ≡ₚ nodes) /\
  (forall limit, limit < 0 ->
     findTopInfluencers nodes metric limit
     = take (length nodes - Z.to_nat (- limit))
         (findTopInfluencers nodes metric (Z.of_nat (length nodes)))) /\
  (forall limit, 0 <= limit ->
     findTopInfluencers (findTopInfluencers nodes metric limit) metric limit
     = findTopInfluencers nodes metric limit).
Proof.
  assert (Array_sort (compareNodes metric) nodes ≡ₚ nodes) as Hperm
    by apply Array_sort_perm.
  assert (length (Array_sort (compareNodes metric) nodes) = length nodes) as Hlen
    by (by rewrite Hperm).
  assert (StronglySorted (fun a b => (metric_key metric b <= metric_key metric a)%Q)
            (Array_sort (compareNodes metric) nodes)) as Hsorted
    by apply Array_sort_sorted, compareNodes_key.
  unfold findTopInfluencers, Array_slice0.
  split; [|split; [|split]].
  - intros limit1 limit2 [H1 H2].
    destruct (Z.ltb_spec limit1 0) as [?|_]; [lia|].
    destruct (Z.ltb_spec limit2 0) as [?|_]; [lia|].
    rewrite take_take. f_equal. lia.
  - intros limit Hall. destruct (Z.ltb_spec limit 0) as [?|_]; [lia|].
    rewrite firstn_all2 by lia. exact Hperm.
  - intros limit Hneg. destruct (Z.ltb_spec limit 0) as [_|?]; [|lia].
    destruct (Z.ltb_spec (Z.of_nat (length nodes)) 0) as [?|_]; [lia|].
    rewrite take_take. f_equal. lia.
  - intros limit Hlimit. destruct (Z.ltb_spec limit 0) as [?|_]; [lia|].
    set (sorted := Array_sort (compareNodes metric) nodes) in *.
    rewrite (Array_sort_sorted_id (metric_key metric) (compareNodes metric)
               (compareNodes_key metric))
      by (by apply StronglySorted_take).
    rewrite take_take. f_equal. rewrite length_take. lia.
Qed.

(** ** The recompute cycle *)

Section SortAnyNumber.
Context {num : Type} `{JsNumber num} {A : Type} (compareFn : A -> A -> num).

Lemma sort_insert_permutation (a : A) (l : list A) :
  sort_insert compareFn a l ≡ₚ a :: l.
Proof.
  induction l as [|b l IH]; [done|]. cbn [sort_insert].
  destruct (n_ltb (n_ofZ 0) (compareFn a b)); [|done].
  rewrite IH. apply Permutation_swap.
Qed.

Lemma Array_sort_permutation (l : list A) : Array_sort compareFn l ≡ₚ l.
Proof.
  induction l as [|a l IH]; [done|].
  unfold Array_sort in *. cbn [foldr]. rewrite sort_insert_permutation.
  by constructor.
Qed.

End SortAnyNumber.

Section SortByRealKey.
Context {A : Type} (key : A -> R).

Lemma sort_insert_descending (a : A) (l : list A) :
  StronglySorted (fun x y => (key y <= key x)%R) l ->
  StronglySorted (fun x y => (key y <= key x)%R)
    (sort_insert (fun x y => n_sub (key y) (key x)) a l).
Proof.
  induction 1 as [|b l Hl IH Hb]; [repeat constructor|].
  cbn [sort_insert n_ltb n_sub n_ofZ R_number].
  destruct (Rlt_dec 0 (key b - key a)) as [Hlt|Hge].
  - constructor; [exact IH|].
    rewrite (sort_insert_permutation (num:=R)). constructor; [lra|done].
  - constructor; [by constructor|]. constructor; [lra|].
    eapply Forall_impl; [exact Hb|]. cbn. intros y Hy. lra.
Qed.

Lemma Array_sort_descending (l : list A) :
  StronglySorted (fun x y => (key y <= key x)%R)
    (Array_sort (fun x y => n_sub (key y) (key x)) l).
Proof.
  induction l as [|a l IH]; [constructor|].
  unfold Array_sort in *. cbn [foldr]. by apply sort_insert_descending.
Qed.

End SortByRealKey.

Lemma Forall2_same {A : Type} (R : A -> A -> Prop) (l : list A) :
  (forall x, R x x) -> Forall2 R l l.
Proof. intros Hrefl. induction l; by constructor. Qed.

Section RecalculateExtra.
Context {num : Type} `{JsNumber num} `{JsMath num}.
Implicit Types (db : Database num) (rows : list (ScoreRow num)).

Lemma update_score_rows_lookup (now : Z) (d : ScoreData num) (v : num) (rank : nat)
    rows (i : nat) (s : ScoreRow num) :
  rows !! i = Some s ->
  exists s1,
    update_score_rows now d v rank rows !! i = Some s1 /\
    sr_userId s1 = sr_userId s /\ sr_scoreType s1 = sr_scoreType s /\
    (sr_scoreType s <> "TOTAL" \/ sr_userId s <> sd_id d -> s1 = s).
Proof.
  intros Hs. unfold update_score_rows. rewrite list_lookup_fmap, Hs.
  cbn [fmap option_fmap option_map]. eexists. split; [reflexivity|].
  destruct (bool_decide_reflect
              (sr_userId s = sd_id d /\ sr_scoreType s = "TOTAL")) as [[Hu Ht]|Hno].
  - cbn [sr_userId sr_scoreType]. split; [done|]. split; [done|].
    intros [?|?]; done.
  - split; [done|]. split; [done|]. done.
Qed.

(** The score rows after the loop over [scoresWithIds]: none is added or
    removed, each keeps its user and its type, and only the TOTAL rows of
    the users in the list are rewritten. *)
Lemma fold_update_rows (now : Z) (historicalScores : list (ScoreRow num))
    (scoresWithIds : list (ScoreData num))
    (acc : list (ScoreRow num) * list (ScoreUpdate num) * nat) :
  length (fst (fst (fold_left (update_one now historicalScores) scoresWithIds acc)))
    = length (fst (fst acc)) /\
  forall i s, fst (fst acc) !! i = Some s ->
    exists s',
      fst (fst (fold_left (update_one now historicalScores) scoresWithIds acc)) !! i
        = Some s' /\
      sr_userId s' = sr_userId s /\ sr_scoreType s' = sr_scoreType s /\
      (sr_scoreType s <> "TOTAL" \/ sr_userId s ∉ (sd_id <$> scoresWithIds) ->
       s' = s).
Proof.
  revert acc. induction scoresWithIds as [|d ds IH]; intros [[rows ups] i0].
  - cbn [fold_left fst]. split; [done|]. intros i s Hs. by exists s.
  - cbn [fold_left]. destruct (IH (update_one now historicalScores (rows, ups, i0) d))
      as [Hlen Hrows].
    cbn [update_one fst] in *. split.
    + rewrite Hlen. unfold update_score_rows. by rewrite length_fmap.
    + intros i s Hs.
      destruct (update_score_rows_lookup now d
                  (calculateVolatility
                     (take 10
                        (newScore d
                         :: (sr_score <$>
                             filter (fun s => sr_userId s = sd_id d) historicalScores))))
                  (i0 + 1) rows i s Hs) as (s1 & Hs1 & Hid1 & Hty1 & Hsame1).
      destruct (Hrows i s1 Hs1) as (s' & Hs' & Hid & Hty & Hsame).
      exists s'. split; [exact Hs'|]. split; [congruence|]. split; [congruence|].
      intros Hcond.
      assert (s1 = s) as ->.
      { apply Hsame1. destruct Hcond as [?|Hnin]; [by left|]. right.
        intros Hu. apply Hnin. rewrite Hu. cbn [fmap list_fmap]. left. }
      apply Hsame. destruct Hcond as [?|Hnin]; [by left|]. right.
      intros Hin. apply Hnin. cbn [fmap list_fmap]. by right.
Qed.

(** The ranks pushed by the loop count up from the index it starts at. *)
Lemma fold_update_ranks (now : Z) (historicalScores : list (ScoreRow num))
    (scoresWithIds : list (ScoreData num))
    (acc : list (ScoreRow num) * list (ScoreUpdate num) * nat) :
  su_rank <$> snd (fst (fold_left (update_one now historicalScores) scoresWithIds acc))
  = (su_rank <$> snd (fst acc)) ++ seq (snd acc + 1) (length scoresWithIds).
Proof.
  revert acc. induction scoresWithIds as [|d ds IH]; intros [[rows ups] i0].
  - cbn [fold_left fst snd length seq]. by rewrite app_nil_r.
  - cbn [fold_left]. rewrite IH. cbn [update_one fst snd length seq].
    rewrite fmap_app, <- app_assoc. cbn [fmap list_fmap su_rank app].
    by replace (S i0 + 1)%nat with (S (i0 + 1)) by lia.
Qed.

Lemma mark_processed_frame (now : Z) (ids : list string) (events : list (EventRow num)) :
  Forall2 (fun ev ev' => ev' = ev \/ ev' = with_processedAt now ev)
    events (mark_processed now ids events).
Proof.
  unfold mark_processed. induction events as [|ev events IH]; [constructor|].
  rewrite fmap_cons. constructor; [|exact IH].
  destruct (bool_decide (ev_id ev ∈ ids)); [by right|by left].
Qed.

(** The route with fuel for the traversals, in terms of its loop. *)
Lemma POST_loop (fuel : nat) (now : Z) db (body : Request) :
  organizationId body <> "" ->
  (tree_size (length (active_edges (organizationId body) db)) (Z.to_nat MAX_DEPTH)
   <= fuel)%nat ->
  exists propagationResults historicalScores eventImpact r,
    r = fold_left (update_one now historicalScores)
          (Array_sort (fun a b => n_sub (newScore b) (newScore a))
             (score_user now (applyDecay body) propagationResults eventImpact
                <$> active_users (organizationId body) db))
          (influenceScore db, [], 0%nat) /\
    POST_steps_1_to_8 fuel now db body =
      Some (Success
              {| usersProcessed := length (active_users (organizationId body) db);
                 edgesProcessed := length (active_edges (organizationId body) db);
                 eventsProcessed :=
                   length (if processEvents body
                           then pending_events (organizationId body) db else []);
                 scoresUpdated := length (snd (fst r)) |}
              (snd (fst r)),
            {| influenceEdge := influenceEdge db;
               influenceEvent :=
                 match (if processEvents body
                        then pending_events (organizationId body) db else []) with
                 | [] => influenceEvent db
                 | _ :: _ =>
                     mark_processed now
                       (ev_id <$> (if processEvents body
                                   then pending_events (organizationId body) db else []))
                       (influenceEvent db)
                 end;
               user := user db;
               influenceScore := fst (fst r) |}).
Proof.
  intros Horg Hfuel. unfold POST_steps_1_to_8. rewrite bool_decide_eq_false_2 by done.
  destruct (calculate_results fuel
              (typedEdge now (applyDecay body)
                 <$> active_edges (organizationId body) db)
              (u_id <$> active_users (organizationId body) db)
              MAX_DEPTH DECAY_FACTOR) as (results & -> & _).
  { unfold propagation_fuel. by rewrite length_fmap. }
  match goal with
  | |- context [fold_left (update_one now ?h)
                  (Array_sort _ (score_user _ _ _ ?impact <$> _)) ?a] =>
      exists results, h, impact; eexists; split; [reflexivity|]
  end.
  by destruct (fold_left (update_one now _) _ _) as [[scoreRows scoreUpdates] i].
Qed.

End RecalculateExtra.

(** ** Invalidation *)

Lemma append_assoc (a b c : string) : (a +:+ b) +:+ c = a +:+ (b +:+ c).
Proof.
  induction a as [|x a IH]; [done|]. by rewrite !append_cons, IH.
Qed.

Lemma plain_append (a b : string) : plain (a +:+ b) = plain a && plain b.
Proof.
  induction a as [|x a IH]; [done|].
  rewrite append_cons. cbn [plain]. by rewrite IH, andb_assoc.
Qed.

Lemma occurs_in_prefix (p rest : string) : occurs_in p (p +:+ rest).
Proof. by exists EmptyString, rest. Qed.

Lemma append_empty_r (a : string) : a +:+ EmptyString = a.
Proof. induction a as [|x a IH]; [done|]. by rewrite append_cons, IH. Qed.

Lemma occurs_in_self (p : string) : occurs_in p p.
Proof. exists EmptyString, EmptyString. by rewrite append_empty_r. Qed.

Section InvalidationExtra.
Context {T : Type}.
Implicit Types (c : InfluenceCache.t T).

Lemma deletePattern_prefix_lookup (p : string) c :
  plain p = true ->
  exists n c',
    InfluenceCache.deletePattern (p +:+ "*") c = Some (n, c') /\
    InfluenceCache.stats c' = InfluenceCache.stats c /\
    (forall k, occurs_in p k -> InfluenceCache.cache c' !! k = None) /\
    (forall k, ~ occurs_in p k ->
       InfluenceCache.cache c' !! k = InfluenceCache.cache c !! k) /\
    InfluenceCache.cache c' ⊆ InfluenceCache.cache c.
Proof.
  intros Hp.
  destruct (deletePattern_spec (p +:+ "*") _ c (RegExp_prefix_glob p Hp))
    as (c' & Hdel & Hstats & Hlook).
  eexists _, c'. split; [exact Hdel|]. split; [exact Hstats|].
  split; [|split].
  - intros k Hk. rewrite Hlook. apply test_prefix_glob in Hk. by rewrite Hk.
  - intros k Hk. rewrite Hlook.
    destruct (test (literal p ++ [(AnyChar, true)]) k) eqn:Htest; [|done].
    apply test_prefix_glob in Htest. by destruct Hk.
  - apply map_subseteq_spec. intros k e. rewrite Hlook.
    by destruct (test (literal p ++ [(AnyChar, true)]) k).
Qed.

(** X29: the invalidation after a recalculation reaches the keys in use.
    For an organization id without special characters the four calls of
    [deletePattern] succeed; afterwards the cache holds no graph, no
    analytics, no scores and no top-influencers entry of the organization,
    whatever the analytics type and the metric; it holds nothing it did not
    hold before, its counters are untouched, and a key in which none of the
    four prefixes occurs has kept its entry. *)
Theorem invalidation_reaches_the_keys_in_use (organizationId : string) c :
  plain organizationId = true ->
  exists c',
    invalidate_caches organizationId c = Some c' /\
    InfluenceCache.stats c' = InfluenceCache.stats c /\
    InfluenceCache.cache c' ⊆ InfluenceCache.cache c /\
    InfluenceCache.cache c' !! CacheKeys.graph organizationId = None /\
    (forall type,
       InfluenceCache.cache c'
         !! CacheKeys.analytics (organizationId +:+ ":" +:+ type) = None) /\
    InfluenceCache.cache c' !! CacheKeys.influenceScores organizationId = None /\
    (forall metric,
       InfluenceCache.cache c' !! CacheKeys.topInfluencers organizationId metric
       = None) /\
    (forall k,
       ~ occurs_in ("graph:" +:+ organizationId) k ->
       ~ occurs_in ("scores:" +:+ organizationId) k ->
       ~ occurs_in ("analytics:" +:+ organizationId) k ->
       ~ occurs_in ("top:" +:+ organizationId) k ->
       InfluenceCache.cache c' !! k = InfluenceCache.cache c !! k).
Proof.
  intros Horg.
  assert (forall prefix, plain prefix = true ->
            plain (prefix +:+ organizationId) = true) as Hplain.
  { intros prefix Hp. by rewrite plain_append, Hp, Horg. }
  destruct (deletePattern_prefix_lookup ("graph:" +:+ organizationId) c
              (Hplain "graph:" eq_refl)) as (n1 & c1 & Hd1 & Hs1 & Hin1 & Hout1 & Hsub1).
  destruct (deletePattern_prefix_lookup ("scores:" +:+ organizationId) c1
              (Hplain "scores:" eq_refl)) as (n2 & c2 & Hd2 & Hs2 & Hin2 & Hout2 & Hsub2).
  destruct (deletePattern_prefix_lookup ("analytics:" +:+ organizationId) c2
              (Hplain "analytics:" eq_refl)) as (n3 & c3 & Hd3 & Hs3 & Hin3 & Hout3 & Hsub3).
  destruct (deletePattern_prefix_lookup ("top:" +:+ organizationId) c3
              (Hplain "top:" eq_refl)) as (n4 & c4 & Hd4 & Hs4 & Hin4 & Hout4 & Hsub4).
  assert (forall k, InfluenceCache.cache c1 !! k = None ->
                    InfluenceCache.cache c4 !! k = None) as Hgone1.
  { intros k Hk. eapply lookup_weaken_None; [|exact Hsub4].
    eapply lookup_weaken_None; [|exact Hsub3].
    eapply lookup_weaken_None; [|exact Hsub2]. done. }
  assert (forall k, InfluenceCache.cache c2 !! k = None ->
                    InfluenceCache.cache c4 !! k = None) as Hgone2.
  { intros k Hk. eapply lookup_weaken_None; [|exact Hsub4].
    eapply lookup_weaken_None; [|exact Hsub3]. done. }
  assert (forall k, InfluenceCache.cache c3 !! k = None ->
                    InfluenceCache.cache c4 !! k = None) as Hgone3.
  { intros k Hk. eapply lookup_weaken_None; [|exact Hsub4]. done. }
  exists c4. unfold invalidate_caches. rewrite Hd1, Hd2, Hd3, Hd4.
  split; [done|]. split; [congruence|].
  split; [by repeat (etransitivity; [eassumption|])|].
  split; [apply Hgone1, Hin1, occurs_in_self|].
  split.
  { intros type. apply Hgone3, Hin3. unfold CacheKeys.analytics.
    rewrite <- append_assoc. apply occurs_in_prefix. }
  split; [apply Hgone2, Hin2, occurs_in_self|].
  split.
  { intros metric. apply Hin4. unfold CacheKeys.topInfluencers.
    rewrite <- append_assoc. apply occurs_in_prefix. }
  intros k H1 H2 H3 H4. by rewrite Hout4, Hout3, Hout2, Hout1.
Qed.

End InvalidationExtra.

Lemma invalidation_reaches_the_keys_in_use_witness :
  exists c',
    invalidate_caches "org1" sample_cache = Some c' /\
    InfluenceCache.stats c' = InfluenceCache.stats sample_cache /\
    InfluenceCache.cache c' ⊆ InfluenceCache.cache sample_cache /\
    InfluenceCache.cache c' !! CacheKeys.graph "org1" = None /\
    (forall type,
       InfluenceCache.cache c' !! CacheKeys.analytics ("org1" +:+ ":" +:+ type) = None) /\
    InfluenceCache.cache c' !! CacheKeys.influenceScores "org1" = None /\
    (forall metric,
       InfluenceCache.cache c' !! CacheKeys.topInfluencers "org1" metric = None) /\
    (forall k,
       ~ occurs_in ("graph:" +:+ "org1") k ->
       ~ occurs_in ("scores:" +:+ "org1") k ->
       ~ occurs_in ("analytics:" +:+ "org1") k ->
       ~ occurs_in ("top:" +:+ "org1") k ->
       InfluenceCache.cache c' !! k = InfluenceCache.cache sample_cache !! k).
Proof.
  apply (invalidation_reaches_the_keys_in_use "org1" sample_cache). reflexivity.
Defined.

(** ** Decay per level *)

Lemma Qpower_succ (d : Q) (n : Z) : 0 <= n -> (d ^ (n + 1) == d ^ n * d)%Q.
Proof. intros Hn. rewrite Qpower.Qpower_plus' by lia. reflexivity. Qed.

Lemma Qpower_unit_range (d : Q) (n : Z) :
  (0 <= d <= 1)%Q -> 0 <= n -> (0 <= d ^ n <= 1)%Q.
Proof.
  intros Hd. revert n. apply natlike_ind.
  - cbn. split; Lqa.lra.
  - intros n Hn IH. unfold Z.succ. rewrite Qpower_succ by done. split.
    + apply Qmult_le_0_compat; tauto.
    + assert (d ^ n * d <= 1 * d)%Q as H1
        by (apply Qmult_le_compat_r; tauto).
      Lqa.lra.
Qed.

Lemma Qpower_falls (d : Q) (n m : Z) :
  (0 <= d <= 1)%Q -> 0 <= n <= m -> (d ^ m <= d ^ n)%Q.
Proof.
  intros Hd [Hn Hm]. replace m with (n + (m - n)) by lia.
  destruct (decide (m - n = 0)) as [->|Hne].
  - rewrite Z.add_0_r. Lqa.lra.
  - rewrite Qpower.Qpower_plus' by lia.
    pose proof (Qpower_unit_range d n Hd Hn) as [H0 _].
    pose proof (Qpower_unit_range d (m - n) Hd ltac:(lia)) as [_ H1].
    assert (d ^ n * d ^ (m - n) <= d ^ n * 1)%Q as Hle.
    { rewrite !(Qmult_comm (d ^ n)). by apply Qmult_le_compat_r. }
    Lqa.lra.
Qed.

Lemma level_step (edges : list (InfluenceEdge Q)) (maxDepth : Z) (decayFactor : Q)
    (current : QueueItem Q) (rest : list (QueueItem Q)) (st : LoopState Q) :
  (0 <= decayFactor <= 1)%Q ->
  Forall (fun e => (0 <= weight e <= 100)%Q) edges ->
  queue st = current :: rest ->
  level_inv decayFactor st ->
  level_inv decayFactor
    (loop_body (buildAdjacencyList edges) maxDepth decayFactor current rest st).
Proof.
  intros Hd Hw Hq [Hqueue Hpaths]. rewrite Hq in Hqueue.
  apply Forall_cons in Hqueue as [(Hdepth & Hcur) Hrest].
  unfold level_inv. rewrite loop_body_queue, loop_body_paths. split.
  - apply Forall_app. split; [done|].
    destruct (maxDepth <=? q_depth current); [constructor|].
    apply Forall_forall. intros it (e & He & _ & Hweight & _ & Hit)%children_spec.
    rewrite neighbors_of_build in He. apply list_elem_of_filter in He as [_ He].
    rewrite Forall_forall in Hw. specialize (Hw e He).
    rewrite Hit, Hweight. cbn [n_mul n_div n_ofZ Q_number].
    split; [lia|]. rewrite Qpower_succ by done.
    assert (0 <= weight e / inject_Z 100 <= 1)%Q as Hshare.
    { unfold Qdiv. change (/ inject_Z 100)%Q with (1 # 100)%Q. split; Lqa.lra. }
    assert (0 <= q_weight current * (weight e / inject_Z 100))%Q as H0
      by (apply Qmult_le_0_compat; tauto).
    assert (q_weight current * (weight e / inject_Z 100) <= q_weight current * 1)%Q
      as H1.
    { rewrite !(Qmult_comm (q_weight current)). apply Qmult_le_compat_r; tauto. }
    split.
    + apply Qmult_le_0_compat; tauto.
    + assert (q_weight current * (weight e / inject_Z 100) * decayFactor
              <= decayFactor ^ q_depth current * decayFactor)%Q as H2
        by (apply Qmult_le_compat_r; [Lqa.lra|tauto]).
      exact H2.
  - apply Forall_app. split; [done|].
    destruct (0 <? q_depth current); [|constructor].
    apply Forall_singleton. by cbn [depth path_weight].
Qed.

(** X30: influence decays per level.  On exact numbers, with a decay
    factor between 0 and 1 and edge weights between 0 and 100, the weight
    of a recorded path lies between the threshold 0.01 and the decay factor
    raised to the depth of the path.  So the threshold bounds the depth
    whatever the depth limit: no path is recorded at a depth at which the
    decay factor's power has fallen under 0.01. *)
Theorem path_weight_decays_per_level (edges : list (InfluenceEdge Q))
    (nodeIds : list string) (maxDepth : Z) (decayFactor : Q) :
  (0 <= decayFactor <= 1)%Q ->
  Forall (fun e => (0 <= weight e <= 100)%Q) edges ->
  exists results,
    (forall fuel, (propagation_fuel edges maxDepth <= fuel)%nat ->
       calculatePropagatedInfluence fuel edges nodeIds maxDepth decayFactor
       = Some results) /\
    forall id r p, results !! id = Some r -> p ∈ paths r ->
      (1 # 100 <= path_weight p <= decayFactor ^ depth p)%Q /\
      forall k, 0 <= k -> (decayFactor ^ k < 1 # 100)%Q -> depth p < k.
Proof.
  intros Hd Hw.
  destruct (propagation_results edges nodeIds maxDepth decayFactor)
    as (results & Hres & _ & Hloop).
  exists results. split; [exact Hres|]. intros id r p Hr Hp.
  destruct (Hloop id r Hr) as (st & Hst & ->). cbn [paths] in Hp.
  pose proof Hst as Hst'.
  apply (while_loop_invariant (level_inv decayFactor)) in Hst.
  - apply (while_loop_invariant threshold_inv) in Hst'.
    + destruct Hst as [_ Hlevel]. destruct Hst' as [_ Hmin].
      rewrite Forall_forall in Hlevel, Hmin.
      destruct (Hlevel p Hp) as (Hdepth & _ & Hupper). specialize (Hmin p Hp).
      apply n_ltb_Q_false in Hmin.
      assert (1 # 100 <= path_weight p)%Q as Hlower.
      { apply Qle_trans with (y := MIN_WEIGHT_THRESHOLD); [|exact Hmin].
        by apply Qle_bool_imp_le. }
      split; [by split|]. intros k Hk Hsmall.
      destruct (Z.lt_ge_cases (depth p) k) as [|Hge]; [done|].
      pose proof (Qpower_falls decayFactor k (depth p) Hd ltac:(lia)). Lqa.lra.
    + intros current rest st0 Hq [Hqueue Hpaths]. rewrite Hq in Hqueue.
      apply Forall_cons in Hqueue as [Hcur Hrest].
      unfold threshold_inv. rewrite loop_body_queue, loop_body_paths. split.
      * apply Forall_app. split; [done|].
        destruct (maxDepth <=? q_depth current); [constructor|].
        apply Forall_forall. intros it Hit. right. by eapply children_threshold.
      * apply Forall_app. split; [done|].
        destruct (Z.ltb_spec 0 (q_depth current)); [|constructor].
        apply Forall_singleton. cbn [path_weight]. destruct Hcur; [lia|done].
    + split; [|constructor]. apply Forall_singleton. by left.
  - intros current rest st0. by apply level_step.
  - split; [|constructor]. apply Forall_singleton.
    cbn [initial_state queue q_depth q_weight]. split; [done|].
    change (decayFactor ^ 0)%Q with 1%Q. split; by apply Qle_bool_imp_le.
Qed.

Lemma path_weight_decays_per_level_witness :
  exists results,
    (forall fuel, (propagation_fuel (scenario_edges (num:=Q)) 3 <= fuel)%nat ->
       calculatePropagatedInfluence fuel scenario_edges ["A"; "B"] 3 (dec 6 1)
       = Some results) /\
    forall id r p, results !! id = Some r -> p ∈ paths r ->
      (1 # 100 <= path_weight p <= dec 6 1 ^ depth p)%Q /\
      forall k, 0 <= k -> (dec 6 1 ^ k < 1 # 100)%Q -> depth p < k.
Proof.
  apply (path_weight_decays_per_level scenario_edges ["A"; "B"] 3 (dec 6 1)).
  - split; by apply Qle_bool_imp_le.
  - repeat constructor; by apply Qle_bool_imp_le.
Defined.

(** ** The route as a whole, further properties *)

(** An organization id without special characters: every pattern of step 9
    has a regular expression, and none throws. *)
Lemma plain_invalidation (organizationId : string) :
  plain organizationId = true ->
  invalidation_covered organizationId = true /\
  invalidation_throws organizationId = false.
Proof.
  intros Horg.
  assert (forall prefix, plain prefix = true ->
            pattern_compiles ((prefix +:+ organizationId) +:+ "*") = true /\
            pattern_throws ((prefix +:+ organizationId) +:+ "*") = false) as Hone.
  { intros prefix Hp.
    assert (plain (prefix +:+ organizationId) = true) as Hplain
      by (by rewrite plain_append, Hp, Horg).
    pose proof (RegExp_prefix_glob _ Hplain) as Hre.
    unfold pattern_compiles, pattern_throws. rewrite Hre. split; [done|].
    by eapply RegExp_Some_not_throws. }
  destruct (Hone "graph:" eq_refl) as [Hc1 Ht1].
  destruct (Hone "scores:" eq_refl) as [Hc2 Ht2].
  destruct (Hone "analytics:" eq_refl) as [Hc3 Ht3].
  destruct (Hone "top:" eq_refl) as [Hc4 Ht4].
  unfold invalidation_covered, invalidation_throws, invalidation_patterns.
  cbn [forallb existsb]. by rewrite Hc1, Hc2, Hc3, Hc4, Ht1, Ht2, Ht3, Ht4.
Qed.

Section RouteExtra.
Context {num : Type} `{JsNumber num} `{JsMath num} {T : Type}.
Implicit Types (db : Database num) (c : InfluenceCache.t T).

Lemma steps_1_to_8_frame (fuel : nat) (now : Z) db
    (body : Request) :
  (tree_size (length (active_edges (organizationId body) db)) (Z.to_nat MAX_DEPTH)
   <= fuel)%nat ->
  exists answer db',
    POST_steps_1_to_8 fuel now db body = Some (answer, db') /\
    (answer = BadRequest <-> organizationId body = "") /\
    (organizationId body = "" -> db' = db) /\
    influenceEdge db' = influenceEdge db /\
    user db' = user db /\
    length (influenceScore db') = length (influenceScore db) /\
    (forall i s, influenceScore db !! i = Some s ->
       exists s', influenceScore db' !! i = Some s' /\
         sr_userId s' = sr_userId s /\ sr_scoreType s' = sr_scoreType s /\
         (sr_scoreType s <> "TOTAL" \/
          sr_userId s ∉ (u_id <$> active_users (organizationId body) db) ->
          s' = s)) /\
    Forall2 (fun ev ev' => ev' = ev \/ ev' = with_processedAt now ev)
      (influenceEvent db) (influenceEvent db') /\
    (processEvents body = false -> influenceEvent db' = influenceEvent db).
Proof.
  intros Hfuel. destruct (decide (organizationId body = "")) as [Horg|Horg].
  - exists BadRequest, db. unfold POST_steps_1_to_8. rewrite bool_decide_eq_true_2 by done.
    split; [done|]. split; [done|]. split; [done|]. split; [done|].
    split; [done|]. split; [done|]. split; [by eauto|].
    split; [apply Forall2_same; by left|done].
  - destruct (POST_loop fuel now db body Horg Hfuel)
      as (results & hist & impact & r & Hr & ->).
    eexists _, _. split; [reflexivity|]. cbn [influenceEdge user influenceScore
                                              influenceEvent].
    split; [done|]. split; [done|]. split; [done|]. split; [done|].
    pose proof (fold_update_rows now hist
                  (Array_sort (fun a b => n_sub (newScore b) (newScore a))
                     (score_user now (applyDecay body) results impact
                        <$> active_users (organizationId body) db))
                  (influenceScore db, [], 0%nat)) as [Hlen Hrows].
    rewrite <- Hr in Hlen, Hrows. cbn [fst] in Hlen, Hrows.
    split; [exact Hlen|]. split; [|split].
    + intros i s Hs. destruct (Hrows i s Hs) as (s' & Hs' & Hid & Hty & Hsame).
      exists s'. split; [done|]. split; [done|]. split; [done|].
      intros [Hnt|Hnin]; apply Hsame; [by left|]. right.
      intros Hin. apply Hnin.
      rewrite (Array_sort_permutation _ _) in Hin.
      rewrite <- list_fmap_compose in Hin. exact Hin.
    + destruct (if processEvents body
                then pending_events (organizationId body) db else []);
        [apply Forall2_same; by left|apply mark_processed_frame].
    + by intros ->.
Qed.



End RouteExtra.



